(** * Room registry and session coordinator of the PIN chat server

    A shallow embedding of the Socket.IO chat server of this repository:
    the three in-memory maps ([rooms], [deviceRoomMap], [socketToDeviceMap]),
    the PIN generator and the four socket handlers ([create_room],
    [join_room], [send_message], [disconnect]) together with the deferred
    clean-up closure that [disconnect] hands to [setTimeout].

    The server is event driven and single threaded: every handler runs to
    completion.  A handler is therefore a function from the registry state
    to the next state and the list of effects it performs on the transport
    (acknowledgement callback, private emits, broadcasts, group joins). *)

From Stdlib Require Import ZArith QArith Qround Qpower Qabs Lia Lqa.
From stdpp Require Import gmap strings list fin_maps pretty sorting.

(** ** JavaScript values of the payloads *)

(** A payload field that the interface types as a string: [None] is a field
    that is absent ([undefined]). *)
Definition truthy (v : option string) : bool :=
  match v with
  | Some s => negb (String.eqb s "")
  | None => false
  end.

(** ** JavaScript numbers

    A Number is a binary64 number, given here by its exact value, a
    rational.  Every arithmetic operation returns the binary64 number
    nearest to the exact result, ties to the even significand. *)

(** The integer part of the binary logarithm of a positive rational. *)
Definition Qlog2 (x : Q) : Z :=
  let e := (Z.log2 (Qnum x) - Z.log2 (Zpos (Qden x)))%Z in
  if Qle_bool (2 ^ e) x then e else (e - 1)%Z.

(** Rounding to the nearest integer, ties to even. *)
Definition rne (w : Q) : Z :=
  let f := Qfloor w in
  match (w - inject_Z f ?= 1 # 2)%Q with
  | Lt => f
  | Gt => (f + 1)%Z
  | Eq => if Z.even f then f else (f + 1)%Z
  end.

(** The exponent of the unit in the last place of the binary64 numbers
    around [x]: 52 places below the leading bit, and never below the
    exponent -1074 of the subnormal numbers. *)
Definition quantum (x : Q) : Z := (Qlog2 (Qabs x) - 52) `max` (-1074).

(** The binary64 number nearest to [x], for a magnitude below 2^1024. *)
Definition round64 (x : Q) : Q :=
  if Qeq_bool x 0 then 0%Q
  else (inject_Z (rne (x / 2 ^ quantum x)) * 2 ^ quantum x)%Q.

(** The [limit] field, typed as an integer by the interface ([None] when
    absent): the integer that the client sent, of a magnitude below 2^1024.
    The Number that the server holds for it is the nearest binary64 number,
    which is the integer itself up to 2^53.  [!limit] holds for [undefined]
    and for [0]. *)
Definition truthy_num (v : option Z) : bool :=
  match v with
  | Some n => negb (n =? 0)%Z
  | None => false
  end.

(** The first decimal digit of a positive integer and the power of ten at
    the place of that digit: the integer is divided by ten until one digit
    is left, which takes fewer steps than it has binary digits. *)
Fixpoint leading_go (fuel : nat) (n scale : Z) : Z * Z :=
  match fuel with
  | O => (n, scale)
  | S fuel' =>
      if (n <? 10)%Z then (n, scale)
      else leading_go fuel' (n / 10) (scale * 10)
  end.

Definition leading (n : Z) : Z * Z := leading_go (Z.to_nat (Z.log2 n)) n 1.

(** The first digit of [String(x)] for a Number [x] of 1e21 or more, which
    is rendered in exponent notation, 'd.ddde+21' or 'de+21', with the
    fewest digits that read back as [x].  It is the first digit of [x],
    unless the next number above [x] with one significant digit reads back
    as [x], too: then that number is the rendering (the Number nearest to
    1e23 is rendered as '1e+23', although it is below 1e23). *)
Definition first_digit (x : Q) : Z :=
  let (l, scale) := leading (Qfloor x) in
  if Qeq_bool (round64 (inject_Z ((l + 1) * scale))) x
  then (if (l =? 9)%Z then 1%Z else (l + 1)%Z)
  else l.

(** [parseInt(limit, 10)] on the Number of an integer.  [parseInt] renders
    its argument with [String] and reads the longest prefix of the
    rendering that is a decimal integer.  Below 1e21 the rendering is in
    decimal digits and reads back as the Number.  From 1e21 on it is in
    exponent notation, of which [parseInt] reads the first digit only:
    [parseInt(1e21, 10)] is 1. *)
Definition parseInt10 (n : Z) : Z :=
  let x := round64 (inject_Z (Z.abs n)) in
  (Z.sgn n * (if Qle_bool (inject_Z (10 ^ 21)) x then first_digit x
              else Qfloor x))%Z.

(** [Number.prototype.toString] on an integer is its decimal expansion. *)
Definition toString (n : Z) : string := pretty n.

(** ** Data model *)

(** One element of [room.users]:
    [{ socketId, nickname, deviceId, joinedAt }]. *)
Record user := User {
  socketId : string;
  nickname : string;
  deviceId : string;
  joinedAt : Z;
}.

(** [roomData]: [{ hostSocketId, limit, users, createdAt }]. *)
Record room := Room {
  hostSocketId : string;
  limit : Z;
  users : list user;
  createdAt : Z;
}.

#[global] Instance user_eq_dec : EqDecision user.
Proof. solve_decision. Defined.

#[global] Instance room_eq_dec : EqDecision room.
Proof. solve_decision. Defined.

(** The process-wide storage, plus the clean-up closures that are pending in
    the timer queue of the runtime; a closure captures only its [pin]. *)
Record state := State {
  rooms : gmap string room;
  deviceRoomMap : gmap string string;
  socketToDeviceMap : gmap string string;
  timers : list string;
}.

Definition init : state :=
  {| rooms := ∅; deviceRoomMap := ∅; socketToDeviceMap := ∅; timers := [] |}.

(** [Map.prototype.has]. *)
Definition has {V} (m : gmap string V) (k : string) : bool :=
  bool_decide (is_Some (m !! k)).

(** ** PIN generation

    The product and the sum of the PIN are each rounded to the nearest
    binary64 number. *)


(** Such a value is a binary64 number: rounding leaves it as it is. *)
Definition random_value (r : Q) : Prop :=
  (0 <= r)%Q ∧ (r < 1)%Q ∧ (round64 r == r)%Q.

(** [Math.floor(100000 + Math.random() * 900000)]. *)
Definition pin_number (r : Q) : Z :=
  Qfloor (round64 (100000 + round64 (r * 900000))).

(** [Math.floor(100000 + Math.random() * 900000).toString()]. *)
Definition draw (r : Q) : string := toString (pin_number r).

(** [generateUniquePIN]: the [do ... while (rooms.has(pin))] loop, run on the
    successive values [rnd] of [Math.random()].  The loop has no bound of its
    own; the result is [None] when every value of [rnd] led to a PIN that is
    in use, which is when the loop asks for one more value. *)
Fixpoint generateUniquePIN (rooms : gmap string room) (rnd : list Q)
  : option string :=
  match rnd with
  | [] => None
  | r :: rnd' =>
      let pin := draw r in
      if has rooms pin then generateUniquePIN rooms rnd' else Some pin
  end.

(** The older server of the repository (P1/proyecto 1/index.js) draws its
    PIN once, [Math.floor(100000 + Math.random() * 900000).toString()], and
    does not look at the room table. *)
Module Legacy.

Definition generatePIN (r : Q) : string :=
  toString (Qfloor (round64 (100000 + round64 (r * 900000)))).

End Legacy.

(** A string of exactly six decimal digits. *)
Definition is_digit (c : Ascii.ascii) : bool :=
  (48 <=? Ascii.nat_of_ascii c) && (Ascii.nat_of_ascii c <=? 57).

Fixpoint all_digits (s : string) : bool :=
  match s with
  | EmptyString => true
  | String c s' => is_digit c && all_digits s'
  end.

Definition six_digits (s : string) : Prop :=
  String.length s = 6 ∧ all_digits s = true.

(** ** Strings *)

(** A string is given by the bytes of its UTF-8 encoding. *)
Fixpoint bytes (l : list nat) : string :=
  match l with
  | [] => EmptyString
  | n :: l' => String (Ascii.ascii_of_nat n) (bytes l')
  end.

(** The code points that [String.prototype.trim] removes, each by its
    encoding: the white space of ECMAScript (U+0009 tab, U+000B, U+000C,
    U+0020 space, U+00A0 no-break space, U+FEFF, and the other space
    separators U+1680, U+2000 to U+200A, U+202F, U+205F, U+3000) and its
    line terminators (U+000A, U+000D, U+2028, U+2029). *)
Definition white_space : list string :=
  bytes <$> [[9]; [10]; [11]; [12]; [13]; [32]; [194; 160]; [225; 154; 128];
             [226; 128; 128]; [226; 128; 129]; [226; 128; 130];
             [226; 128; 131]; [226; 128; 132]; [226; 128; 133];
             [226; 128; 134]; [226; 128; 135]; [226; 128; 136];
             [226; 128; 137]; [226; 128; 138]; [226; 128; 168];
             [226; 128; 169]; [226; 128; 175]; [226; 129; 159];
             [227; 128; 128]; [239; 187; 191]].

(** What follows the prefix [w] in [s], if [s] begins with [w]. *)
Fixpoint strip_prefix (w s : string) : option string :=
  match w, s with
  | EmptyString, _ => Some s
  | String a w', String b s' =>
      if Ascii.eqb a b then strip_prefix w' s' else None
  | String _ _, EmptyString => None
  end.

(** What follows the first character of [s], if it is one of [ws]. *)
Fixpoint strip_any (ws : list string) (s : string) : option string :=
  match ws with
  | [] => None
  | w :: ws' =>
      match strip_prefix w s with
      | Some t => Some t
      | None => strip_any ws' s
      end
  end.

(** The characters of [ws] in front of [s] removed, at most [fuel] of
    them. *)
Fixpoint strip_all (ws : list string) (fuel : nat) (s : string) : string :=
  match fuel with
  | O => s
  | S fuel' =>
      match strip_any ws s with
      | Some t => strip_all ws fuel' t
      | None => s
      end
  end.

Definition trimStart (s : string) : string :=
  strip_all white_space (String.length s) s.

Definition trimEnd (s : string) : string :=
  String.rev (strip_all (String.rev <$> white_space) (String.length s)
                        (String.rev s)).

(** [String.prototype.trim]: the white space and the line terminators at
    both ends removed. *)
Definition trim (s : string) : string := trimEnd (trimStart s).

(** ** What a handler does to the transport *)

(** The error taxonomy.  The server answers [{ error: <text> }]; the texts
    are, in this order: 'Se requiere un nombre y un limite valido ...' for
    [create_room] and 'Datos de conexion incompletos' for [join_room],
    'PIN invalido. La sala no existe.', 'La sala esta llena (n/n
    participantes).', 'Este dispositivo ya esta en otra sala.' and 'Ya estas
    en esta sala desde este dispositivo.'. *)
Inductive error :=
  | InvalidInput
  | RoomNotFound
  | RoomFull
  | DeviceAlreadyElsewhere
  | DeviceAlreadyInRoom.

(** The argument of the acknowledgement callback:
    [{ success: true, pin, participants, limit }] or [{ error }]. *)
Inductive response :=
  | success (pin : string) (participants : nat) (limit : Z)
  | failure (e : error).

(** The outbound events.  The payload of [host_info] is read from the
    network interfaces of the host and is left out. *)
Inductive event :=
  | host_info
  | room_update (participants : nat) (limit : Z)
                (userJoined userLeft : option string)
  | receive_message (autor message : string) (timestamp : Z).

(** The calls a handler makes on its socket and on the server, in program
    order: [callback(r)], [socket.join(pin)], [socket.emit(e)] and
    [io.to(pin).emit(e)]. *)
Inductive effect :=
  | callback (r : response)
  | socket_join (pin : string)
  | socket_emit (e : event)
  | io_to_emit (pin : string) (e : event).

#[global] Instance error_eq_dec : EqDecision error.
Proof. solve_decision. Defined.

#[global] Instance response_eq_dec : EqDecision response.
Proof. solve_decision. Defined.

#[global] Instance event_eq_dec : EqDecision event.
Proof. solve_decision. Defined.

#[global] Instance effect_eq_dec : EqDecision effect.
Proof. solve_decision. Defined.

(** The answer that a handler passed to its callback, if any. *)
Fixpoint answer (eff : list effect) : option response :=
  match eff with
  | [] => None
  | callback r :: _ => Some r
  | _ :: eff' => answer eff'
  end.

Definition answers (eff : list effect) : list response :=
  omap (λ e, match e with callback r => Some r | _ => None end) eff.

Definition succeeded (eff : list effect) : bool :=
  match answer eff with
  | Some (success _ _ _) => true
  | _ => false
  end.

(** ** The handlers *)

(** [undefined < 2] is false, as every comparison with [NaN]. *)
Definition lt2 (v : option Z) : bool :=
  match v with
  | Some n => (n <? 2)%Z
  | None => false
  end.

(** [room.users.some(user => user.deviceId === deviceId)]. *)
Definition userExists (dev : string) (us : list user) : bool :=
  existsb (λ u, bool_decide (deviceId u = dev)) us.

(** [room.users.findIndex(u => u.socketId === socket.id)]; [None] is -1. *)
Definition findIndex (sid : string) (us : list user) : option (nat * user) :=
  list_find (λ u, socketId u = sid) us.

Definition with_rooms (st : state) (m : gmap string room) : state :=
  {| rooms := m; deviceRoomMap := deviceRoomMap st;
     socketToDeviceMap := socketToDeviceMap st; timers := timers st |}.

(** [socket.on('create_room', ({ nickname, limit }, callback) => ...)] on the
    socket [sid], at time [now], with [rnd] the values of [Math.random()]. *)
Definition create_room (sid : string) (nickname : option string)
    (limit : option Z) (now : Z) (rnd : list Q) (st : state)
  : option (state * list effect) :=
  if negb (truthy nickname) || negb (truthy_num limit) || lt2 limit then
    Some (st, [callback (failure InvalidInput)])
  else
    match limit with
    | None => Some (st, [callback (failure InvalidInput)])
    | Some n =>
        pin ← generateUniquePIN (rooms st) rnd;
        let roomData := Room sid (parseInt10 n) [] now in
        Some (with_rooms st (<[pin := roomData]> (rooms st)),
              [socket_join pin;
               callback (success pin 1 (parseInt10 n));
               socket_emit host_info])
    end.

(** [socket.on('join_room', ({ pin, nickname, deviceId }, callback) => ...)]. *)
Definition join_room (sid : string) (pin nickname deviceId : option string)
    (now : Z) (st : state) : state * list effect :=
  if negb (truthy pin) || negb (truthy nickname) || negb (truthy deviceId) then
    (st, [callback (failure InvalidInput)])
  else
    match pin, nickname, deviceId with
    | Some pin, Some nickname, Some deviceId =>
        match rooms st !! pin with
        | None => (st, [callback (failure RoomNotFound)])
        | Some r =>
            if (limit r <=? Z.of_nat (length (users r)))%Z then
              (st, [callback (failure RoomFull)])
            else if has (deviceRoomMap st) deviceId
                    && bool_decide (deviceRoomMap st !! deviceId ≠ Some pin) then
              (st, [callback (failure DeviceAlreadyElsewhere)])
            else if userExists deviceId (users r) then
              (st, [callback (failure DeviceAlreadyInRoom)])
            else
              let user := User sid nickname deviceId now in
              let r' := Room (hostSocketId r) (limit r) (users r ++ [user])
                             (createdAt r) in
              ({| rooms := <[pin := r']> (rooms st);
                  deviceRoomMap := <[deviceId := pin]> (deviceRoomMap st);
                  socketToDeviceMap := <[sid := deviceId]> (socketToDeviceMap st);
                  timers := timers st |},
               [socket_join pin;
                callback (success pin (length (users r')) (limit r'));
                io_to_emit pin (room_update (length (users r')) (limit r')
                                            (Some nickname) None);
                socket_emit host_info])
        end
    | _, _, _ => (st, [callback (failure InvalidInput)])
    end.

(** [socket.on('send_message', ({ pin, autor, message }) => ...)]; the
    timestamp is the ISO rendering of [now]. *)
Definition send_message (pin autor message : option string) (now : Z)
    (st : state) : state * list effect :=
  if negb (truthy pin) || negb (truthy autor) || negb (truthy message) then
    (st, [])
  else
    match pin, autor, message with
    | Some pin, Some autor, Some message =>
        match rooms st !! pin with
        | None => (st, [])
        | Some _ =>
            (st, [io_to_emit pin (receive_message autor (trim message) now)])
        end
    | _, _, _ => (st, [])
    end.

(** [socket.on('disconnect', () => ...)].  When the room is left empty the
    clean-up closure for [pin] is handed to [setTimeout]. *)
Definition disconnect (sid : string) (st : state) : state * list effect :=
  match socketToDeviceMap st !! sid with
  | None => (st, [])
  | Some deviceId =>
      if negb (truthy (Some deviceId)) then (st, []) else
      match deviceRoomMap st !! deviceId with
      | None => (st, [])
      | Some pin =>
          if negb (truthy (Some pin)) then (st, []) else
          match rooms st !! pin with
          | None => (st, [])
          | Some r =>
              match findIndex sid (users r) with
              | None => (st, [])
              | Some (userIndex, user) =>
                  let r' := Room (hostSocketId r) (limit r)
                                 (delete userIndex (users r)) (createdAt r) in
                  ({| rooms := <[pin := r']> (rooms st);
                      deviceRoomMap := delete deviceId (deviceRoomMap st);
                      socketToDeviceMap := delete sid (socketToDeviceMap st);
                      timers := if bool_decide (length (users r') = 0)
                                then timers st ++ [pin] else timers st |},
                   [io_to_emit pin (room_update (length (users r')) (limit r')
                                                None (Some (nickname user)))])
              end
          end
      end
  end.

(** The closure that [disconnect] schedules:
    [if (rooms.has(pin) && rooms.get(pin).users.length === 0)
       rooms.delete(pin)]. *)
Definition cleanup (pin : string) (st : state) : state :=
  match rooms st !! pin with
  | Some r =>
      if bool_decide (length (users r) = 0)
      then with_rooms st (delete pin (rooms st))
      else st
  | None => st
  end.

(** ** The event loop *)

(** What the event loop can dispatch: the four socket events, each on the
    socket [sid] that received it, and the expiry of the oldest pending
    timer (all timers carry the same delay, so they expire in the order in
    which they were set). *)
Inductive request :=
  | CreateRoom (sid : string) (nickname : option string) (limit : option Z)
               (now : Z) (rnd : list Q)
  | JoinRoom (sid : string) (pin nickname deviceId : option string) (now : Z)
  | SendMessage (sid : string) (pin autor message : option string) (now : Z)
  | Disconnect (sid : string)
  | Timeout.

Definition handle (req : request) (st : state) : option (state * list effect) :=
  match req with
  | CreateRoom sid nickname limit now rnd =>
      create_room sid nickname limit now rnd st
  | JoinRoom sid pin nickname deviceId now =>
      Some (join_room sid pin nickname deviceId now st)
  | SendMessage _ pin autor message now =>
      Some (send_message pin autor message now st)
  | Disconnect sid => Some (disconnect sid st)
  | Timeout =>
      match timers st with
      | [] => None
      | pin :: rest =>
          Some (cleanup pin {| rooms := rooms st;
                               deviceRoomMap := deviceRoomMap st;
                               socketToDeviceMap := socketToDeviceMap st;
                               timers := rest |}, [])
      end
  end.

(** Running a sequence of events from a state. *)
Fixpoint run (reqs : list request) (st : state) : option state :=
  match reqs with
  | [] => Some st
  | req :: reqs' =>
      match handle req st with
      | Some (st', _) => run reqs' st'
      | None => None
      end
  end.

Definition reachable (st : state) : Prop :=
  ∃ reqs, run reqs init = Some st.

(** The state and the effects of an accepted join. *)
Definition joined (sid p nk d : string) (now : Z) (r : room) (st : state)
  : state * list effect :=
  let r' := Room (hostSocketId r) (limit r)
                 (users r ++ [User sid nk d now]) (createdAt r) in
  ({| rooms := <[p := r']> (rooms st);
      deviceRoomMap := <[d := p]> (deviceRoomMap st);
      socketToDeviceMap := <[sid := d]> (socketToDeviceMap st);
      timers := timers st |},
   [socket_join p;
    callback (success p (length (users r')) (limit r'));
    io_to_emit p (room_update (length (users r')) (limit r') (Some nk) None);
    socket_emit host_info]).

(** The state and the effects of a disconnect that removes the member at
    index [i] of the room [r] stored under [pin]. *)
Definition departed (sid d pin : string) (i : nat) (u : user) (r : room)
    (st : state) : state * list effect :=
  let r' := Room (hostSocketId r) (limit r) (delete i (users r))
                 (createdAt r) in
  ({| rooms := <[pin := r']> (rooms st);
      deviceRoomMap := delete d (deviceRoomMap st);
      socketToDeviceMap := delete sid (socketToDeviceMap st);
      timers := if bool_decide (length (users r') = 0)
                then timers st ++ [pin] else timers st |},
   [io_to_emit pin (room_update (length (users r')) (limit r')
                                None (Some (nickname u)))]).

(** The error carried by the answer of a handler, if it is one. *)
Definition join_error (eff : list effect) : option error :=
  match answer eff with
  | Some (failure e) => Some e
  | _ => None
  end.

(** No event of [reqs], run from [st], is a [join_room] on the socket [c]
    that is answered with a success. *)
Fixpoint never_joined (c : string) (reqs : list request) (st : state) : Prop :=
  match reqs with
  | [] => True
  | req :: reqs' =>
      match handle req st with
      | None => True
      | Some (st', eff) =>
          match req with
          | JoinRoom sid _ _ _ _ => ¬ (sid = c ∧ succeeded eff = true)
          | _ => True
          end ∧ never_joined c reqs' st'
      end
  end.

(** ** The properties of the specification, in its words *)

(** The members of a room that carry a device identifier. *)
Definition members_with (d : string) (r : room) : list user :=
  filter (λ u, deviceId u = d) (users r).

(** Every indexed device is a member, once, of the indexed room and of no
    other room. *)
Definition index_consistent (st : state) : Prop :=
  ∀ d p, deviceRoomMap st !! d = Some p →
    (∃ r, rooms st !! p = Some r ∧ length (members_with d r) = 1)
    ∧ (∀ p' r', rooms st !! p' = Some r' → members_with d r' ≠ [] → p' = p).

(** The three facts that keep the indices in step with the member lists:
    every member is indexed under its device and under its socket, every
    indexed device is a member of the indexed room, and no room has two
    members with one device. *)
Definition members_indexed (st : state) : Prop :=
  ∀ p r u, rooms st !! p = Some r → u ∈ users r →
    deviceRoomMap st !! deviceId u = Some p
    ∧ socketToDeviceMap st !! socketId u = Some (deviceId u).

Definition index_inhabited (st : state) : Prop :=
  ∀ d p, deviceRoomMap st !! d = Some p →
    ∃ r, rooms st !! p = Some r ∧ d ∈ deviceId <$> users r.

Definition devices_distinct (st : state) : Prop :=
  ∀ p r, rooms st !! p = Some r → NoDup (deviceId <$> users r).

Definition in_step (st : state) : Prop :=
  members_indexed st ∧ index_inhabited st ∧ devices_distinct st.

(** Along [reqs], run from [st], a [join_room] is answered with a success
    only on a socket that holds no membership yet. *)
Fixpoint one_join_per_socket (reqs : list request) (st : state) : Prop :=
  match reqs with
  | [] => True
  | req :: reqs' =>
      match handle req st with
      | None => True
      | Some (st', eff) =>
          match req with
          | JoinRoom sid _ _ _ _ =>
              succeeded eff = true → socketToDeviceMap st !! sid = None
          | _ => True
          end ∧ one_join_per_socket reqs' st'
      end
  end.

(** [len(members) <= capacity] in every room. *)
Definition within_capacity (st : state) : Prop :=
  ∀ pin r, rooms st !! pin = Some r →
    (Z.of_nat (length (users r)) ≤ limit r)%Z.

(** The four checks of [join_room] in the order in which the specification
    lists them; [None] when none fails. *)
Definition listed_checks (st : state) (pin dev : string) : option error :=
  match rooms st !! pin with
  | None => Some RoomNotFound
  | Some r =>
      if bool_decide (limit r ≤ Z.of_nat (length (users r)))%Z then
        Some RoomFull
      else if match deviceRoomMap st !! dev with
              | Some p => bool_decide (p ≠ pin)
              | None => false
              end then
        Some DeviceAlreadyElsewhere
      else if bool_decide (dev ∈ deviceId <$> users r) then
        Some DeviceAlreadyInRoom
      else None
  end.

(** A request field is missing when it is absent or empty. *)
Definition missing (v : option string) : Prop := v = None ∨ v = Some EmptyString.

#[global] Instance missing_dec v : Decision (missing v).
Proof. unfold missing. apply _. Defined.

(** The checks of [join_room] with the guard on the request fields in
    front. *)
Definition validation (st : state) (pin nickname deviceId : option string)
  : option error :=
  if bool_decide (missing pin ∨ missing nickname ∨ missing deviceId) then
    Some InvalidInput
  else
    match pin, deviceId with
    | Some p, Some d => listed_checks st p d
    | _, _ => Some InvalidInput
    end.

(** The condition under which the specification has [send_message]
    broadcast: the room exists and the text is not empty once trimmed. *)
Definition relay_claimed (st : state) (pin message : string) : Prop :=
  is_Some (rooms st !! pin) ∧ trim message ≠ EmptyString.

(** The capacity of a [create_room] request is in range. *)
Definition capacity_in_range (v : option Z) : Prop :=
  ∃ n, v = Some n ∧ (2 ≤ n)%Z.

(** ** The host lookup and the HTTP endpoints *)

(** One address entry of [os.networkInterfaces()]. *)
Record ifaceData := IfaceData {
  family : string;
  internal : bool;
  address : string;
}.

(** [{ ip, hostname }]. *)
Record hostInfo := HostInfo {
  ip : string;
  hostname : string;
}.

(** The inner loop of [getHostInfo],
    [for (const ifaceData of interfaces[iface])], which returns at the first
    entry with [family === 'IPv4' && !internal]. *)
Fixpoint getHostInfo_of (host : string) (entries : list ifaceData)
  : option hostInfo :=
  match entries with
  | [] => None
  | e :: entries' =>
      if bool_decide (family e = "IPv4") && negb (internal e)
      then Some (HostInfo (address e) host)
      else getHostInfo_of host entries'
  end.

(** The outer loop, [for (const iface in interfaces)], on the interfaces in
    the order of enumeration. *)
Fixpoint getHostInfo_in (host : string)
    (interfaces : list (string * list ifaceData)) : option hostInfo :=
  match interfaces with
  | [] => None
  | (_, entries) :: interfaces' =>
      match getHostInfo_of host entries with
      | Some info => Some info
      | None => getHostInfo_in host interfaces'
      end
  end.

(** [getHostInfo()], given the values of [os.networkInterfaces()] and of
    [os.hostname()]. *)
Definition getHostInfo (interfaces : list (string * list ifaceData))
    (host : string) : hostInfo :=
  match getHostInfo_in host interfaces with
  | Some info => info
  | None => HostInfo "unknown" host
  end.

(** An address entry that [getHostInfo] accepts: IPv4 and not internal. *)
Definition external (e : ifaceData) : Prop :=
  family e = "IPv4" ∧ internal e = false.

#[global] Instance external_dec e : Decision (external e).
Proof. unfold external. apply _. Defined.

(** One element of [participants] in the answer of [GET /room/:pin]. *)
Record participant := Participant {
  p_nickname : string;
  p_deviceId : string;
  p_joinedAt : Z;
  p_connected : bool;
}.

(** The answer of [GET /room/:pin]: status 404 with an error text, or the
    room as JSON. *)
Inductive room_reply :=
  | room_404
  | room_200 (pin : string) (createdAt : Z) (limit : Z)
             (participantCount : nat) (participants : list participant).

(** [app.get('/room/:pin', ...)]; [sockets] are the identifiers of the live
    sockets, [io.sockets.sockets]. *)
Definition get_room (sockets : gset string) (pin : string) (st : state)
  : room_reply :=
  match rooms st !! pin with
  | None => room_404
  | Some r =>
      room_200 pin (createdAt r) (limit r) (length (users r))
        ((λ u, Participant (nickname u) (deviceId u) (joinedAt u)
                 (bool_decide (socketId u ∈ sockets))) <$> users r)
  end.

(** The three fields of the answer of [GET /health] that are read from the
    registry: [rooms.size], [deviceRoomMap.size], [socketToDeviceMap.size]
    (the others are the clock, the memory usage and the uptime of the
    process). *)
Record health_reply := Health {
  h_rooms : nat;
  h_connectedDevices : nat;
  h_activeSockets : nat;
}.

Definition get_health (st : state) : health_reply :=
  Health (size (rooms st)) (size (deviceRoomMap st))
         (size (socketToDeviceMap st)).

(** ** Further properties of the registry, as predicates *)

(** The values of [Math.random()] handed to a request are binary64
    numbers of [0, 1). *)
Definition fair (req : request) : Prop :=
  match req with
  | CreateRoom _ _ _ _ rnd => Forall random_value rnd
  | _ => True
  end.

(** Every PIN held anywhere in the registry is a string of six digits. *)
Definition pins_six_digits (st : state) : Prop :=
  (∀ p r, rooms st !! p = Some r → six_digits p)
  ∧ (∀ d p, deviceRoomMap st !! d = Some p → six_digits p)
  ∧ Forall six_digits (timers st).

(** No stored nickname, device identifier or PIN is the empty string. *)
Definition fields_present (st : state) : Prop :=
  (∀ p r u, rooms st !! p = Some r → u ∈ users r →
     nickname u ≠ EmptyString ∧ deviceId u ≠ EmptyString)
  ∧ (∀ d p, deviceRoomMap st !! d = Some p →
       d ≠ EmptyString ∧ p ≠ EmptyString)
  ∧ (∀ s d, socketToDeviceMap st !! s = Some d → d ≠ EmptyString).

(** Every room has a capacity of at least one, and one that [parseInt]
    read from a rendering in decimal digits or from one leading digit. *)
Definition capacity_stored (st : state) : Prop :=
  ∀ p r, rooms st !! p = Some r → (1 ≤ limit r < 10 ^ 21)%Z.

(** A string that begins, or ends, with a character that [trim] removes. *)
Definition starts_with_space (s : string) : bool :=
  bool_decide (is_Some (strip_any white_space s)).

Definition ends_with_space (s : string) : bool :=
  bool_decide (is_Some (strip_any (String.rev <$> white_space)
                                  (String.rev s))).

(** The room table in which every PIN from 100000 to 999999 is in use. *)
Definition all_pins_in_use : gmap string room :=
  list_to_map ((λ n, (toString n, Room "h" 2 [] 0)) <$> seqZ 100000 900000).

(** ** The older server (P1/proyecto 1/index.js)

    Its two tables are plain objects, [rooms = {}] and [deviceRoomMap = {}]:
    a read [obj[k]] finds the own property [k] or else what every object
    inherits from [Object.prototype], and [for ... in] enumerates the own
    keys.  It has no acknowledgement callback, no guard on the request
    fields, no socket index and no timer. *)
Module P1.

(** The names that [Object.prototype] defines. *)
Definition inherited (k : string) : bool :=
  bool_decide (k ∈ ["constructor"; "__defineGetter__"; "__defineSetter__";
                    "hasOwnProperty"; "__lookupGetter__"; "__lookupSetter__";
                    "isPrototypeOf"; "propertyIsEnumerable"; "toString";
                    "valueOf"; "__proto__"; "toLocaleString"]).

(** The property key of a payload field: an absent field is the key
    'undefined'. *)
Definition key (v : option string) : string :=
  match v with
  | Some s => s
  | None => "undefined"
  end.

(** What the read [obj[k]] yields: an own value, a function or object of
    the prototype, or [undefined]. *)
Inductive prop (V : Type) :=
  | own (v : V)
  | proto
  | undefined.

Arguments own {V} v.
Arguments proto {V}.
Arguments undefined {V}.

Definition get {V} (m : gmap string V) (k : string) : prop V :=
  match m !! k with
  | Some v => own v
  | None => if inherited k then proto else undefined
  end.

(** [{ socketId, nickname, deviceId }], the last two as the request gave
    them. *)
Record user := User {
  socketId : string;
  nickname : option string;
  deviceId : option string;
}.

(** [{ hostSocketId, limit, users }], [limit] as the request gave it. *)
Record room := Room {
  hostSocketId : string;
  limit : option Z;
  users : list user;
}.

(** The values of [deviceRoomMap] are the [pin] fields of the requests. *)
Record state := State {
  rooms : gmap string room;
  deviceRoomMap : gmap string (option string);
}.

Definition init : state := {| rooms := ∅; deviceRoomMap := ∅ |}.

(** The outbound events; [error_join] carries one of the four texts 'PIN
    invalido. La sala no existe.', 'La sala esta llena.', 'Este dispositivo
    ya esta en otra sala.', 'Este dispositivo ya esta en esta sala.'. *)
Inductive event :=
  | room_created (pin : string)
  | host_info
  | error_join (e : error)
  | joined_room (pin : option string)
  | room_update (participants : nat) (limit : option Z)
  | receive_message (autor message : option string).

Inductive effect :=
  | socket_join (pin : option string)
  | socket_emit (e : event)
  | io_to_emit (pin : option string) (e : event).

(** [socket.on('create_room', ({ nickname, limit }) => ...)], with [r] the
    value of [Math.random()]. *)
Definition create_room (sid : string) (nickname : option string)
    (limit : option Z) (r : Q) (st : state) : state * list effect :=
  let pin := Legacy.generatePIN r in
  ({| rooms := <[pin := Room sid limit []]> (rooms st);
      deviceRoomMap := deviceRoomMap st |},
   [socket_join (Some pin); socket_emit (room_created pin);
    socket_emit host_info]).

(** [room.users.length >= room.limit]; false when [limit] is
    [undefined]. *)
Definition full (r : room) : bool :=
  match limit r with
  | Some n => (n <=? Z.of_nat (length (users r)))%Z
  | None => false
  end.

(** [deviceRoomMap[deviceId] && deviceRoomMap[deviceId] !== pin]. *)
Definition elsewhere (m : gmap string (option string))
    (deviceId pin : option string) : bool :=
  match get m (key deviceId) with
  | own v => truthy v && bool_decide (v ≠ pin)
  | proto => true
  | undefined => false
  end.

(** [socket.on('join_room', ({ pin, nickname, deviceId }) => ...)]; the
    result is [None] when the handler throws, which [room.users.length] does
    when [rooms[pin]] is inherited from the prototype. *)
Definition join_room (sid : string) (pin nickname deviceId : option string)
    (st : state) : option (state * list effect) :=
  match get (rooms st) (key pin) with
  | undefined => Some (st, [socket_emit (error_join RoomNotFound)])
  | proto => None
  | own r =>
      if full r then Some (st, [socket_emit (error_join RoomFull)])
      else if elsewhere (deviceRoomMap st) deviceId pin then
        Some (st, [socket_emit (error_join DeviceAlreadyElsewhere)])
      else if existsb (λ u, bool_decide (P1.deviceId u = deviceId)) (users r)
      then Some (st, [socket_emit (error_join DeviceAlreadyInRoom)])
      else
        let r' := Room (hostSocketId r) (limit r)
                       (users r ++ [User sid nickname deviceId]) in
        Some ({| rooms := <[key pin := r']> (rooms st);
                 deviceRoomMap :=
                   <[key deviceId := pin]> (deviceRoomMap st) |},
              [socket_join pin; socket_emit (joined_room pin);
               io_to_emit pin (room_update (length (users r')) (limit r'));
               socket_emit host_info])
  end.

(** [socket.on('send_message', ({ pin, autor, message }) => ...)]. *)
Definition send_message (pin autor message : option string) (st : state)
  : state * list effect :=
  (st, [io_to_emit pin (receive_message autor message)]).

(** The order of the keys of [rooms] in [for (const pin in rooms)].  The
    keys are the PINs that [generatePIN] returned, decimal renderings of
    integers, which are enumerated by ascending value: shorter first, and
    in the order of the digits at equal length. *)
Definition index_le (a b : string) : Prop :=
  String.length a < String.length b
  ∨ (String.length a = String.length b ∧ String.le a b).

#[global] Instance index_le_dec : RelDecision index_le.
Proof. intros a b. unfold index_le. apply _. Defined.

Definition enumerate (m : gmap string room) : list string :=
  merge_sort index_le (elements (dom m)).

(** [removed.deviceId && deviceRoomMap[removed.deviceId]]. *)
Definition indexed (m : gmap string (option string)) (deviceId : option string)
  : bool :=
  truthy deviceId
  && match get m (key deviceId) with
     | own v => truthy v
     | proto => true
     | undefined => false
     end.

(** The loop of the disconnect handler over the enumerated keys [pins],
    left at the first room that has a member with the socket. *)
Fixpoint disconnect_loop (sid : string) (pins : list string) (st : state)
  : state * list effect :=
  match pins with
  | [] => (st, [])
  | pin :: pins' =>
      match rooms st !! pin with
      | None => disconnect_loop sid pins' st
      | Some r =>
          match list_find (λ u, socketId u = sid) (users r) with
          | None => disconnect_loop sid pins' st
          | Some (userIndex, removed) =>
              let r' := Room (hostSocketId r) (limit r)
                             (delete userIndex (users r)) in
              ({| rooms := if bool_decide (length (users r') = 0)
                           then delete pin (rooms st)
                           else <[pin := r']> (rooms st);
                  deviceRoomMap :=
                    if indexed (deviceRoomMap st) (deviceId removed)
                    then delete (key (deviceId removed)) (deviceRoomMap st)
                    else deviceRoomMap st |},
               [io_to_emit (Some pin)
                  (room_update (length (users r')) (limit r'))])
          end
      end
  end.

(** [socket.on('disconnect', () => ...)]. *)
Definition disconnect (sid : string) (st : state) : state * list effect :=
  disconnect_loop sid (enumerate (rooms st)) st.

Inductive request :=
  | CreateRoom (sid : string) (nickname : option string) (limit : option Z)
               (r : Q)
  | JoinRoom (sid : string) (pin nickname deviceId : option string)
  | SendMessage (sid : string) (pin autor message : option string)
  | Disconnect (sid : string).

Definition handle (req : request) (st : state) : option (state * list effect) :=
  match req with
  | CreateRoom sid nickname limit r => Some (create_room sid nickname limit r st)
  | JoinRoom sid pin nickname deviceId => join_room sid pin nickname deviceId st
  | SendMessage _ pin autor message => Some (send_message pin autor message st)
  | Disconnect sid => Some (disconnect sid st)
  end.

Fixpoint run (reqs : list request) (st : state) : option state :=
  match reqs with
  | [] => Some st
  | req :: reqs' =>
      match handle req st with
      | Some (st', _) => run reqs' st'
      | None => None
      end
  end.

(** The four checks of the specification on the tables of this server. *)
Definition listed_checks (st : state) (pin dev : string) : option error :=
  match rooms st !! pin with
  | None => Some RoomNotFound
  | Some r =>
      if match limit r with
         | Some n => bool_decide (n ≤ Z.of_nat (length (users r)))%Z
         | None => false
         end
      then Some RoomFull
      else if match deviceRoomMap st !! dev with
              | Some (Some p) => bool_decide (p ≠ EmptyString ∧ p ≠ pin)
              | _ => false
              end
      then Some DeviceAlreadyElsewhere
      else if bool_decide (Some dev ∈ deviceId <$> users r)
      then Some DeviceAlreadyInRoom
      else None
  end.

(** No room with a capacity holds more members than it (or than none, when
    the capacity is negative). *)
Definition within_capacity (st : state) : Prop :=
  ∀ pin r n, rooms st !! pin = Some r → limit r = Some n →
    (Z.of_nat (length (users r)) ≤ Z.max n 0)%Z.

End P1.

(** ** Facts on decimal rendering *)

Lemma pretty_N_char_digit (x : N) : is_digit (pretty_N_char x) = true.
Proof. unfold pretty_N_char. by repeat case_match. Qed.

Lemma pretty_N_six (n : N) :
  (100000 ≤ n ≤ 999999)%N → six_digits (pretty n).
Proof.
  intros Hn. unfold pretty, pretty_N.
  rewrite decide_False by lia.
  assert (0 < N.div n 10 ∧ 0 < N.div n 100 ∧ 0 < N.div n 1000
    ∧ 0 < N.div n 10000 ∧ 0 < N.div n 100000 ∧ N.div n 1000000 = 0)%N
    as (H1 & H2 & H3 & H4 & H5 & H6).
  { repeat split; try (apply N.div_str_pos; lia). apply N.div_small; lia. }
  rewrite pretty_N_go_step by lia.
  do 5 (rewrite pretty_N_go_step, N.Div0.div_div
          by (by rewrite ?N.Div0.div_div)).
  change (10 * 10 * 10 * 10 * 10 * 10)%N with 1000000%N.
  rewrite H6, pretty_N_go_0.
  split; [done|]. simpl. by rewrite !pretty_N_char_digit.
Qed.

Lemma toString_six (n : Z) :
  (100000 ≤ n ≤ 999999)%Z → six_digits (toString n).
Proof.
  intros Hn. destruct n as [|p|p]; try lia.
  unfold toString, pretty, pretty_Z, pretty, pretty_positive.
  apply pretty_N_six. lia.
Qed.

Lemma pretty_N_go_length (x : N) (s : string) :
  String.length s ≤ String.length (pretty_N_go x s).
Proof.
  revert s. induction (N.lt_wf_0 x) as [x _ IH]; intros s.
  assert (x = 0 ∨ 0 < x)%N as [->|?] by lia; [by rewrite pretty_N_go_0|].
  rewrite pretty_N_go_step by done.
  etrans; [|by eapply IH, N.div_lt]. simpl. lia.
Qed.

Lemma toString_nonempty (n : Z) : toString n ≠ EmptyString.
Proof.
  assert (∀ p : positive, pretty p ≠ EmptyString) as Hpos.
  { intros p. unfold pretty, pretty_positive, pretty, pretty_N.
    rewrite decide_False by lia. rewrite pretty_N_go_step by lia.
    intros H.
    pose proof (pretty_N_go_length (N.div (N.pos p) 10)
                  (String (pretty_N_char (N.pos p `mod` 10)) EmptyString)) as Hl.
    rewrite H in Hl. simpl in Hl. lia. }
  destruct n as [|p|p]; [done|apply Hpos|done].
Qed.

(** ** Facts on binary64 rounding *)

Section binary64.

Local Open Scope Q_scope.


Lemma two_pos (e : Z) : 0 < 2 ^ e.
Proof. apply Qpower_0_lt. reflexivity. Qed.

Lemma two_Zpow (j : Z) : (0 <= j)%Z -> inject_Z (2 ^ j) == 2 ^ j.
Proof. intros Hj. rewrite Zpower_Qpower by assumption. reflexivity. Qed.

Lemma two_succ (e : Z) : 2 ^ (e + 1) == 2 * 2 ^ e.
Proof.
  rewrite Qpower_plus by (intros H; discriminate H).
  rewrite Qpower_1_r. ring.
Qed.

Lemma Qlog2_spec (x : Q) : 0 < x -> 2 ^ Qlog2 x <= x /\ x < 2 ^ (Qlog2 x + 1).
Proof.
  intros Hx. unfold Qlog2.
  set (la := Z.log2 (Qnum x)). set (ld := Z.log2 (Z.pos (Qden x))).
  assert (Hn : (0 < Qnum x)%Z).
  { destruct x as [n d]. unfold Qlt in Hx. simpl in *. lia. }
  destruct (Z.log2_spec (Qnum x) Hn) as [Ha1 Ha2]. fold la in Ha1, Ha2.
  destruct (Z.log2_spec (Z.pos (Qden x)) (Pos2Z.is_pos _)) as [Hd1 Hd2].
  fold ld in Hd1, Hd2.
  assert (Hla : (0 <= la)%Z) by apply Z.log2_nonneg.
  assert (Hld : (0 <= ld)%Z) by apply Z.log2_nonneg.
  assert (HX : x * inject_Z (Z.pos (Qden x)) == inject_Z (Qnum x)).
  { destruct x as [n d]. unfold Qeq, Qmult, inject_Z. simpl. lia. }
  rewrite Zle_Qle in Ha1, Hd1. rewrite Zlt_Qlt in Ha2, Hd2.
  rewrite two_Zpow in Ha1, Hd1 by assumption.
  rewrite two_Zpow in Ha2, Hd2 by lia.
  replace (Z.succ la) with (la + 1)%Z in Ha2 by lia.
  replace (Z.succ ld) with (ld + 1)%Z in Hd2 by lia.
  rewrite two_succ in Ha2, Hd2.
  assert (He : 2 ^ (la - ld) * 2 ^ ld == 2 ^ la).
  { rewrite <- Qpower_plus by (intros H; discriminate H).
    replace (la - ld + ld)%Z with la by lia. reflexivity. }
  pose proof (two_pos la) as Pa. pose proof (two_pos ld) as Pd.
  pose proof (two_pos (la - ld)) as Pe.
  set (N := inject_Z (Qnum x)) in *. set (D := inject_Z (Z.pos (Qden x))) in *.
  set (a := 2 ^ la) in *. set (d := 2 ^ ld) in *.
  set (E := 2 ^ (la - ld)) in *.
  assert (HD : 0 < D) by (apply Qlt_le_trans with d; assumption).
  assert (H1 : x * d <= x * D) by (apply Qmult_le_l; assumption).
  assert (Hup : x < 2 * E).
  { apply Qmult_lt_r with d; [assumption|]. lra. }
  destruct (Qle_bool E x) eqn:Hb.
  - apply Qle_bool_iff in Hb. split; [assumption|].
    rewrite two_succ. assumption.
  - assert (Hlt : x < E).
    { apply Qnot_le_lt. intros H. apply Qle_bool_iff in H. congruence. }
    replace (la - ld - 1 + 1)%Z with (la - ld)%Z by lia.
    split; [|assumption].
    assert (E2 : 2 * 2 ^ (la - ld - 1) == E).
    { rewrite <- two_succ. replace (la - ld - 1 + 1)%Z with (la - ld)%Z by lia.
      reflexivity. }
    assert (H2 : E * D <= E * (2 * d)).
    { apply Qmult_le_l; [assumption|]. lra. }
    apply Qmult_le_r with (2 * D); [lra|].
    assert (H3 : E * D == 2 * 2 ^ (la - ld - 1) * D) by (rewrite <- E2; ring).
    set (E' := 2 ^ (la - ld - 1)) in *. lra.
Qed.

Lemma Qlog2_unique (x : Q) (a : Z) : 2 ^ a <= x -> x < 2 ^ (a + 1) -> Qlog2 x = a.
Proof.
  intros H1 H2.
  assert (Hx : 0 < x) by (apply Qlt_le_trans with (2 ^ a); [apply two_pos|assumption]).
  destruct (Qlog2_spec x Hx) as [H3 H4].
  assert (a < Qlog2 x + 1)%Z.
  { apply Qpower_lt_compat_l_inv with 2; [|reflexivity].
    apply Qle_lt_trans with x; assumption. }
  assert (Qlog2 x < a + 1)%Z.
  { apply Qpower_lt_compat_l_inv with 2; [|reflexivity].
    apply Qle_lt_trans with x; assumption. }
  lia.
Qed.

Lemma Qlog2_lt (x : Q) (b : Z) : 0 < x -> x < 2 ^ b -> (Qlog2 x < b)%Z.
Proof.
  intros Hx H. destruct (Qlog2_spec x Hx) as [H3 _].
  apply Qpower_lt_compat_l_inv with 2; [|reflexivity].
  apply Qle_lt_trans with x; assumption.
Qed.

Lemma rne_close (w : Q) :
  inject_Z (rne w) - w <= 1 # 2 /\ w - inject_Z (rne w) <= 1 # 2.
Proof.
  unfold rne. pose proof (Qfloor_le w) as H1. pose proof (Qlt_floor w) as H2.
  rewrite inject_Z_plus in H2. change (inject_Z 1) with 1 in H2.
  destruct (Qcompare_spec (w - inject_Z (Qfloor w)) (1 # 2)) as [H|H|H].
  - destruct (Z.even (Qfloor w)); rewrite ?inject_Z_plus;
      change (inject_Z 1) with 1; lra.
  - lra.
  - rewrite inject_Z_plus. change (inject_Z 1) with 1. lra.
Qed.

Lemma rne_int (w : Q) (z : Z) : w == inject_Z z -> rne w = z.
Proof.
  intros H. unfold rne.
  assert (Hf : Qfloor w = z) by (rewrite H; apply Qfloor_Z).
  rewrite Hf.
  assert (Hc : (w - inject_Z z ?= 1 # 2) = Lt) by (apply (proj1 (Qlt_alt _ _)); lra).
  rewrite Hc. reflexivity.
Qed.

Lemma Qabs_pos_eq (x : Q) : 0 < x -> Qabs x = x.
Proof.
  destruct x as [[|p|p] d]; unfold Qlt; simpl; intros H; try lia. reflexivity.
Qed.

Lemma grid_le (k m : Z) (t : Q) :
  inject_Z k - t <= 1 # 2 -> t < inject_Z m + (1 # 2) -> (k <= m)%Z.
Proof.
  intros H1 H2. apply Z.lt_succ_r. rewrite Zlt_Qlt.
  unfold Z.succ. rewrite inject_Z_plus. change (inject_Z 1) with 1. lra.
Qed.

Lemma grid_ge (k m : Z) (t : Q) :
  t - inject_Z k <= 1 # 2 -> inject_Z m - (1 # 2) < t -> (m <= k)%Z.
Proof.
  intros H1 H2. apply Z.lt_succ_r. rewrite Zlt_Qlt.
  unfold Z.succ. rewrite inject_Z_plus. change (inject_Z 1) with 1. lra.
Qed.

Lemma round64_grid (x : Q) :
  0 < x -> x < 2 ^ 20 ->
  exists (k j : Z), (33 <= j)%Z /\ (2 ^ 19 <= x -> j = 33%Z)
    /\ round64 x * inject_Z (2 ^ j) == inject_Z k
    /\ inject_Z k - x * inject_Z (2 ^ j) <= 1 # 2
    /\ x * inject_Z (2 ^ j) - inject_Z k <= 1 # 2.
Proof.
  intros Hx Hlt.
  pose proof (Qlog2_lt x 20 Hx Hlt) as Hl.
  exists (rne (x / 2 ^ quantum x)), (- quantum x)%Z.
  assert (Hq : (quantum x <= -33)%Z).
  { unfold quantum. rewrite Qabs_pos_eq by assumption. lia. }
  assert (HP : inject_Z (2 ^ (- quantum x)) * 2 ^ quantum x == 1).
  { rewrite two_Zpow by lia. rewrite <- Qpower_plus by (intros H; discriminate H).
    replace (- quantum x + quantum x)%Z with 0%Z by lia. reflexivity. }
  pose proof (two_pos (quantum x)) as Hpos.
  assert (Hdiv : x / 2 ^ quantum x == x * inject_Z (2 ^ (- quantum x))).
  { set (P := inject_Z (2 ^ (- quantum x))) in *. set (q := 2 ^ quantum x) in *.
    field_simplify_eq; [|lra].
    rewrite <- (Qmult_1_r x) at 1. rewrite <- HP. ring. }
  split; [lia|]. split.
  { intros H19. unfold quantum. rewrite Qabs_pos_eq by assumption.
    rewrite (Qlog2_unique x 19) by assumption. reflexivity. }
  destruct (rne_close (x / 2 ^ quantum x)) as [H1 H2].
  split; [|split].
  - unfold round64. destruct (Qeq_bool x 0) eqn:E.
    + apply Qeq_bool_iff in E. lra.
    + rewrite <- Qmult_assoc. rewrite (Qmult_comm (2 ^ quantum x)), HP. ring.
  - rewrite <- Hdiv. assumption.
  - rewrite <- Hdiv. assumption.
Qed.

Lemma round64_le_int (x : Q) (c : Z) :
  0 < x -> x < 2 ^ 20 -> x <= inject_Z c -> round64 x <= inject_Z c.
Proof.
  intros Hx Hlt Hc.
  destruct (round64_grid x Hx Hlt) as (k & j & Hj & _ & HR & H1 & _).
  assert (HP : 0 < inject_Z (2 ^ j)).
  { rewrite two_Zpow by lia. apply two_pos. }
  set (P := inject_Z (2 ^ j)) in *.
  assert (H2 : x * P <= inject_Z c * P) by (apply Qmult_le_compat_r; lra).
  assert (Hk : (k <= c * 2 ^ j)%Z).
  { apply (grid_le k _ (x * P)); [assumption|].
    rewrite inject_Z_mult. fold P. lra. }
  rewrite Zle_Qle, inject_Z_mult in Hk. fold P in Hk.
  apply Qmult_le_r with P; [assumption|]. lra.
Qed.

Lemma round64_ge_int (x : Q) (c : Z) :
  0 < x -> x < 2 ^ 20 -> inject_Z c <= x -> inject_Z c <= round64 x.
Proof.
  intros Hx Hlt Hc.
  destruct (round64_grid x Hx Hlt) as (k & j & Hj & _ & HR & _ & H1).
  assert (HP : 0 < inject_Z (2 ^ j)).
  { rewrite two_Zpow by lia. apply two_pos. }
  set (P := inject_Z (2 ^ j)) in *.
  assert (H2 : inject_Z c * P <= x * P) by (apply Qmult_le_compat_r; lra).
  assert (Hk : (c * 2 ^ j <= k)%Z).
  { apply (grid_ge k _ (x * P)); [assumption|].
    rewrite inject_Z_mult. fold P. lra. }
  rewrite Zle_Qle, inject_Z_mult in Hk. fold P in Hk.
  apply Qmult_le_r with P; [assumption|]. lra.
Qed.

Lemma round64_le_fine (x : Q) (m : Z) :
  2 ^ 19 <= x -> x < 2 ^ 20 -> x * inject_Z (2 ^ 33) < inject_Z m + (1 # 2) ->
  round64 x * inject_Z (2 ^ 33) <= inject_Z m.
Proof.
  intros H19 Hlt Hm.
  assert (Hx : 0 < x) by (apply Qlt_le_trans with (2 ^ 19); [reflexivity|assumption]).
  destruct (round64_grid x Hx Hlt) as (k & j & Hj & Hj' & HR & H1 & _).
  rewrite (Hj' H19) in *.
  rewrite HR. rewrite <- Zle_Qle. apply (grid_le k m (x * inject_Z (2 ^ 33))); assumption.
Qed.

Lemma round64_err (x : Q) :
  0 < x -> x < 2 ^ 20 ->
  round64 x - x <= 1 # 17179869184 /\ x - round64 x <= 1 # 17179869184.
Proof.
  intros Hx Hlt.
  destruct (round64_grid x Hx Hlt) as (k & j & Hj & _ & HR & H1 & H2).
  assert (HP : inject_Z (2 ^ 33) <= inject_Z (2 ^ j)).
  { rewrite <- Zle_Qle. apply Z.pow_le_mono_r; lia. }
  set (P := inject_Z (2 ^ j)) in *.
  assert (HP0 : 0 < P) by (apply Qlt_le_trans with (inject_Z (2 ^ 33)); [reflexivity|assumption]).
  split.
  - apply Qmult_le_r with P; [assumption|].
    apply Qle_trans with (1 # 2); [lra|].
    apply Qle_trans with ((1 # 17179869184) * inject_Z (2 ^ 33)); [apply Qle_lteq; right; reflexivity|].
    apply Qmult_le_l; [reflexivity|assumption].
  - apply Qmult_le_r with P; [assumption|].
    apply Qle_trans with (1 # 2); [lra|].
    apply Qle_trans with ((1 # 17179869184) * inject_Z (2 ^ 33)); [apply Qle_lteq; right; reflexivity|].
    apply Qmult_le_l; [reflexivity|assumption].
Qed.

Lemma Qfloor_eq (z : Q) (n : Z) :
  inject_Z n <= z -> z < inject_Z n + 1 -> Qfloor z = n.
Proof.
  intros H1 H2. pose proof (Qfloor_le z) as H3. pose proof (Qlt_floor z) as H4.
  rewrite inject_Z_plus in H4. change (inject_Z 1) with 1 in H4.
  assert (Qfloor z < n + 1)%Z.
  { rewrite Zlt_Qlt, inject_Z_plus. change (inject_Z 1) with 1. lra. }
  assert (n < Qfloor z + 1)%Z.
  { rewrite Zlt_Qlt, inject_Z_plus. change (inject_Z 1) with 1. lra. }
  lia.
Qed.

Lemma round64_0 (x : Q) : x == 0 -> round64 x = 0.
Proof.
  intros H. unfold round64.
  rewrite (proj2 (Qeq_bool_iff x 0) H). reflexivity.
Qed.

Lemma binary64_below_1 (r : Q) : round64 r == r -> r < 1 -> r <= 1 - (1 # 9007199254740992).
Proof.
  intros Hr H1. destruct (Qlt_le_dec r (1 # 2)) as [H|H]; [lra|].
  assert (Hl : Qlog2 r = (-1)%Z).
  { apply Qlog2_unique; [exact H|exact H1]. }
  assert (Hx : 0 < r) by lra.
  unfold round64 in Hr. destruct (Qeq_bool r 0) eqn:E.
  { apply Qeq_bool_iff in E. lra. }
  unfold quantum in Hr. rewrite Qabs_pos_eq, Hl in Hr by assumption.
  change ((-1 - 52) `max` (-1074))%Z with (-53)%Z in Hr.
  change (2 ^ (-53)) with (1 # 9007199254740992) in Hr.
  set (k := rne (r / (1 # 9007199254740992))) in *.
  assert (Hk : (k < 2 ^ 53)%Z).
  { rewrite Zlt_Qlt. change (inject_Z (2 ^ 53)) with 9007199254740992. lra. }
  assert (Hk' : inject_Z k <= 9007199254740991).
  { change 9007199254740991 with (inject_Z (2 ^ 53 - 1)). rewrite <- Zle_Qle. lia. }
  lra.
Qed.

Lemma pin_number_range (r : Q) :
  random_value r -> (100000 <= pin_number r <= 999999)%Z.
Proof.
  intros (H0 & H1 & Hr). unfold pin_number.
  pose proof (binary64_below_1 r Hr H1) as Hb.
  set (x := r * 900000).
  assert (Hx0 : 0 <= x) by (unfold x; lra).
  assert (Hxb : x * 8589934592 <= 7730941132800000 - (900000 # 1048576)).
  { unfold x. lra. }
  assert (HR : 0 <= round64 x /\
               (round64 x <= 524288 \/
                524288 <= round64 x /\ round64 x * 8589934592 <= 7730941132799999)).
  { destruct (Qlt_le_dec 0 x) as [Hp|Hp].
    - assert (Hlt : x < 2 ^ 20) by (change (2 ^ 20) with 1048576; lra).
      split; [apply (round64_ge_int x 0 Hp Hlt); change (inject_Z 0) with 0; lra|].
      destruct (Qlt_le_dec x 524288) as [Hs|Hs].
      + left. apply (round64_le_int x 524288 Hp Hlt). change (inject_Z 524288) with 524288. lra.
      + right. split; [apply (round64_ge_int x 524288 Hp Hlt); exact Hs|].
        apply (round64_le_fine x 7730941132799999 Hs Hlt).
        change (inject_Z (2 ^ 33)) with 8589934592.
        change (inject_Z 7730941132799999) with 7730941132799999. lra.
    - rewrite (round64_0 x) by lra. split; [lra|left; lra]. }
  destruct HR as [HR0 HR].
  set (y := 100000 + round64 x) in *.
  assert (Hy0 : 0 < y) by (unfold y; lra).
  assert (Hy1 : 100000 <= y) by (unfold y; lra).
  assert (Hyb : round64 y <= 999999 + (8589934591 # 8589934592)).
  { destruct HR as [HR|[HR1 HR2]].
    - assert (Hlt : y < 2 ^ 20) by (change (2 ^ 20) with 1048576; unfold y; lra).
      pose proof (round64_le_int y 624288 Hy0 Hlt) as H.
      change (inject_Z 624288) with 624288 in H. unfold y in H at 1.
      assert (round64 y <= 624288) by (apply H; lra). lra.
    - assert (Hlt : y < 2 ^ 20) by (change (2 ^ 20) with 1048576; unfold y; lra).
      assert (Hs : 2 ^ 19 <= y) by (change (2 ^ 19) with 524288; unfold y; lra).
      pose proof (round64_le_fine y 8589934591999999 Hs Hlt) as H.
      change (inject_Z (2 ^ 33)) with 8589934592 in H.
      change (inject_Z 8589934591999999) with 8589934591999999 in H.
      assert (round64 y * 8589934592 <= 8589934591999999) by (apply H; unfold y; lra).
      lra. }
  assert (Hyl : 100000 <= round64 y).
  { assert (Hlt : y < 2 ^ 20).
    { change (2 ^ 20) with 1048576. unfold y. destruct HR as [HR|[HR1 HR2]]; lra. }
    apply (round64_ge_int y 100000 Hy0 Hlt). exact Hy1. }
  pose proof (Qfloor_le (round64 y)) as Hf1.
  pose proof (Qlt_floor (round64 y)) as Hf2.
  rewrite inject_Z_plus in Hf2. change (inject_Z 1) with 1 in Hf2.
  split.
  - apply Z.lt_succ_r. rewrite Zlt_Qlt. unfold Z.succ. rewrite inject_Z_plus.
    change (inject_Z 1) with 1. change (inject_Z 100000) with 100000. lra.
  - apply Z.lt_succ_r. rewrite Zlt_Qlt.
    change (inject_Z (Z.succ 999999)) with 1000000. lra.
Qed.

Lemma binary64_dyadic (x : Q) (K j : Z) :
  (0 < K < 2 ^ 53)%Z -> (0 <= j <= 1074)%Z ->
  x * inject_Z (2 ^ j) == inject_Z K -> round64 x == x.
Proof.
  intros HK Hj Hx.
  assert (HP : 0 < 2 ^ j) by apply two_pos.
  rewrite two_Zpow in Hx by lia.
  assert (HK0 : 0 < inject_Z K).
  { change 0 with (inject_Z 0). rewrite <- Zlt_Qlt. lia. }
  assert (HK1 : inject_Z K < 2 ^ 53).
  { rewrite <- two_Zpow by lia. rewrite <- Zlt_Qlt. lia. }
  assert (Hx0 : 0 < x).
  { apply Qmult_lt_r with (2 ^ j); [assumption|]. lra. }
  assert (Hlt : x < 2 ^ (53 - j)).
  { apply Qmult_lt_r with (2 ^ j); [assumption|].
    rewrite <- Qpower_plus by (intros H; discriminate H).
    replace (53 - j + j)%Z with 53%Z by lia. lra. }
  pose proof (Qlog2_lt x _ Hx0 Hlt) as Hl.
  assert (Hq : (quantum x <= - j)%Z).
  { unfold quantum. rewrite Qabs_pos_eq by assumption. lia. }
  assert (Hq' : (-1074 <= quantum x)%Z) by (unfold quantum; lia).
  set (q := quantum x) in *.
  assert (Hw : x / 2 ^ q == inject_Z (K * 2 ^ (- j - q))).
  { rewrite inject_Z_mult, two_Zpow by lia. rewrite <- Hx.
    replace (- j - q)%Z with (- j + - q)%Z by lia.
    rewrite (Qpower_plus 2 (- j) (- q)) by (intros H; discriminate H).
    rewrite !Qpower_opp.
    pose proof (two_pos q). field. split; lra. }
  unfold round64. destruct (Qeq_bool x 0) eqn:E.
  { apply Qeq_bool_iff in E. lra. }
  fold q. rewrite (rne_int _ _ Hw).
  rewrite inject_Z_mult, two_Zpow by lia.
  rewrite <- Qmult_assoc. rewrite <- Qpower_plus by (intros H; discriminate H).
  replace (- j - q + q)%Z with (- j)%Z by lia.
  rewrite Qpower_opp. apply Qmult_inj_r with (2 ^ j); [lra|].
  rewrite <- Hx. field. lra.
Qed.

Lemma pin_number_onto (n : Z) :
  (100000 <= n <= 999999)%Z -> exists r, random_value r /\ pin_number r = n.
Proof.
  intros Hn.
  set (K := ((2 * n + -199999) * 536870912 / 900000)%Z).
  assert (HK1 : (900000 * K <= (2 * n + -199999) * 536870912)%Z).
  { apply Z.mul_div_le. lia. }
  assert (HK2 : ((2 * n + -199999) * 536870912 < 900000 * Z.succ K)%Z).
  { apply Z.mul_succ_div_gt. lia. }
  assert (HK0 : (0 < K)%Z).
  { apply Z.div_str_pos. lia. }
  exists (inject_Z K * (1 # 1073741824)).
  set (r := inject_Z K * (1 # 1073741824)).
  rewrite Zle_Qle in HK1. rewrite Zlt_Qlt in HK2.
  rewrite !inject_Z_mult, !inject_Z_plus, !inject_Z_mult in HK1.
  rewrite !inject_Z_mult, !inject_Z_plus, !inject_Z_mult in HK2.
  unfold Z.succ in HK2. rewrite !inject_Z_plus in HK2.
  change (inject_Z 900000) with 900000 in *.
  change (inject_Z 536870912) with 536870912 in *.
  change (inject_Z 2) with 2 in *. change (inject_Z 1) with 1 in *.
  change (inject_Z (-199999)) with (-199999) in *.
  assert (Hn1 : 100000 <= inject_Z n).
  { change 100000 with (inject_Z 100000). rewrite <- Zle_Qle. lia. }
  assert (Hn2 : inject_Z n <= 999999).
  { change 999999 with (inject_Z 999999). rewrite <- Zle_Qle. lia. }
  assert (HK0' : 0 < inject_Z K).
  { change 0 with (inject_Z 0). rewrite <- Zlt_Qlt. lia. }
  assert (Hr1 : r < 1) by (unfold r; lra).
  assert (Hbin : round64 r == r).
  { apply (binary64_dyadic r K 30).
    - split; [lia|]. rewrite Zlt_Qlt.
      change (inject_Z (2 ^ 53)) with 9007199254740992. unfold r in Hr1. lra.
    - lia.
    - unfold r. change (inject_Z (2 ^ 30)) with 1073741824. field. }
  split; [split; [unfold r; lra|split; assumption]|].
  unfold pin_number. set (x := r * 900000).
  assert (Hx1 : inject_Z n - 100000 + (499 # 1000) <= x) by (unfold x, r; lra).
  assert (Hx2 : x <= inject_Z n - 100000 + (1 # 2)) by (unfold x, r; lra).
  assert (Hx0 : 0 < x) by lra.
  assert (Hxl : x < 2 ^ 20) by (change (2 ^ 20) with 1048576; lra).
  destruct (round64_err x Hx0 Hxl) as [E1 E2].
  set (y := 100000 + round64 x) in *.
  assert (Hy0 : 0 < y) by (unfold y; lra).
  assert (Hyl : y < 2 ^ 20) by (change (2 ^ 20) with 1048576; unfold y; lra).
  destruct (round64_err y Hy0 Hyl) as [E3 E4].
  apply Qfloor_eq; unfold y in *; lra.
Qed.

(** Rounding never takes a number of 1 or more below 1, and leaves the
    integers below 2^53 as they are. *)
Lemma round64_ge_1 (x : Q) : 1 <= x -> 1 <= round64 x.
Proof.
  intros Hx. assert (Hx0 : 0 < x) by lra.
  destruct (Qlog2_spec x Hx0) as [Hl1 Hl2].
  assert (Hl : (0 <= Qlog2 x)%Z).
  { assert (0 < Qlog2 x + 1)%Z; [|lia].
    apply Qpower_lt_compat_l_inv with 2; [|reflexivity].
    apply Qle_lt_trans with x; [exact Hx|exact Hl2]. }
  assert (Hq : quantum x = (Qlog2 x - 52)%Z).
  { unfold quantum. rewrite Qabs_pos_eq by assumption. lia. }
  unfold round64. destruct (Qeq_bool x 0) eqn:E.
  { apply Qeq_bool_iff in E. lra. }
  rewrite Hq. set (q := (Qlog2 x - 52)%Z) in *.
  pose proof (two_pos q) as Hpos.
  destruct (rne_close (x / 2 ^ q)) as [_ Hk].
  set (k := rne (x / 2 ^ q)) in *.
  destruct (Z_le_gt_dec q 0) as [Hq0|Hq0].
  - assert (HP : inject_Z (2 ^ (- q)) * 2 ^ q == 1).
    { rewrite two_Zpow by lia.
      rewrite <- Qpower_plus by (intros H; discriminate H).
      replace (- q + q)%Z with 0%Z by lia. reflexivity. }
    assert (HP0 : 0 < inject_Z (2 ^ (- q))).
    { rewrite two_Zpow by lia. apply two_pos. }
    set (P := inject_Z (2 ^ (- q))) in *.
    assert (Hdiv : x / 2 ^ q == x * P).
    { set (t := 2 ^ q) in *. field_simplify_eq; [|lra].
      rewrite <- (Qmult_1_r x) at 1. rewrite <- HP. ring. }
    assert (HxP : P <= x * P).
    { rewrite <- (Qmult_1_l P) at 1. apply Qmult_le_compat_r; lra. }
    assert (Hk' : (2 ^ (- q) <= k)%Z).
    { apply (grid_ge k _ (x / 2 ^ q)); [exact Hk|]. fold P. lra. }
    rewrite Zle_Qle in Hk'. fold P in Hk'.
    apply Qmult_le_r with P; [exact HP0|].
    rewrite <- Qmult_assoc, (Qmult_comm (2 ^ q)), HP. lra.
  - assert (Hw : 2 ^ 52 <= x / 2 ^ q).
    { apply Qle_shift_div_l; [exact Hpos|].
      rewrite <- Qpower_plus by (intros H; discriminate H).
      replace (52 + q)%Z with (Qlog2 x) by lia. exact Hl1. }
    assert (Hk' : (2 ^ 52 <= k)%Z).
    { apply (grid_ge k _ (x / 2 ^ q)); [exact Hk|].
      change (inject_Z (2 ^ 52)) with (2 ^ 52). lra. }
    rewrite Zle_Qle in Hk'. change (inject_Z (2 ^ 52)) with 4503599627370496 in Hk'.
    assert (Hq1 : 1 <= 2 ^ q) by (apply Qpower_1_le; [discriminate|lia]).
    set (t := 2 ^ q) in *. nra.
Qed.


End binary64.

(** ** PIN generation *)

Lemma has_true {V} (m : gmap string V) k : has m k = true ↔ is_Some (m !! k).
Proof. unfold has. by rewrite bool_decide_eq_true. Qed.

Lemma has_false {V} (m : gmap string V) k : has m k = false ↔ m !! k = None.
Proof. unfold has. by rewrite bool_decide_eq_false, eq_None_not_Some. Qed.

Lemma draw_six (r : Q) : random_value r → six_digits (draw r).
Proof. intros Hr. by apply toString_six, pin_number_range. Qed.

Lemma draw_nonempty (r : Q) : draw r ≠ EmptyString.
Proof. apply toString_nonempty. Qed.

(** Every PIN from 100000 to 999999 is drawn at some value of
    [Math.random()]. *)
Lemma draw_onto (n : Z) :
  (100000 ≤ n ≤ 999999)%Z → ∃ r, random_value r ∧ draw r = toString n.
Proof.
  intros Hn. destruct (pin_number_onto n Hn) as (r & Hr & Hdraw).
  exists r. split; [done|]. unfold draw. by rewrite Hdraw.
Qed.

(** Whatever the loop returns was drawn from [rnd] and is not a key of the
    room table. *)
Lemma generateUniquePIN_Some rooms rnd pin :
  generateUniquePIN rooms rnd = Some pin →
  rooms !! pin = None ∧ ∃ r, r ∈ rnd ∧ pin = draw r.
Proof.
  induction rnd as [|r rnd IH]; simpl; [done|].
  destruct (has rooms (draw r)) eqn:Hhas.
  - intros Hpin. destruct (IH Hpin) as (? & r' & ? & ?).
    split; [done|]. exists r'. split; [by right|done].
  - intros [= <-]. split; [by apply has_false|].
    exists r. split; [by left|done].
Qed.

(** The loop ends as soon as one drawn PIN is free. *)
Lemma generateUniquePIN_ends rooms rnd :
  Exists (λ r, rooms !! draw r = None) rnd →
  is_Some (generateUniquePIN rooms rnd).
Proof.
  induction 1 as [r rnd Hfree|r rnd _ IH]; simpl.
  - apply has_false in Hfree. by rewrite Hfree.
  - by destruct (has rooms (draw r)).
Qed.

(** The loop asks for one more value exactly as long as every PIN drawn so
    far is in use. *)
Lemma generateUniquePIN_None rooms rnd :
  generateUniquePIN rooms rnd = None
  ↔ Forall (λ r, is_Some (rooms !! draw r)) rnd.
Proof.
  induction rnd as [|r rnd IH]; simpl; [done|].
  rewrite Forall_cons, <-IH, <-has_true.
  destruct (has rooms (draw r)).
  - split; [by intros ->|by intros [_ ->]].
  - split; [done|by intros [? _]].
Qed.

Lemma generateUniquePIN_returns rooms rnd :
  is_Some (generateUniquePIN rooms rnd)
  ↔ Exists (λ r, rooms !! draw r = None) rnd.
Proof.
  split; [|apply generateUniquePIN_ends].
  induction rnd as [|r rnd IH]; simpl; [by intros [? ?]|].
  destruct (has rooms (draw r)) eqn:Hhas.
  - intros H. right. by apply IH.
  - intros _. left. by apply has_false.
Qed.

(** The values before the first one whose PIN is free are passed over, and
    those after it are not looked at. *)
Lemma generateUniquePIN_app rooms l r rnd :
  Forall (λ q, is_Some (rooms !! draw q)) l →
  rooms !! draw r = None →
  generateUniquePIN rooms (l ++ r :: rnd) = Some (draw r).
Proof.
  intros Hl Hr. induction Hl as [|q l Hq _ IH]; simpl.
  - apply has_false in Hr. by rewrite Hr.
  - apply has_true in Hq. by rewrite Hq.
Qed.

Lemma list_to_map_key_in_use (v : room) (l : list Z) (n : Z) :
  n ∈ l →
  is_Some ((list_to_map ((λ n, (toString n, v)) <$> l) : gmap string room)
             !! toString n).
Proof.
  intros Hn. apply not_eq_None_Some. intros Hnone.
  apply not_elem_of_list_to_map_2 in Hnone. apply Hnone.
  rewrite <-list_fmap_compose. apply list_elem_of_fmap.
  by exists n.
Qed.

Lemma all_pins_in_use_lookup (n : Z) :
  (100000 ≤ n ≤ 999999)%Z → is_Some (all_pins_in_use !! toString n).
Proof.
  intros Hn. apply list_to_map_key_in_use.
  apply elem_of_seqZ. lia.
Qed.

(** C3: whenever [generateUniquePIN] returns, its result is a string of six
    decimal digits, the rendering of a number of 100000..999999, that is not
    the PIN of an active room.  It returns exactly on the runs of
    [Math.random()] that draw a PIN which is not in use, with the first such
    PIN, whatever was drawn before and whatever would be drawn after; every
    PIN of the range that is not in use is drawn at some value of
    [Math.random()]; and when every PIN of the range is in use it does not
    return.  [generatePIN] of the older server draws once: its result is a
    string of six decimal digits of the same range. *)
Theorem generateUniquePIN_fresh (rooms : gmap string room) :
  (∀ rnd pin, Forall random_value rnd →
     generateUniquePIN rooms rnd = Some pin →
     ∃ n, pin = toString n ∧ (100000 ≤ n ≤ 999999)%Z
       ∧ six_digits pin ∧ rooms !! pin = None)
  ∧ (∀ rnd, is_Some (generateUniquePIN rooms rnd)
            ↔ Exists (λ r, rooms !! draw r = None) rnd)
  ∧ (∀ l r rnd, Forall (λ q, is_Some (rooms !! draw q)) l →
       rooms !! draw r = None →
       generateUniquePIN rooms (l ++ r :: rnd) = Some (draw r))
  ∧ (∀ n, (100000 ≤ n ≤ 999999)%Z → rooms !! toString n = None →
       ∃ r, random_value r
         ∧ ∀ rnd, generateUniquePIN rooms (r :: rnd) = Some (toString n))
  ∧ ((∀ n, (100000 ≤ n ≤ 999999)%Z → is_Some (rooms !! toString n)) →
       ∀ rnd, Forall random_value rnd → generateUniquePIN rooms rnd = None)
  ∧ (∀ r, random_value r →
       ∃ n, Legacy.generatePIN r = toString n ∧ (100000 ≤ n ≤ 999999)%Z
         ∧ six_digits (Legacy.generatePIN r)).
Proof.
  split_and!.
  - intros rnd pin Hrnd Hpin.
    destruct (generateUniquePIN_Some _ _ _ Hpin) as (Hnone & r & Hr & ->).
    rewrite Forall_forall in Hrnd. specialize (Hrnd r Hr).
    exists (pin_number r).
    split_and!; [done|by apply pin_number_range..|by apply draw_six|done].
  - apply generateUniquePIN_returns.
  - apply generateUniquePIN_app.
  - intros n Hn Hfree. destruct (draw_onto n Hn) as (r & Hr & Hdraw).
    exists r. split; [done|]. intros rnd.
    rewrite <-Hdraw in Hfree |- *.
    by apply (generateUniquePIN_app rooms []).
  - intros Hfull rnd Hrnd. apply generateUniquePIN_None.
    eapply Forall_impl; [exact Hrnd|]. intros r Hr. simpl.
    apply Hfull. by apply pin_number_range.
  - intros r Hr. exists (pin_number r).
    split_and!; [done|by apply pin_number_range..|].
    by apply (draw_six r).
Qed.

Lemma generateUniquePIN_fresh_witness :
  ∃ n, "550002" = toString n ∧ (100000 ≤ n ≤ 999999)%Z
    ∧ six_digits "550002"
    ∧ ({[ "550001" := Room "h" 2 [] 0 ]} : gmap string room) !! "550002" = None.
Proof.
  apply (proj1 (generateUniquePIN_fresh {[ "550001" := Room "h" 2 [] 0 ]})
           [(4503619643368839 # 9007199254740992)%Q]).
  - repeat constructor; by vm_compute.
  - by vm_compute.
Defined.

(** The claim as stated fails on two counts.  When every PIN of the range
    is in use, [generateUniquePIN] returns on no run of [Math.random()];
    and [generatePIN] of the older server, which draws once, returns the PIN
    of an active room when that is the PIN drawn. *)
Lemma generateUniquePIN_no_return_counterexample :
  (∀ rnd, Forall random_value rnd →
     generateUniquePIN all_pins_in_use rnd = None)
  ∧ (random_value 0
     ∧ ({[ "100000" := Room "h" 2 [] 0 ]} : gmap string room)
         !! Legacy.generatePIN 0 = Some (Room "h" 2 [] 0)).
Proof.
  split.
  - intros rnd Hrnd. apply generateUniquePIN_None.
    eapply Forall_impl; [exact Hrnd|]. intros r Hr. simpl.
    apply all_pins_in_use_lookup. by apply pin_number_range.
  - split; [by vm_compute|by vm_compute].
Qed.

Example generateUniquePIN_redraws :
  generateUniquePIN {[ "100000" := Room "h" 2 [] 0 ]} [0%Q; (1 # 2)%Q]
  = Some "550000".
Proof. by vm_compute. Qed.

(** The rounding of the product and of the sum decides which PIN is drawn.
    At the binary64 number nearest to one third the product is rounded up
    to 300000 and the PIN is 400000, where the exact sum is below 400000;
    with that PIN in use the loop draws again. *)
Example generateUniquePIN_rounding :
  let r := (6004799503160661 # 18014398509481984)%Q in
  random_value r
  ∧ (Qfloor (100000 + r * 900000) = 399999)%Z
  ∧ draw r = "400000"
  ∧ generateUniquePIN {[ "400000" := Room "h" 2 [] 0 ]} [r; (1 # 2)%Q]
    = Some "550000".
Proof. by vm_compute. Qed.

(** The single draw of the older server is a six-digit string as well, but
    it can be the PIN of an active room. *)
Lemma legacy_generatePIN_six (r : Q) :
  random_value r → six_digits (Legacy.generatePIN r).
Proof. apply draw_six. Qed.


Example legacy_generatePIN_in_use :
  has ({[ "100000" := Room "h" 2 [] 0 ]} : gmap string room)
      (Legacy.generatePIN 0) = true.
Proof. by vm_compute. Qed.

(** ** Deferred clean-up *)

(** C8: the clean-up closure looks the room up again when it fires and
    deletes it only if it is still there with no member; a room that has a
    member when a timer fires stays in the table. *)
Theorem cleanup_rechecks (st : state) :
  (∀ pin, cleanup pin st =
     match rooms st !! pin with
     | Some r =>
         match users r with
         | [] => with_rooms st (delete pin (rooms st))
         | _ :: _ => st
         end
     | None => st
     end)
  ∧ (∀ st' eff p r,
       handle Timeout st = Some (st', eff) →
       rooms st !! p = Some r → users r ≠ [] →
       rooms st' !! p = Some r).
Proof.
  split.
  - intros pin. unfold cleanup.
    destruct (rooms st !! pin) as [r|]; [|done]. by destruct (users r).
  - intros st' eff p r Hfire Hp Hne. simpl in Hfire.
    destruct (timers st) as [|pin rest]; [done|].
    injection Hfire as <- <-. unfold cleanup; simpl.
    destruct (rooms st !! pin) as [r0|] eqn:Hpin; [|done].
    case_bool_decide as Hlen; [|done]. simpl.
    destruct (decide (pin = p)) as [->|Hneq].
    + rewrite Hp in Hpin. injection Hpin as <-.
      by destruct (users r).
    + by rewrite lookup_delete_ne.
Qed.

Lemma cleanup_rechecks_witness :
  let r := Room "h" 2 [User "s1" "Ana" "d1" 7] 0 in
  let st := State {[ "100000" := r ]} {[ "d1" := "100000" ]}
                  {[ "s1" := "d1" ]} ["100000"] in
  rooms (State {[ "100000" := r ]} {[ "d1" := "100000" ]}
               {[ "s1" := "d1" ]} []) !! "100000" = Some r.
Proof.
  intros r st.
  apply (proj2 (cleanup_rechecks st) _ [] "100000" r); by vm_compute.
Defined.

(** ** Joining a room *)

Lemma truthy_missing (v : option string) : truthy v = false ↔ missing v.
Proof.
  unfold missing. destruct v as [s|]; simpl.
  - rewrite negb_false_iff, String.eqb_eq. split.
    + intros ->. by right.
    + by intros [?|[= ->]].
  - split; [by left|done].
Qed.

Lemma truthy_present (v : option string) :
  truthy v = true ↔ ∃ s, v = Some s ∧ s ≠ EmptyString.
Proof.
  destruct v as [s|]; simpl.
  - rewrite negb_true_iff, String.eqb_neq. split.
    + intros Hs. by exists s.
    + by intros (? & [= <-] & ?).
  - split; [done|]. by intros (? & ? & ?).
Qed.

Lemma userExists_elem_of (d : string) (us : list user) :
  userExists d us = bool_decide (d ∈ deviceId <$> us).
Proof.
  unfold userExists. induction us as [|u us IH]; [done|].
  rewrite fmap_cons. cbn [existsb]. rewrite IH.
  destruct (decide (deviceId u = d)) as [<-|Hne].
  - rewrite (bool_decide_eq_true_2 (deviceId u = deviceId u)) by done.
    symmetry. apply bool_decide_eq_true_2. by left.
  - rewrite (bool_decide_eq_false_2 (deviceId u = d)) by done.
    apply bool_decide_ext. rewrite elem_of_cons. split; [by right|].
    by intros [?|?].
Qed.

Lemma elsewhere_check (m : gmap string string) (d p : string) :
  has m d && bool_decide (m !! d ≠ Some p)
  = match m !! d with Some p' => bool_decide (p' ≠ p) | None => false end.
Proof.
  unfold has. destruct (m !! d) as [p'|] eqn:Hd; simpl.
  - apply bool_decide_ext. split; intros Hp; congruence.
  - done.
Qed.

(** [join_room] either rejects, with the first failing check of
    [validation] and without touching the state, or accepts. *)
Lemma join_room_cases sid pin nickname deviceId now st :
  (∃ e, validation st pin nickname deviceId = Some e
        ∧ join_room sid pin nickname deviceId now st
          = (st, [callback (failure e)]))
  ∨ (∃ p nk d r,
        pin = Some p ∧ nickname = Some nk ∧ deviceId = Some d
        ∧ validation st pin nickname deviceId = None
        ∧ rooms st !! p = Some r
        ∧ (Z.of_nat (length (users r)) < limit r)%Z
        ∧ join_room sid pin nickname deviceId now st = joined sid p nk d now r st).
Proof.
  unfold join_room, validation.
  destruct (truthy pin) eqn:Hpin; simpl.
  2:{ left. exists InvalidInput. apply truthy_missing in Hpin.
      by rewrite bool_decide_eq_true_2 by auto. }
  destruct (truthy nickname) eqn:Hnick; simpl.
  2:{ left. exists InvalidInput. apply truthy_missing in Hnick.
      by rewrite bool_decide_eq_true_2 by auto. }
  destruct (truthy deviceId) eqn:Hdev; simpl.
  2:{ left. exists InvalidInput. apply truthy_missing in Hdev.
      by rewrite bool_decide_eq_true_2 by auto. }
  apply truthy_present in Hpin as (p & -> & Hp).
  apply truthy_present in Hnick as (nk & -> & Hnk).
  apply truthy_present in Hdev as (d & -> & Hd).
  rewrite bool_decide_eq_false_2
    by (unfold missing; intros [[?|?]|[[?|?]|[?|?]]]; congruence).
  unfold listed_checks.
  destruct (rooms st !! p) as [r|] eqn:Hr; [|left; eauto].
  destruct (limit r <=? Z.of_nat (length (users r)))%Z eqn:Hfull.
  { left. exists RoomFull. apply Z.leb_le in Hfull.
    by rewrite bool_decide_eq_true_2. }
  apply Z.leb_gt in Hfull. rewrite bool_decide_eq_false_2 by lia.
  rewrite elsewhere_check.
  destruct (match deviceRoomMap st !! d with
            | Some p' => bool_decide (p' ≠ p) | None => false end);
    [left; eauto|].
  rewrite userExists_elem_of.
  destruct (bool_decide (d ∈ deviceId <$> users r)); [left; eauto|].
  right. exists p, nk, d, r. by split_and!.
Qed.

(** C5: when [join_room] answers with a success, the participant count of
    the answer is the length of the member list of the room once the new
    member is appended, which is the length it had before the call plus
    one. *)
Theorem join_room_participant_count sid pin nickname deviceId now st st' eff
    p n l :
  join_room sid pin nickname deviceId now st = (st', eff) →
  answer eff = Some (success p n l) →
  ∃ r r' nk d,
    pin = Some p ∧ nickname = Some nk ∧ deviceId = Some d
    ∧ rooms st !! p = Some r ∧ rooms st' !! p = Some r'
    ∧ users r' = users r ++ [User sid nk d now]
    ∧ n = length (users r')
    ∧ length (users r') = S (length (users r)).
Proof.
  intros Hjoin Hans.
  destruct (join_room_cases sid pin nickname deviceId now st)
    as [(e & _ & He)|(p' & nk & d & r & -> & -> & -> & _ & Hr & _ & Hj)].
  - rewrite He in Hjoin. by simplify_eq/=.
  - rewrite Hj in Hjoin. unfold joined in Hjoin. simplify_eq/=.
    eexists r, _, nk, d. rewrite lookup_insert_eq.
    split_and!; try done. simpl. rewrite length_app. simpl. lia.
Qed.

Lemma join_room_participant_count_witness :
  ∃ r r' nk d,
    Some "100000" = Some "100000" ∧ Some "Beto" = Some nk ∧ Some "d1" = Some d
    ∧ rooms (State {[ "100000" := Room "h" 3 [] 0 ]} ∅ ∅ []) !! "100000"
      = Some r
    ∧ rooms (joined "s1" "100000" "Beto" "d1" 5 (Room "h" 3 [] 0)
               (State {[ "100000" := Room "h" 3 [] 0 ]} ∅ ∅ [])).1 !! "100000"
      = Some r'
    ∧ users r' = users r ++ [User "s1" nk d 5]
    ∧ 1 = length (users r')
    ∧ length (users r') = S (length (users r)).
Proof.
  apply (join_room_participant_count "s1" (Some "100000") (Some "Beto")
           (Some "d1") 5 (State {[ "100000" := Room "h" 3 [] 0 ]} ∅ ∅ [])
           _ (joined "s1" "100000" "Beto" "d1" 5 (Room "h" 3 [] 0)
               (State {[ "100000" := Room "h" 3 [] 0 ]} ∅ ∅ [])).2
           "100000" 1 3); by vm_compute.
Defined.

(** ** The capacity that is stored *)

Lemma leading_go_range (fuel : nat) (n scale : Z) :
  (1 ≤ n)%Z → (n < 10 ^ (Z.of_nat fuel + 1))%Z →
  (1 ≤ (leading_go fuel n scale).1 ≤ 9)%Z.
Proof.
  revert n scale. induction fuel as [|fuel IH]; intros n scale Hn Hlt.
  - simpl in *. lia.
  - cbn [leading_go]. destruct (n <? 10)%Z eqn:Hten.
    + apply Z.ltb_lt in Hten. simpl. lia.
    + apply Z.ltb_ge in Hten. apply IH.
      * apply Z.div_le_lower_bound; lia.
      * apply Z.div_lt_upper_bound; [lia|].
        rewrite <-Z.pow_succ_r by lia.
        replace (Z.succ (Z.of_nat fuel + 1)) with (Z.of_nat (S fuel) + 1)%Z
          by lia.
        done.
Qed.

Lemma leading_range (n : Z) : (1 ≤ n)%Z → (1 ≤ (leading n).1 ≤ 9)%Z.
Proof.
  intros Hn. apply leading_go_range; [done|].
  rewrite Z2Nat.id by apply Z.log2_nonneg.
  destruct (Z.log2_spec n) as [_ Hlt]; [lia|].
  eapply Z.lt_le_trans; [exact Hlt|].
  replace (Z.succ (Z.log2 n)) with (Z.log2 n + 1)%Z by lia.
  apply Z.pow_le_mono_l. pose proof (Z.log2_nonneg n). lia.
Qed.

Lemma first_digit_range (x : Q) : (1 <= x)%Q → (1 ≤ first_digit x ≤ 9)%Z.
Proof.
  intros Hx. unfold first_digit.
  assert (1 ≤ Qfloor x)%Z as Hf.
  { change 1%Z with (Qfloor 1). by apply Qfloor_resp_le. }
  pose proof (leading_range _ Hf) as Hl.
  destruct (leading (Qfloor x)) as [l scale]. simpl in Hl.
  destruct (Qeq_bool _ x); [|done].
  destruct (l =? 9)%Z eqn:H9; [lia|]. apply Z.eqb_neq in H9. lia.
Qed.


Lemma parseInt10_range (n : Z) :
  (2 ≤ n)%Z → (1 ≤ parseInt10 n < 10 ^ 21)%Z.
Proof.
  intros Hn. unfold parseInt10.
  rewrite Z.abs_eq, Z.sgn_pos, Z.mul_1_l by lia.
  assert (1 <= round64 (inject_Z n))%Q as Hx.
  { apply round64_ge_1. change 1%Q with (inject_Z 1). rewrite <-Zle_Qle. lia. }
  set (x := round64 (inject_Z n)) in *.
  destruct (Qle_bool (inject_Z (10 ^ 21)) x) eqn:Hbig.
  - pose proof (first_digit_range x Hx). assert (9 < 10 ^ 21)%Z by done. lia.
  - split.
    + change 1%Z with (Qfloor 1). by apply Qfloor_resp_le.
    + rewrite Zlt_Qlt. eapply Qle_lt_trans; [apply Qfloor_le|].
      apply Qnot_le_lt. intros Hle. apply Qle_bool_iff in Hle. congruence.
Qed.

(** The Number of 1e21 reads as 1, the Number of 10^23 - 1 is 1e+23 and
    reads as 1, too; 2^53 + 1 is held, and stored, as 2^53. *)
Example parseInt10_1e21 :
  parseInt10 (10 ^ 21) = 1%Z ∧ parseInt10 (25 * 10 ^ 20) = 2%Z
  ∧ parseInt10 (10 ^ 23 - 1) = 1%Z
  ∧ parseInt10 99999999999999991611392 = 1%Z
  ∧ parseInt10 (3 * 10 ^ 22 - 1) = 3%Z
  ∧ parseInt10 (2 ^ 53 + 1) = (2 ^ 53)%Z ∧ parseInt10 20 = 20%Z.
Proof. by vm_compute. Qed.

(** ** Creating a room *)

Lemma capacity_in_range_guard (limit : option Z) :
  negb (truthy_num limit) || lt2 limit = false ↔ capacity_in_range limit.
Proof.
  unfold capacity_in_range. destruct limit as [n|]; simpl.
  - rewrite orb_false_iff, negb_false_iff, negb_true_iff, Z.eqb_neq,
      Z.ltb_ge.
    split; [intros [? ?]; exists n; split; [done|lia]|].
    intros (? & [= <-] & ?). lia.
  - split; [done|]. by intros (? & ? & ?).
Qed.

Lemma create_room_guard nickname limit :
  negb (truthy nickname) || negb (truthy_num limit) || lt2 limit = true
  ↔ missing nickname ∨ ¬ capacity_in_range limit.
Proof.
  rewrite <-orb_assoc, orb_true_iff, negb_true_iff, truthy_missing.
  rewrite <-capacity_in_range_guard, not_false_iff_true. done.
Qed.

(** [create_room] either rejects, without touching the state, or stores an
    empty room under the PIN that the generator returned. *)
Lemma create_room_cases sid nickname limit now rnd st :
  ((missing nickname ∨ ¬ capacity_in_range limit)
   ∧ create_room sid nickname limit now rnd st
     = Some (st, [callback (failure InvalidInput)]))
  ∨ (∃ n, ¬ missing nickname ∧ limit = Some n ∧ (2 ≤ n)%Z
      ∧ create_room sid nickname limit now rnd st
        = pin ← generateUniquePIN (rooms st) rnd;
          Some (with_rooms st
                  (<[pin := Room sid (parseInt10 n) [] now]> (rooms st)),
                [socket_join pin; callback (success pin 1 (parseInt10 n));
                 socket_emit host_info])).
Proof.
  unfold create_room.
  destruct (negb (truthy nickname) || negb (truthy_num limit) || lt2 limit)
    eqn:Hguard.
  - left. by apply create_room_guard in Hguard.
  - right. apply orb_false_iff in Hguard as [Hguard Hlt].
    apply orb_false_iff in Hguard as [Hnick Hnum].
    destruct limit as [n|]; [|done]. exists n.
    apply negb_false_iff in Hnick. simpl in Hlt. apply Z.ltb_ge in Hlt.
    split_and!; try done.
    intros Hmiss. apply truthy_missing in Hmiss. congruence.
Qed.



(** A capacity of 1e21 passes the guard and is stored, and answered, as
    1. *)
Example create_room_1e21 :
  create_room "h" (Some "Ana") (Some (10 ^ 21)%Z) 7 [0%Q] init
  = Some (State {[ "100000" := Room "h" 1 [] 7 ]} ∅ ∅ [],
          [socket_join "100000"; callback (success "100000" 1 1);
           socket_emit host_info]).
Proof. by vm_compute. Qed.

(** ** Rejected requests *)

(** C7: a [create_room] or [join_room] request that is answered with an
    error leaves the room table, both indices and the pending timers as
    they were. *)
Theorem rejected_request_leaves_state :
  (∀ sid nickname limit now rnd st st' eff e,
     create_room sid nickname limit now rnd st = Some (st', eff) →
     callback (failure e) ∈ eff → st' = st)
  ∧ (∀ sid pin nickname deviceId now st st' eff e,
       join_room sid pin nickname deviceId now st = (st', eff) →
       callback (failure e) ∈ eff → st' = st).
Proof.
  split.
  - intros sid nickname limit now rnd st st' eff e Hcreate He.
    destruct (create_room_cases sid nickname limit now rnd st)
      as [[_ Hc]|(n & _ & _ & _ & Hc)]; rewrite Hc in Hcreate.
    + by injection Hcreate as <- _.
    + destruct (generateUniquePIN (rooms st) rnd) as [pin|]; [|done].
      simpl in Hcreate. injection Hcreate as <- <-.
      rewrite !elem_of_cons in He.
      destruct He as [?|[?|[?|He]]]; [done..|].
      by apply elem_of_nil in He.
  - intros sid pin nickname deviceId now st st' eff e Hjoin He.
    destruct (join_room_cases sid pin nickname deviceId now st)
      as [(e' & _ & Hj)|(p & nk & d & r & _ & _ & _ & _ & _ & _ & Hj)];
      rewrite Hj in Hjoin.
    + by injection Hjoin as <- _.
    + unfold joined in Hjoin. injection Hjoin as <- <-.
      rewrite !elem_of_cons in He.
      destruct He as [?|[?|[?|[?|He]]]]; [done..|].
      by apply elem_of_nil in He.
Qed.

Lemma rejected_request_leaves_state_witness :
  let st := State {[ "100000" := Room "h" 2 [User "s1" "Ana" "d1" 1] 0 ]}
                  {[ "d1" := "100000" ]} {[ "s1" := "d1" ]} [] in
  (join_room "s2" (Some "100000") (Some "Ana") (Some "d1") 9 st).1 = st.
Proof.
  intros st.
  apply (proj2 rejected_request_leaves_state "s2" (Some "100000")
           (Some "Ana") (Some "d1") 9%Z st _
           [callback (failure DeviceAlreadyInRoom)] DeviceAlreadyInRoom).
  - by vm_compute.
  - by left.
Defined.

(** ** Capacity *)

Lemma truthy_Some (s : string) : s ≠ EmptyString → truthy (Some s) = true.
Proof. intros Hs. apply truthy_present. by exists s. Qed.



Lemma send_message_state pin autor message now st :
  (send_message pin autor message now st).1 = st.
Proof.
  unfold send_message.
  destruct (negb (truthy pin) || negb (truthy autor) || negb (truthy message));
    [done|].
  destruct pin, autor, message; try done.
  by destruct (rooms st !! _).
Qed.

(** [disconnect] either does nothing at all or removes one member. *)
Lemma disconnect_cases sid st :
  disconnect sid st = (st, [])
  ∨ (∃ d pin r i u,
        socketToDeviceMap st !! sid = Some d
        ∧ deviceRoomMap st !! d = Some pin
        ∧ rooms st !! pin = Some r
        ∧ findIndex sid (users r) = Some (i, u)
        ∧ disconnect sid st = departed sid d pin i u r st).
Proof.
  unfold disconnect.
  destruct (socketToDeviceMap st !! sid) as [d|] eqn:Hd; [|by left].
  destruct (negb (truthy (Some d))); [by left|].
  destruct (deviceRoomMap st !! d) as [pin|] eqn:Hpin; [|by left].
  destruct (negb (truthy (Some pin))); [by left|].
  destruct (rooms st !! pin) as [r|] eqn:Hr; [|by left].
  destruct (findIndex sid (users r)) as [[i u]|] eqn:Hi; [|by left].
  right. by exists d, pin, r, i, u.
Qed.

Lemma run_invariant (P : state → Prop) :
  (∀ req st st' eff, P st → handle req st = Some (st', eff) → P st') →
  ∀ reqs st st', P st → run reqs st = Some st' → P st'.
Proof.
  intros Hstep reqs. induction reqs as [|req reqs IH]; simpl.
  - by intros st st' HP [= <-].
  - intros st st' HP Hrun.
    destruct (handle req st) as [[st1 eff]|] eqn:Hreq; [|done].
    eapply IH; [|done]. by eapply Hstep.
Qed.

Lemma length_delete_le {A} (l : list A) (i : nat) :
  length (delete i l) ≤ length l.
Proof.
  revert i. induction l as [|x l IH]; intros [|i]; simpl; try lia.
  specialize (IH i). lia.
Qed.





(** ** Validation order of [join_room] *)

Lemma join_room_answers sid pin nickname deviceId now st :
  ∃ r, answers (join_room sid pin nickname deviceId now st).2 = [r].
Proof.
  destruct (join_room_cases sid pin nickname deviceId now st)
    as [(e & _ & ->)|(p & nk & d & r & _ & _ & _ & _ & _ & _ & ->)];
    by eexists.
Qed.

(** C4, as the code has it: [join_room] first rejects a request whose pin,
    nickname or device identifier is missing (invalid input); on a request
    with all three it runs the checks room-not-found, room-full,
    device-already-elsewhere, device-already-in-room in this order, and the
    first one that fails is the error of the answer.  Every request gets
    exactly one answer, which is a success when no check fails. *)
Theorem join_room_validation_order sid pin nickname deviceId now st :
  join_error (join_room sid pin nickname deviceId now st).2
  = validation st pin nickname deviceId
  ∧ (∃ r, answers (join_room sid pin nickname deviceId now st).2 = [r])
  ∧ (validation st pin nickname deviceId = None
     ↔ succeeded (join_room sid pin nickname deviceId now st).2 = true).
Proof.
  split_and!; [| apply join_room_answers |];
    destruct (join_room_cases sid pin nickname deviceId now st)
      as [(e & Hv & ->)|(p & nk & d & r & _ & _ & _ & Hv & _ & _ & ->)];
    rewrite Hv; simpl; try done.
Qed.

(** The claim as listed fails: on an unknown PIN a request without nickname
    is answered with the invalid-input error, where the listed order has the
    room-not-found check fail first. *)
Lemma join_room_listed_order_counterexample :
  listed_checks init "123456" "d1" = Some RoomNotFound
  ∧ join_error (join_room "s1" (Some "123456") None (Some "d1") 0 init).2
    = Some InvalidInput.
Proof. by vm_compute. Qed.

(** ** Message relay *)

(** C6: [send_message] broadcasts a [receive_message] event with the
    author, the trimmed text and the server time whenever pin and author
    are present and non-empty, a room is stored under the pin and the text
    is not empty once trimmed.  Whenever the pin, the author or the text is
    missing or empty, or no room is stored under the pin, nothing is
    emitted.  In every case the state is as before, the sender gets no
    answer, and at most one event goes out, a [receive_message] to the pin
    of a stored room with the author of the request.  The handler of the
    older server has no condition at all: it relays every request as it
    came. *)
Theorem send_message_relay pin autor message now st :
  (∀ p a m, pin = Some p → autor = Some a → message = Some m →
     p ≠ EmptyString → a ≠ EmptyString →
     is_Some (rooms st !! p) → trim m ≠ EmptyString →
     send_message pin autor message now st
     = (st, [io_to_emit p (receive_message a (trim m) now)]))
  ∧ (missing pin ∨ missing autor ∨ missing message
     ∨ (∃ p, pin = Some p ∧ rooms st !! p = None) →
     send_message pin autor message now st = (st, []))
  ∧ (∃ eff, send_message pin autor message now st = (st, eff)
       ∧ length eff ≤ 1
       ∧ ∀ e, e ∈ eff →
           ∃ p a m, e = io_to_emit p (receive_message a m now)
             ∧ pin = Some p ∧ autor = Some a ∧ is_Some (rooms st !! p))
  ∧ (∀ st0, P1.send_message pin autor message st0
            = (st0, [P1.io_to_emit pin (P1.receive_message autor message)])).
Proof.
  split_and!.
  - intros p a m -> -> -> Hp Ha [r Hr] Hm. unfold send_message.
    assert (m ≠ EmptyString) as Hm' by (by intros ->).
    rewrite !truthy_Some by done. simpl. by rewrite Hr.
  - unfold send_message.
    intros [Hpin|[Hautor|[Hmsg|(p & -> & Hr)]]].
    + apply truthy_missing in Hpin. by rewrite Hpin.
    + apply truthy_missing in Hautor. rewrite Hautor.
      by rewrite orb_true_r.
    + apply truthy_missing in Hmsg. rewrite Hmsg. by rewrite !orb_true_r.
    + rewrite Hr. destruct (negb (truthy (Some p)) || negb (truthy autor)
                            || negb (truthy message)); [done|].
      by destruct autor, message.
  - unfold send_message.
    destruct (truthy pin) eqn:Hpin; simpl.
    2:{ exists []. split_and!; [done|simpl; lia|by intros ? ?%elem_of_nil]. }
    destruct (truthy autor) eqn:Hautor; simpl.
    2:{ exists []. split_and!; [done|simpl; lia|by intros ? ?%elem_of_nil]. }
    destruct (truthy message) eqn:Hmsg; simpl.
    2:{ exists []. split_and!; [done|simpl; lia|by intros ? ?%elem_of_nil]. }
    apply truthy_present in Hpin as (p & -> & Hp).
    apply truthy_present in Hautor as (a & -> & Ha).
    apply truthy_present in Hmsg as (m & -> & Hm).
    destruct (rooms st !! p) as [r|] eqn:Hr.
    + eexists. split_and!; [done|simpl; lia|].
      intros e ->%list_elem_of_singleton. exists p, a, (trim m).
      by split_and!.
    + exists []. split_and!; [done|simpl; lia|by intros ? ?%elem_of_nil].
  - done.
Qed.

Lemma send_message_relay_witness :
  send_message (Some "100000") (Some "Ana")
    (Some (bytes [32; 194; 160] +:+ "hola" +:+ bytes [226; 128; 169])) 5
    (State {[ "100000" := Room "h" 2 [] 0 ]} ∅ ∅ [])
  = (State {[ "100000" := Room "h" 2 [] 0 ]} ∅ ∅ [],
     [io_to_emit "100000" (receive_message "Ana" "hola" 5)]).
Proof.
  apply (proj1 (send_message_relay (Some "100000") (Some "Ana")
                  (Some (bytes [32; 194; 160] +:+ "hola"
                         +:+ bytes [226; 128; 169])) 5
                  (State {[ "100000" := Room "h" 2 [] 0 ]} ∅ ∅ []))
           "100000" "Ana"
           (bytes [32; 194; 160] +:+ "hola" +:+ bytes [226; 128; 169]));
    done.
Defined.

(** The claim as stated fails by the design of both handlers.  The handler
    with the guard drops a text when the author is empty, although the room
    exists and the text is not empty once trimmed; the handler of the older
    server broadcasts a text of spaces to a pin that has no room. *)
Lemma send_message_relay_counterexample :
  let st := State {[ "100000" := Room "h" 2 [] 0 ]} ∅ ∅ [] in
  (relay_claimed st "100000" "hola"
   ∧ send_message (Some "100000") (Some EmptyString) (Some "hola") 5 st
     = (st, []))
  ∧ (P1.rooms P1.init !! "999999" = None
     ∧ trim "   " = EmptyString
     ∧ P1.send_message (Some "999999") (Some "Ana") (Some "   ") P1.init
       = (P1.init, [P1.io_to_emit (Some "999999")
                      (P1.receive_message (Some "Ana") (Some "   "))])).
Proof.
  intros st. split; [split|split_and!].
  - split; [by eexists|by vm_compute].
  - by vm_compute.
  - done.
  - by vm_compute.
  - done.
Qed.

(** What the handler with the guard does with a text of white space only,
    which the guard lets through because it tests the text as it came: the
    event goes out with the empty text. *)
Example send_message_blank_text :
  send_message (Some "100000") (Some "Ana") (Some "   ") 5
    (State {[ "100000" := Room "h" 2 [] 0 ]} ∅ ∅ [])
  = (State {[ "100000" := Room "h" 2 [] 0 ]} ∅ ∅ [],
     [io_to_emit "100000" (receive_message "Ana" EmptyString 5)]).
Proof. by vm_compute. Qed.

(** ** Disconnect of a connection that never joined *)

Lemma handle_socket_index c req st st' eff :
  socketToDeviceMap st !! c = None →
  handle req st = Some (st', eff) →
  match req with
  | JoinRoom sid _ _ _ _ => ¬ (sid = c ∧ succeeded eff = true)
  | _ => True
  end →
  socketToDeviceMap st' !! c = None.
Proof.
  intros Hc. destruct req as [sid nk lim now rnd|sid pin nk d now
                             |sid pin autor msg now|sid|]; simpl.
  - destruct (create_room_cases sid nk lim now rnd st)
      as [[_ ->]|(n & _ & _ & _ & ->)]; [by intros [= <- _]|].
    destruct (generateUniquePIN (rooms st) rnd); [|done].
    simpl. by intros [= <- _].
  - destruct (join_room_cases sid pin nk d now st)
      as [(e & _ & ->)|(p & nk' & d' & r & _ & _ & _ & _ & _ & _ & ->)];
      [by intros [= <- _]|].
    unfold joined. intros [= <- <-] Hnot. simpl.
    rewrite lookup_insert_ne; [done|].
    intros ->. by apply Hnot.
  - intros [= Hsend] _.
    pose proof (send_message_state pin autor msg now st) as Hst'.
    rewrite Hsend in Hst'. simpl in Hst'. by subst st'.
  - destruct (disconnect_cases sid st)
      as [->|(d & pin & r & i & u & _ & _ & _ & _ & ->)];
      [by intros [= <- _]|].
    unfold departed. intros [= <- _] _. simpl.
    rewrite lookup_delete. by case_decide.
  - destruct (timers st) as [|pin rest]; [done|]. intros [= <- _] _.
    unfold cleanup; simpl.
    destruct (rooms st !! pin) as [r|]; [|done].
    by case_bool_decide.
Qed.

Lemma never_joined_socket_index c reqs st st' :
  socketToDeviceMap st !! c = None →
  run reqs st = Some st' → never_joined c reqs st →
  socketToDeviceMap st' !! c = None.
Proof.
  revert st. induction reqs as [|req reqs IH]; simpl.
  - by intros st Hc [= <-] _.
  - intros st Hc Hrun Hnever.
    destruct (handle req st) as [[st1 eff]|] eqn:Hreq; [|done].
    destruct Hnever as [Hreq1 Hnever].
    eapply IH; [|done..]. by eapply handle_socket_index.
Qed.

(** C10: when the connection that created a room has never had a
    [join_room] answered with a success, its disconnect changes nothing:
    the room table (the room stays), both indices and the pending timers
    are as before, and nothing is emitted. *)
Theorem creator_disconnect_frame c reqs st pin r :
  run reqs init = Some st →
  never_joined c reqs init →
  rooms st !! pin = Some r → hostSocketId r = c →
  disconnect c st = (st, [])
  ∧ rooms (disconnect c st).1 !! pin = Some r
  ∧ timers (disconnect c st).1 = timers st.
Proof.
  intros Hrun Hnever Hr _.
  assert (disconnect c st = (st, [])) as ->; [|done].
  unfold disconnect.
  by rewrite (never_joined_socket_index c reqs init st).
Qed.

Lemma creator_disconnect_frame_witness :
  let st := State {[ "100000" := Room "h" 3 [User "s1" "Beto" "d1" 1] 0 ]}
                  {[ "d1" := "100000" ]} {[ "s1" := "d1" ]} [] in
  disconnect "h" st = (st, [])
  ∧ rooms (disconnect "h" st).1 !! "100000"
    = Some (Room "h" 3 [User "s1" "Beto" "d1" 1] 0)
  ∧ timers (disconnect "h" st).1 = timers st.
Proof.
  intros st.
  apply (creator_disconnect_frame "h"
           [CreateRoom "h" (Some "Ana") (Some 3%Z) 0 [0%Q];
            JoinRoom "s1" (Some "100000") (Some "Beto") (Some "d1") 1]
           st "100000" (Room "h" 3 [User "s1" "Beto" "d1" 1] 0)).
  - by vm_compute.
  - vm_compute. split; [done|]. split; [|done]. by intros [? _].
  - by vm_compute.
  - done.
Defined.

(** ** The device index *)

(** C1 does not hold of the code.  A connection joins a room twice under
    two device identifiers and then disconnects: [disconnect] removes the
    first member that carries the socket, which is the one of the first
    device, and clears the index entry of the second device.  The first
    device stays in the index although no room has it as a member. *)
Theorem index_desync_after_double_join :
  let reqs :=
    [CreateRoom "h" (Some "Ana") (Some 3%Z) 0 [0%Q];
     JoinRoom "s1" (Some "100000") (Some "Beto") (Some "d1") 1;
     JoinRoom "s1" (Some "100000") (Some "Beto") (Some "d2") 2;
     Disconnect "s1"] in
  let st := State {[ "100000" := Room "h" 3 [User "s1" "Beto" "d2" 2] 0 ]}
                  {[ "d1" := "100000" ]} ∅ [] in
  run reqs init = Some st ∧ reachable st ∧ ¬ index_consistent st.
Proof.
  intros reqs st.
  assert (run reqs init = Some st) as Hrun by by vm_compute.
  split_and!; [done|by exists reqs|].
  intros Hidx.
  destruct (Hidx "d1" "100000") as [(r & Hr & Hlen) _]; [done|].
  assert (r = Room "h" 3 [User "s1" "Beto" "d2" 2] 0) as ->.
  { simpl in Hr. rewrite lookup_singleton_eq in Hr. by injection Hr. }
  by vm_compute in Hlen.
Qed.

(** *** Where the index does stay in step

    The indices follow the member lists along every run in which no socket
    joins while it still holds a membership. *)

Lemma filter_device_absent (d : string) (us : list user) :
  d ∉ deviceId <$> us → filter (λ u, deviceId u = d) us = [].
Proof.
  induction us as [|u us IH]; [done|].
  rewrite fmap_cons, not_elem_of_cons. intros [Hne Hd].
  rewrite filter_cons_False by congruence. by apply IH.
Qed.

Lemma filter_device_once (d : string) (us : list user) :
  NoDup (deviceId <$> us) → d ∈ deviceId <$> us →
  length (filter (λ u, deviceId u = d) us) = 1.
Proof.
  induction us as [|u us IH]; [by intros _ ?%elem_of_nil|].
  rewrite fmap_cons, NoDup_cons, elem_of_cons. intros [Hu Hnd] Hd.
  destruct (decide (deviceId u = d)) as [<-|Hne].
  - rewrite filter_cons_True by done.
    by rewrite filter_device_absent.
  - rewrite filter_cons_False by done.
    destruct Hd as [->|Hd]; [done|]. by apply IH.
Qed.

Lemma in_step_consistent st : in_step st → index_consistent st.
Proof.
  intros (Hmem & Hidx & Hnd) d p Hd. split.
  - destruct (Hidx d p Hd) as (r & Hr & Hin). exists r. split; [done|].
    apply filter_device_once; [by eapply Hnd|done].
  - intros p' r' Hr' Hne. unfold members_with in Hne.
    destruct (filter (λ u, deviceId u = d) (users r')) as [|u us] eqn:Hf;
      [done|].
    assert (u ∈ filter (λ u, deviceId u = d) (users r')) as Hu
      by (rewrite Hf; by left).
    apply list_elem_of_filter in Hu as [Hdu Hu].
    destruct (Hmem p' r' u Hr' Hu) as [Hp' _].
    rewrite Hdu, Hd in Hp'. by injection Hp'.
Qed.

Lemma elem_of_delete (us : list user) (i : nat) (u : user) :
  u ∈ delete i us → u ∈ us.
Proof.
  revert i. induction us as [|v us IH]; intros [|i]; csimpl; try done.
  - by right.
  - rewrite !elem_of_cons. intros [->|Hu]; [by left|right; by eapply IH].
Qed.

Lemma delete_member_device (us : list user) (i : nat) (u u' : user) :
  NoDup (deviceId <$> us) → us !! i = Some u → u' ∈ delete i us →
  deviceId u' ≠ deviceId u.
Proof.
  revert i. induction us as [|v us IH]; intros [|i]; csimpl; try done.
  - rewrite NoDup_cons. intros [Hv _] [= ->] Hu' Heq.
    apply Hv. rewrite <-Heq. by apply list_elem_of_fmap_2.
  - rewrite NoDup_cons, elem_of_cons.
    intros [Hv Hnd] Hi [->|Hu']; [|by eapply IH].
    intros Heq. apply Hv. rewrite Heq.
    apply list_elem_of_fmap_2. by eapply list_elem_of_lookup_2.
Qed.

Lemma delete_other_device (us : list user) (i : nat) (u : user) (d : string) :
  us !! i = Some u → d ∈ deviceId <$> us → d ≠ deviceId u →
  d ∈ deviceId <$> delete i us.
Proof.
  revert i. induction us as [|v us IH]; intros [|i]; csimpl; try done.
  - rewrite elem_of_cons. intros [= ->] [->|Hd] Hne; by try done.
  - rewrite !elem_of_cons.
    intros Hi [->|Hd] Hne; [by left|right; by eapply IH].
Qed.

Lemma validation_None st p nk d r :
  validation st (Some p) (Some nk) (Some d) = None →
  rooms st !! p = Some r →
  (d ∉ deviceId <$> users r)
  ∧ (deviceRoomMap st !! d = None ∨ deviceRoomMap st !! d = Some p).
Proof.
  unfold validation, listed_checks. intros Hv Hr. rewrite Hr in Hv.
  case_bool_decide; [done|].
  case_bool_decide; [done|].
  destruct (deviceRoomMap st !! d) as [p'|] eqn:Hd.
  - case_bool_decide as Hp'; [done|].
    case_bool_decide; [done|]. split; [done|right].
    f_equal. by destruct (decide (p' = p)).
  - case_bool_decide; [done|]. split; [done|by left].
Qed.

Lemma in_step_create st pin r :
  in_step st → rooms st !! pin = None → users r = [] →
  in_step (with_rooms st (<[pin := r]> (rooms st))).
Proof.
  intros (Hmem & Hidx & Hnd) Hfree Hempty. split_and!.
  - intros p r0 u. simpl. rewrite lookup_insert. case_decide as Hp.
    + intros [= <-]. rewrite Hempty. by intros ?%elem_of_nil.
    + apply Hmem.
  - intros d p Hd. simpl in *.
    destruct (Hidx d p Hd) as (r0 & Hr0 & Hin). exists r0.
    rewrite lookup_insert_ne; [done|]. intros ->. congruence.
  - intros p r0. simpl. rewrite lookup_insert. case_decide.
    + intros [= <-]. rewrite Hempty. constructor.
    + apply Hnd.
Qed.

Lemma in_step_join sid p nk d now r st :
  in_step st → rooms st !! p = Some r →
  d ∉ deviceId <$> users r →
  deviceRoomMap st !! d = None ∨ deviceRoomMap st !! d = Some p →
  socketToDeviceMap st !! sid = None →
  in_step (joined sid p nk d now r st).1.
Proof.
  intros (Hmem & Hidx & Hnd) Hr Hnew Hd Hsid.
  assert (deviceRoomMap st !! d = None) as Hfree.
  { destruct Hd as [?|Hd]; [done|].
    destruct (Hidx d p Hd) as (r0 & Hr0 & Hin). congruence. }
  assert (∀ p0 r0 u, rooms st !! p0 = Some r0 → u ∈ users r0 →
            deviceId u ≠ d ∧ socketId u ≠ sid) as Hold.
  { intros p0 r0 u Hr0 Hu. destruct (Hmem p0 r0 u Hr0 Hu) as [H1 H2].
    split; intros Heq; congruence. }
  unfold joined. simpl. split_and!.
  - intros p0 r0 u. simpl. rewrite lookup_insert. case_decide as Hp.
    + subst p0. intros [= <-]. simpl. rewrite elem_of_app.
      intros [Hu|Hu%list_elem_of_singleton].
      * destruct (Hold p r u Hr Hu) as [? ?].
        destruct (Hmem p r u Hr Hu) as [? ?].
        by rewrite !lookup_insert_ne.
      * subst u. simpl. by rewrite !lookup_insert_eq.
    + intros Hr0 Hu. destruct (Hold p0 r0 u Hr0 Hu) as [? ?].
      destruct (Hmem p0 r0 u Hr0 Hu) as [? ?].
      by rewrite !lookup_insert_ne.
  - intros d0 p0. simpl. rewrite lookup_insert. case_decide as Hd0.
    + subst d0. intros [= <-]. eexists. rewrite lookup_insert_eq.
      split; [done|]. simpl. rewrite fmap_app, elem_of_app. right. by left.
    + intros Hp0. destruct (Hidx d0 p0 Hp0) as (r0 & Hr0 & Hin).
      rewrite lookup_insert. case_decide as Hp.
      * subst p0. eexists. split; [done|]. simpl.
        rewrite fmap_app, elem_of_app. left. congruence.
      * by exists r0.
  - intros p0 r0. simpl. rewrite lookup_insert. case_decide as Hp.
    + intros [= <-]. simpl. rewrite fmap_app. apply NoDup_app.
      split_and!; [by eapply Hnd| |apply NoDup_singleton].
      intros x Hx ->%list_elem_of_singleton. done.
    + apply Hnd.
Qed.

Lemma in_step_disconnect sid d pin i u r st :
  in_step st →
  socketToDeviceMap st !! sid = Some d →
  deviceRoomMap st !! d = Some pin →
  rooms st !! pin = Some r →
  findIndex sid (users r) = Some (i, u) →
  in_step (departed sid d pin i u r st).1.
Proof.
  intros (Hmem & Hidx & Hnd) Hsid Hd Hr Hfind.
  apply list_find_Some in Hfind as (Hi & Hu & _).
  assert (u ∈ users r) as Hin by by eapply list_elem_of_lookup_2.
  assert (deviceId u = d) as Hud.
  { destruct (Hmem pin r u Hr Hin) as [_ H2]. congruence. }
  assert (∀ p0 r0 u0, rooms st !! p0 = Some r0 → u0 ∈ users r0 →
            (p0 = pin → u0 ∈ delete i (users r)) →
            deviceId u0 ≠ d ∧ socketId u0 ≠ sid) as Hold.
  { intros p0 r0 u0 Hr0 Hu0 Hp0.
    destruct (Hmem p0 r0 u0 Hr0 Hu0) as [H1 H2].
    assert (deviceId u0 ≠ d) as Hne.
    { intros Heq. rewrite Heq, Hd in H1. injection H1 as <-.
      specialize (Hp0 eq_refl).
      apply (delete_member_device (users r) i u u0);
        [by eapply Hnd|done|done|congruence]. }
    split; [done|]. intros Heq. congruence. }
  unfold departed. simpl. split_and!.
  - intros p0 r0 u0. simpl. rewrite lookup_insert. case_decide as Hp.
    + subst p0. intros [= <-]. simpl. intros Hu0.
      pose proof (elem_of_delete _ _ _ Hu0) as Hu0'.
      destruct (Hold pin r u0 Hr Hu0') as [? ?]; [done|].
      destruct (Hmem pin r u0 Hr Hu0') as [? ?].
      by rewrite !lookup_delete_ne.
    + intros Hr0 Hu0.
      destruct (Hold p0 r0 u0 Hr0 Hu0) as [? ?]; [done|].
      destruct (Hmem p0 r0 u0 Hr0 Hu0) as [? ?].
      by rewrite !lookup_delete_ne.
  - intros d0 p0. simpl. rewrite lookup_delete. case_decide as Hd0; [done|].
    intros Hp0. destruct (Hidx d0 p0 Hp0) as (r0 & Hr0 & Hin0).
    rewrite lookup_insert. case_decide as Hp.
    + subst p0. eexists. split; [done|]. simpl.
      assert (r0 = r) as -> by congruence.
      eapply delete_other_device; [done..|congruence].
    + by exists r0.
  - intros p0 r0. simpl. rewrite lookup_insert. case_decide as Hp.
    + intros [= <-]. simpl.
      apply (sublist_NoDup _ (deviceId <$> users r));
        [by eapply Hnd|apply fmap_sublist, sublist_delete].
    + apply Hnd.
Qed.

Lemma in_step_cleanup pin st : in_step st → in_step (cleanup pin st).
Proof.
  intros Hst. unfold cleanup.
  destruct (rooms st !! pin) as [r|] eqn:Hr; [|done].
  case_bool_decide as Hlen; [|done].
  apply length_zero_iff_nil in Hlen.
  destruct Hst as (Hmem & Hidx & Hnd). split_and!.
  - intros p r0 u. simpl. rewrite lookup_delete. case_decide; [done|].
    apply Hmem.
  - intros d p Hd. simpl in *.
    destruct (Hidx d p Hd) as (r0 & Hr0 & Hin). exists r0.
    rewrite lookup_delete_ne; [done|]. intros ->.
    assert (r0 = r) as -> by congruence.
    rewrite Hlen in Hin. by apply elem_of_nil in Hin.
  - intros p r0. simpl. rewrite lookup_delete. case_decide; [done|].
    apply Hnd.
Qed.

Lemma in_step_timers st ts :
  in_step st →
  in_step (State (rooms st) (deviceRoomMap st) (socketToDeviceMap st) ts).
Proof. by intros (? & ? & ?). Qed.

Lemma in_step_handle req st st' eff :
  in_step st → handle req st = Some (st', eff) →
  match req with
  | JoinRoom sid _ _ _ _ =>
      succeeded eff = true → socketToDeviceMap st !! sid = None
  | _ => True
  end →
  in_step st'.
Proof.
  intros Hst. destruct req as [sid nk lim now rnd|sid pin nk d now
                              |sid pin autor msg now|sid|]; simpl.
  - destruct (create_room_cases sid nk lim now rnd st)
      as [[_ ->]|(n & _ & _ & _ & ->)]; [by intros [= <- _]|].
    destruct (generateUniquePIN (rooms st) rnd) as [pin|] eqn:Hpin; [|done].
    simpl. intros [= <- _] _.
    destruct (generateUniquePIN_Some _ _ _ Hpin) as [Hfree _].
    by apply in_step_create.
  - destruct (join_room_cases sid pin nk d now st)
      as [(e & _ & ->)|(p & nk' & d' & r & -> & -> & -> & Hv & Hr & _ & ->)];
      [by intros [= <- _]|].
    unfold joined. intros [= <- <-] Hsid.
    destruct (validation_None _ _ _ _ _ Hv Hr) as [Hnew Hd].
    change (in_step (joined sid p nk' d' now r st).1).
    apply in_step_join; [done..|]. by apply Hsid.
  - intros [= Hsend] _.
    pose proof (send_message_state pin autor msg now st) as Hst'.
    rewrite Hsend in Hst'. simpl in Hst'. by subst st'.
  - destruct (disconnect_cases sid st)
      as [->|(d & pin & r & i & u & Hsid & Hd & Hr & Hi & ->)];
      [by intros [= <- _]|].
    unfold departed. intros [= <- _] _.
    change (in_step (departed sid d pin i u r st).1).
    by apply in_step_disconnect.
  - destruct (timers st) as [|pin rest]; [done|]. intros [= <- _] _.
    by apply in_step_cleanup, in_step_timers.
Qed.

Lemma in_step_run reqs st :
  run reqs init = Some st → one_join_per_socket reqs init → in_step st.
Proof.
  assert (in_step init) as Hinit.
  { split_and!.
    - intros p r u. simpl. by rewrite lookup_empty.
    - intros d p. simpl. by rewrite lookup_empty.
    - intros p r. simpl. by rewrite lookup_empty. }
  revert Hinit. generalize init as st0.
  induction reqs as [|req reqs IH]; simpl; intros st0 Hst0.
  - by intros [= <-] _.
  - destruct (handle req st0) as [[st1 eff]|] eqn:Hreq; [|done].
    intros Hrun [Hreq1 Hone]. eapply IH; [|done..].
    by eapply in_step_handle.
Qed.

(** The invariant of C1 holds after every run in which each successful
    join comes from a socket without membership. *)
Lemma index_consistent_one_join reqs st :
  run reqs init = Some st → one_join_per_socket reqs init →
  index_consistent st.
Proof.
  intros Hrun Hone. apply in_step_consistent.
  assert (in_step init) as Hinit.
  { split_and!.
    - intros p r u. simpl. by rewrite lookup_empty.
    - intros d p. simpl. by rewrite lookup_empty.
    - intros p r. simpl. by rewrite lookup_empty. }
  revert Hinit Hrun Hone. generalize init as st0.
  induction reqs as [|req reqs IH]; simpl; intros st0 Hst0.
  - by intros [= <-] _.
  - destruct (handle req st0) as [[st1 eff]|] eqn:Hreq; [|done].
    intros Hrun [Hreq1 Hone]. eapply IH; [|done..].
    by eapply in_step_handle.
Qed.

(** * Further properties of the handlers *)

(** ** Disconnect *)

(** X1: handling the disconnect of a socket a second time changes nothing
    and emits nothing, whatever the first handling did. *)
Theorem disconnect_idempotent sid st :
  disconnect sid (disconnect sid st).1 = ((disconnect sid st).1, []).
Proof.
  destruct (disconnect_cases sid st)
    as [Hno|(d & pin & r & i & u & _ & _ & _ & _ & Hyes)].
  - by rewrite Hno.
  - rewrite Hyes. unfold departed. simpl. unfold disconnect. simpl.
    by rewrite lookup_delete_eq.
Qed.

(** ** Life of a room *)

(** X2: a room leaves the table only when a clean-up timer set for its PIN
    expires, and only if it has no member then; no socket event removes a
    room. *)
Theorem room_removed_only_by_timer req st st' eff p r :
  handle req st = Some (st', eff) →
  rooms st !! p = Some r → rooms st' !! p = None →
  req = Timeout ∧ (∃ rest, timers st = p :: rest) ∧ users r = [].
Proof.
  intros Hreq Hr Hgone.
  destruct req as [sid nk lim now rnd|sid pin nk d now
                  |sid pin autor msg now|sid|]; simpl in Hreq.
  - destruct (create_room_cases sid nk lim now rnd st)
      as [[_ Hc]|(n & _ & _ & _ & Hc)]; rewrite Hc in Hreq.
    { injection Hreq as <- _. congruence. }
    destruct (generateUniquePIN (rooms st) rnd) as [pin|]; [|done].
    simpl in Hreq. injection Hreq as <- _. simpl in Hgone.
    rewrite lookup_insert in Hgone. case_decide; congruence.
  - destruct (join_room_cases sid pin nk d now st)
      as [(e & _ & Hj)|(p0 & nk' & d' & r0 & _ & _ & _ & _ & _ & _ & Hj)];
      rewrite Hj in Hreq.
    { injection Hreq as <- _. congruence. }
    unfold joined in Hreq. injection Hreq as <- _. simpl in Hgone.
    rewrite lookup_insert in Hgone. case_decide; congruence.
  - injection Hreq as Hsend.
    pose proof (send_message_state pin autor msg now st) as Hst'.
    rewrite Hsend in Hst'. simpl in Hst'. congruence.
  - destruct (disconnect_cases sid st)
      as [Hd|(d & pin & r0 & i & u & _ & _ & _ & _ & Hd)];
      rewrite Hd in Hreq.
    { injection Hreq as <- _. congruence. }
    unfold departed in Hreq. injection Hreq as <- _. simpl in Hgone.
    rewrite lookup_insert in Hgone. case_decide; congruence.
  - destruct (timers st) as [|pin rest]; [done|].
    injection Hreq as <- _. unfold cleanup in Hgone. simpl in Hgone.
    destruct (rooms st !! pin) as [r0|] eqn:Hpin; [|simpl in Hgone; congruence].
    case_bool_decide as Hlen; [|simpl in Hgone; congruence].
    simpl in Hgone. rewrite lookup_delete in Hgone.
    case_decide as Hp; [|congruence]. subst pin.
    split; [done|]. split; [by exists rest|].
    apply length_zero_iff_nil. congruence.
Qed.

Lemma room_removed_only_by_timer_witness :
  Timeout = Timeout
  ∧ (∃ rest, ["100000"] = "100000" :: rest)
  ∧ users (Room "h" 2 [] 0) = [].
Proof.
  apply (room_removed_only_by_timer Timeout
           (State {[ "100000" := Room "h" 2 [] 0 ]} ∅ ∅ ["100000"])
           (State ∅ ∅ ∅ []) [] "100000" (Room "h" 2 [] 0)); by vm_compute.
Defined.

(** X3: as long as a room stays in the table, no event changes its host
    socket, its capacity or its creation time; an event leaves its member
    list as it is, appends one member or removes one member. *)
Theorem room_attributes_frozen req st st' eff p r r' :
  handle req st = Some (st', eff) →
  rooms st !! p = Some r → rooms st' !! p = Some r' →
  hostSocketId r' = hostSocketId r ∧ limit r' = limit r
  ∧ createdAt r' = createdAt r
  ∧ (users r' = users r
     ∨ (∃ u, users r' = users r ++ [u])
     ∨ (∃ i u, users r !! i = Some u ∧ users r' = delete i (users r))).
Proof.
  intros Hreq Hr Hr'.
  assert (r' = r → hostSocketId r' = hostSocketId r ∧ limit r' = limit r
            ∧ createdAt r' = createdAt r
            ∧ (users r' = users r
               ∨ (∃ u, users r' = users r ++ [u])
               ∨ (∃ i u, users r !! i = Some u
                         ∧ users r' = delete i (users r)))) as Hsame.
  { intros ->. split_and!; try done. by left. }
  destruct req as [sid nk lim now rnd|sid pin nk d now
                  |sid pin autor msg now|sid|]; simpl in Hreq.
  - destruct (create_room_cases sid nk lim now rnd st)
      as [[_ Hc]|(n & _ & _ & _ & Hc)]; rewrite Hc in Hreq.
    { injection Hreq as <- _. apply Hsame. congruence. }
    destruct (generateUniquePIN (rooms st) rnd) as [pin|] eqn:Hpin; [|done].
    simpl in Hreq. injection Hreq as <- _. simpl in Hr'.
    destruct (generateUniquePIN_Some _ _ _ Hpin) as [Hfree _].
    rewrite lookup_insert_ne in Hr' by congruence.
    apply Hsame. congruence.
  - destruct (join_room_cases sid pin nk d now st)
      as [(e & _ & Hj)|(p0 & nk' & d' & r0 & _ & _ & _ & _ & Hr0 & _ & Hj)];
      rewrite Hj in Hreq.
    { injection Hreq as <- _. apply Hsame. congruence. }
    unfold joined in Hreq. injection Hreq as <- _. simpl in Hr'.
    rewrite lookup_insert in Hr'. case_decide as Hp.
    + subst p0. injection Hr' as <-. simpl.
      assert (r0 = r) as -> by congruence.
      split_and!; try done. right. left. by eexists.
    + apply Hsame. congruence.
  - injection Hreq as Hsend.
    pose proof (send_message_state pin autor msg now st) as Hst'.
    rewrite Hsend in Hst'. simpl in Hst'. apply Hsame. congruence.
  - destruct (disconnect_cases sid st)
      as [Hd|(d & pin & r0 & i & u & _ & _ & Hr0 & Hi & Hd)];
      rewrite Hd in Hreq.
    { injection Hreq as <- _. apply Hsame. congruence. }
    unfold departed in Hreq. injection Hreq as <- _. simpl in Hr'.
    rewrite lookup_insert in Hr'. case_decide as Hp.
    + subst pin. injection Hr' as <-. simpl.
      assert (r0 = r) as -> by congruence.
      apply list_find_Some in Hi as (Hi & _ & _).
      split_and!; try done. right. right. by exists i, u.
    + apply Hsame. congruence.
  - destruct (timers st) as [|pin rest]; [done|].
    injection Hreq as <- _. unfold cleanup in Hr'. simpl in Hr'.
    destruct (rooms st !! pin) as [r0|] eqn:Hpin;
      [|simpl in Hr'; apply Hsame; congruence].
    case_bool_decide as Hlen; [|simpl in Hr'; apply Hsame; congruence].
    simpl in Hr'. rewrite lookup_delete in Hr'.
    case_decide; [done|]. apply Hsame. congruence.
Qed.

Lemma room_attributes_frozen_witness :
  let r := Room "h" 3 [] 0 in
  let r' := Room "h" 3 [User "s1" "Beto" "d1" 5] 0 in
  hostSocketId r' = hostSocketId r ∧ limit r' = limit r
  ∧ createdAt r' = createdAt r
  ∧ (users r' = users r
     ∨ (∃ u, users r' = users r ++ [u])
     ∨ (∃ i u, users r !! i = Some u ∧ users r' = delete i (users r))).
Proof.
  intros r r'.
  apply (room_attributes_frozen
           (JoinRoom "s1" (Some "100000") (Some "Beto") (Some "d1") 5)
           (State {[ "100000" := r ]} ∅ ∅ [])
           (State {[ "100000" := r' ]} {[ "d1" := "100000" ]}
                  {[ "s1" := "d1" ]} [])
           (joined "s1" "100000" "Beto" "d1" 5 r
              (State {[ "100000" := r ]} ∅ ∅ [])).2
           "100000"); by vm_compute.
Defined.

(** ** Join and disconnect together *)

Lemma validation_present st pin nickname deviceId :
  validation st pin nickname deviceId = None →
  ∃ p nk d, pin = Some p ∧ nickname = Some nk ∧ deviceId = Some d
    ∧ p ≠ EmptyString ∧ nk ≠ EmptyString ∧ d ≠ EmptyString.
Proof.
  unfold validation. case_bool_decide as Hmiss; [done|]. intros _.
  unfold missing in Hmiss.
  destruct pin as [p|], nickname as [nk|], deviceId as [d|];
    try (exfalso; apply Hmiss; auto; fail).
  exists p, nk, d. split_and!; try done; intros ->; apply Hmiss; auto.
Qed.

Lemma findIndex_last sid (us : list user) (u : user) :
  Forall (λ v, socketId v ≠ sid) us → socketId u = sid →
  findIndex sid (us ++ [u]) = Some (length us, u).
Proof.
  intros Hus Hu. unfold findIndex.
  rewrite list_find_app_r by by apply list_find_None.
  simpl. by rewrite decide_True.
Qed.

Lemma delete_last {A} (l : list A) (x : A) : delete (length l) (l ++ [x]) = l.
Proof. induction l as [|y l IH]; [done|]. simpl. by rewrite IH. Qed.

(** An accepted join is [joined]. *)
Lemma join_room_succeeded sid pin nick dev now st st1 eff1 :
  join_room sid pin nick dev now st = (st1, eff1) →
  succeeded eff1 = true →
  ∃ p nk d r,
    pin = Some p ∧ nick = Some nk ∧ dev = Some d
    ∧ p ≠ EmptyString ∧ nk ≠ EmptyString ∧ d ≠ EmptyString
    ∧ rooms st !! p = Some r
    ∧ (Z.of_nat (length (users r)) < limit r)%Z
    ∧ (d ∉ deviceId <$> users r)
    ∧ (deviceRoomMap st !! d = None ∨ deviceRoomMap st !! d = Some p)
    ∧ (st1, eff1) = joined sid p nk d now r st.
Proof.
  intros Hjoin Hok.
  destruct (join_room_cases sid pin nick dev now st)
    as [(e & _ & Hj)|(p & nk & d & r & -> & -> & -> & Hv & Hr & Hlen & Hj)];
    rewrite Hj in Hjoin.
  - injection Hjoin as <- <-. done.
  - destruct (validation_present _ _ _ _ Hv)
      as (p' & nk' & d' & [= <-] & [= <-] & [= <-] & Hp & Hnk & Hd).
    destruct (validation_None _ _ _ _ _ Hv Hr) as [Hnew Hidx].
    exists p, nk, d, r. by split_and!.
Qed.

Lemma disconnect_effective sid st d pin r i u :
  socketToDeviceMap st !! sid = Some d → d ≠ EmptyString →
  deviceRoomMap st !! d = Some pin → pin ≠ EmptyString →
  rooms st !! pin = Some r →
  findIndex sid (users r) = Some (i, u) →
  disconnect sid st = departed sid d pin i u r st.
Proof.
  intros Hsid Hd Hdev Hpin Hr Hi. unfold disconnect.
  rewrite Hsid, (truthy_Some d) by done. cbn [negb].
  rewrite Hdev, (truthy_Some pin) by done. cbn [negb].
  by rewrite Hr, Hi.
Qed.

(** X4: a join on a socket that holds no membership, followed by the
    disconnect of that socket, gives back the room table and both indices
    exactly as they were before the join (provided the indices were in step
    with the member lists); the only trace is a clean-up timer for the PIN
    when the room had no member. *)
Theorem join_disconnect_round_trip sid pin nick dev now st st1 eff1 :
  in_step st →
  socketToDeviceMap st !! sid = None →
  join_room sid pin nick dev now st = (st1, eff1) →
  succeeded eff1 = true →
  ∃ p r, pin = Some p ∧ rooms st !! p = Some r
    ∧ rooms (disconnect sid st1).1 = rooms st
    ∧ deviceRoomMap (disconnect sid st1).1 = deviceRoomMap st
    ∧ socketToDeviceMap (disconnect sid st1).1 = socketToDeviceMap st
    ∧ timers (disconnect sid st1).1
      = match users r with [] => timers st ++ [p] | _ :: _ => timers st end.
Proof.
  intros (Hmem & Hidx & Hnd) Hsid Hjoin Hok.
  destruct (join_room_succeeded _ _ _ _ _ _ _ _ Hjoin Hok)
    as (p & nk & d & r & -> & -> & -> & Hp & Hnk & Hd & Hr & _ & Hnew
        & Hdev & Hst1).
  assert (deviceRoomMap st !! d = None) as Hfree.
  { destruct Hdev as [?|Hdev]; [done|].
    destruct (Hidx d p Hdev) as (r0 & Hr0 & Hin). congruence. }
  assert (Forall (λ v, socketId v ≠ sid) (users r)) as Hsock.
  { apply Forall_forall. intros v Hv Heq.
    destruct (Hmem p r v Hr Hv) as [_ H2]. congruence. }
  unfold joined in Hst1. injection Hst1 as -> ->.
  exists p, r. split; [done|]. split; [done|].
  rewrite (disconnect_effective sid _ d p
             (Room (hostSocketId r) (limit r)
                   (users r ++ [User sid nk d now]) (createdAt r))
             (length (users r)) (User sid nk d now));
    [|simpl; by rewrite ?lookup_insert_eq..|by apply findIndex_last].
  unfold departed. simpl.
  rewrite delete_last, insert_insert_eq, !delete_insert_id by done.
  split_and!; try done.
  - apply insert_id. rewrite Hr. by destruct r.
  - by destruct (users r).
Qed.

Lemma join_disconnect_round_trip_witness :
  let st := State {[ "100000" := Room "h" 3 [] 0 ]} ∅ ∅ [] in
  let st1 := State {[ "100000" := Room "h" 3 [User "s1" "Beto" "d1" 5] 0 ]}
                   {[ "d1" := "100000" ]} {[ "s1" := "d1" ]} [] in
  ∃ p r, Some "100000" = Some p ∧ rooms st !! p = Some r
    ∧ rooms (disconnect "s1" st1).1 = rooms st
    ∧ deviceRoomMap (disconnect "s1" st1).1 = deviceRoomMap st
    ∧ socketToDeviceMap (disconnect "s1" st1).1 = socketToDeviceMap st
    ∧ timers (disconnect "s1" st1).1
      = match users r with [] => timers st ++ [p] | _ :: _ => timers st end.
Proof.
  intros st st1.
  apply (join_disconnect_round_trip "s1" (Some "100000") (Some "Beto")
           (Some "d1") 5%Z st st1
           (joined "s1" "100000" "Beto" "d1" 5 (Room "h" 3 [] 0) st).2).
  - split_and!.
    + intros p r u Hr Hu. simpl in Hr.
      apply lookup_singleton_Some in Hr as [_ <-]. by apply elem_of_nil in Hu.
    + intros d p Hd. simpl in Hd. by rewrite lookup_empty in Hd.
    + intros p r Hr. simpl in Hr.
      apply lookup_singleton_Some in Hr as [_ <-]. constructor.
  - done.
  - by vm_compute.
  - done.
Defined.

(** X5: the participant count answered by [create_room] is 1 although the
    room has no member, so the first join into the new room is answered with
    a participant count of 1 as well, and with the capacity that the
    creation answered. *)
Theorem first_join_reports_one h nick lim now rnd st st1 eff1 pin k l
    sid pin' nick' dev now' st2 eff2 k' l' :
  create_room h nick lim now rnd st = Some (st1, eff1) →
  answer eff1 = Some (success pin k l) →
  join_room sid pin' nick' dev now' st1 = (st2, eff2) →
  answer eff2 = Some (success pin k' l') →
  k = 1 ∧ k' = 1 ∧ l' = l
  ∧ get_room ∅ pin st1 = room_200 pin now l 0 [].
Proof.
  intros Hcreate Hans1 Hjoin Hans2.
  destruct (create_room_cases h nick lim now rnd st)
    as [[_ Hc]|(n & _ & _ & _ & Hc)]; rewrite Hc in Hcreate.
  { injection Hcreate as <- <-. done. }
  destruct (generateUniquePIN (rooms st) rnd) as [pin0|]; [|done].
  simpl in Hcreate. injection Hcreate as <- <-.
  simpl in Hans1. injection Hans1 as -> <- <-.
  assert (succeeded eff2 = true) as Hok by (unfold succeeded; by rewrite Hans2).
  destruct (join_room_succeeded _ _ _ _ _ _ _ _ Hjoin Hok)
    as (p & nk & d & r & -> & -> & -> & _ & _ & _ & Hr & _ & _ & _ & Hst2).
  unfold joined in Hst2. injection Hst2 as -> ->.
  simpl in Hans2. injection Hans2 as -> <- <-.
  simpl in Hr. rewrite lookup_insert_eq in Hr. injection Hr as <-.
  unfold get_room. simpl. by rewrite lookup_insert_eq.
Qed.

Lemma first_join_reports_one_witness :
  1 = 1 ∧ 1 = 1 ∧ 3%Z = 3%Z
  ∧ get_room ∅ "100000" (State {[ "100000" := Room "h" 3 [] 7 ]} ∅ ∅ [])
    = room_200 "100000" 7 3 0 [].
Proof.
  apply (first_join_reports_one "h" (Some "Ana") (Some 3%Z) 7%Z [0%Q] init
           (State {[ "100000" := Room "h" 3 [] 7 ]} ∅ ∅ [])
           [socket_join "100000"; callback (success "100000" 1 3);
            socket_emit host_info]
           "100000" 1 3%Z
           "s1" (Some "100000") (Some "Beto") (Some "d1") 9%Z
           (joined "s1" "100000" "Beto" "d1" 9
              (Room "h" 3 [] 7)
              (State {[ "100000" := Room "h" 3 [] 7 ]} ∅ ∅ [])).1
           (joined "s1" "100000" "Beto" "d1" 9
              (Room "h" 3 [] 7)
              (State {[ "100000" := Room "h" 3 [] 7 ]} ∅ ∅ [])).2
           1 3%Z); by vm_compute.
Defined.

(** ** A device that is already a member *)

Lemma join_room_present sid p nk d now st r :
  p ≠ EmptyString → nk ≠ EmptyString → d ≠ EmptyString →
  rooms st !! p = Some r →
  join_room sid (Some p) (Some nk) (Some d) now st
  = if bool_decide (limit r ≤ Z.of_nat (length (users r)))%Z then
      (st, [callback (failure RoomFull)])
    else if match deviceRoomMap st !! d with
            | Some p' => bool_decide (p' ≠ p)
            | None => false
            end then
      (st, [callback (failure DeviceAlreadyElsewhere)])
    else if bool_decide (d ∈ deviceId <$> users r) then
      (st, [callback (failure DeviceAlreadyInRoom)])
    else joined sid p nk d now r st.
Proof.
  intros Hp Hnk Hd Hr. unfold join_room.
  rewrite !truthy_Some by done. cbn [negb orb]. rewrite Hr.
  rewrite elsewhere_check, userExists_elem_of.
  destruct (Z.leb_spec (limit r) (Z.of_nat (length (users r)))).
  - by rewrite (bool_decide_eq_true_2
                  (limit r ≤ Z.of_nat (length (users r)))%Z).
  - by rewrite (bool_decide_eq_false_2
                  (limit r ≤ Z.of_nat (length (users r)))%Z) by lia.
Qed.

(** X8: when the disconnect of a socket emits anything, it has removed
    exactly one member: the first one, in join order, of those that carry
    the socket in the room that the two indices resolve.  The room hears the
    number of members left, which is the former number less one, and the
    nickname of the member removed; the index entries of the socket and of
    its device are deleted, every other room is as before, and a clean-up
    timer is set for the PIN exactly when no member is left. *)
Theorem disconnect_effect sid st st' eff :
  disconnect sid st = (st', eff) → eff ≠ [] →
  ∃ d pin r i u,
    socketToDeviceMap st !! sid = Some d
    ∧ deviceRoomMap st !! d = Some pin
    ∧ rooms st !! pin = Some r
    ∧ users r !! i = Some u ∧ socketId u = sid
    ∧ (∀ j v, users r !! j = Some v → j < i → socketId v ≠ sid)
    ∧ eff = [io_to_emit pin (room_update (length (users r) - 1) (limit r)
                                         None (Some (nickname u)))]
    ∧ rooms st' !! pin
      = Some (Room (hostSocketId r) (limit r) (delete i (users r))
                   (createdAt r))
    ∧ (∀ p, p ≠ pin → rooms st' !! p = rooms st !! p)
    ∧ deviceRoomMap st' = delete d (deviceRoomMap st)
    ∧ socketToDeviceMap st' = delete sid (socketToDeviceMap st)
    ∧ timers st'
      = if bool_decide (length (users r) = 1) then timers st ++ [pin]
        else timers st.
Proof.
  intros Hdis Heff.
  destruct (disconnect_cases sid st)
    as [Hd|(d & pin & r & i & u & Hsid & Hdev & Hr & Hi & Hd)];
    rewrite Hd in Hdis.
  { by injection Hdis as <- <-. }
  unfold departed in Hdis. injection Hdis as <- <-.
  apply list_find_Some in Hi as (Hi & Hu & Hfirst).
  assert (length (delete i (users r)) = length (users r) - 1) as Hlen.
  { apply length_delete. by eexists. }
  exists d, pin, r, i, u. cbn [users limit]. rewrite Hlen.
  split_and!; try done.
  - simpl. by rewrite lookup_insert_eq.
  - intros p Hp. simpl. by rewrite lookup_insert_ne.
  - simpl. apply lookup_lt_Some in Hi.
    repeat case_bool_decide; try done; lia.
Qed.

Lemma disconnect_effect_witness :
  let r := Room "h" 3 [User "s1" "Beto" "d1" 5] 0 in
  let st := State {[ "100000" := r ]} {[ "d1" := "100000" ]}
                  {[ "s1" := "d1" ]} [] in
  let st' := State {[ "100000" := Room "h" 3 [] 0 ]} ∅ ∅ ["100000"] in
  ∃ d pin r i u,
    socketToDeviceMap st !! "s1" = Some d
    ∧ deviceRoomMap st !! d = Some pin
    ∧ rooms st !! pin = Some r
    ∧ users r !! i = Some u ∧ socketId u = "s1"
    ∧ (∀ j v, users r !! j = Some v → j < i → socketId v ≠ "s1")
    ∧ [io_to_emit "100000" (room_update 0 3 None (Some "Beto"))]
      = [io_to_emit pin (room_update (length (users r) - 1) (limit r)
                                     None (Some (nickname u)))]
    ∧ rooms st' !! pin
      = Some (Room (hostSocketId r) (limit r) (delete i (users r))
                   (createdAt r))
    ∧ (∀ p, p ≠ pin → rooms st' !! p = rooms st !! p)
    ∧ deviceRoomMap st' = delete d (deviceRoomMap st)
    ∧ socketToDeviceMap st' = delete "s1" (socketToDeviceMap st)
    ∧ timers st'
      = if bool_decide (length (users r) = 1) then timers st ++ [pin]
        else timers st.
Proof.
  intros r st st'.
  apply (disconnect_effect "s1" st st'
           [io_to_emit "100000" (room_update 0 3 None (Some "Beto"))]);
    by vm_compute.
Defined.

(** ** What the guards of the handlers leave in the registry *)

Lemma fields_present_handle req st st' eff :
  fields_present st ∧ capacity_stored st →
  handle req st = Some (st', eff) →
  fields_present st' ∧ capacity_stored st'.
Proof.
  intros [(Hus & Hdev & Hsock) Hcap].
  unfold fields_present, capacity_stored in *.
  destruct req as [sid nk lim now rnd|sid pin nk d now
                  |sid pin autor msg now|sid|]; simpl.
  - destruct (create_room_cases sid nk lim now rnd st)
      as [[_ ->]|(n & _ & _ & Hn & ->)]; [by intros [= <- _]|].
    destruct (generateUniquePIN (rooms st) rnd) as [pin|]; [|done].
    simpl. intros [= <- _]. split; [split_and!|]; simpl; try done.
    + intros p r u. rewrite lookup_insert. case_decide.
      * intros [= <-]. by intros ?%elem_of_nil.
      * apply Hus.
    + intros p r. rewrite lookup_insert. case_decide.
      * intros [= <-]. simpl. by apply parseInt10_range.
      * apply Hcap.
  - destruct (join_room_cases sid pin nk d now st)
      as [(e & _ & ->)|(p & nk' & d' & r & -> & -> & -> & Hv & Hr & _ & ->)];
      [by intros [= <- _]|].
    destruct (validation_present _ _ _ _ Hv)
      as (? & ? & ? & [= <-] & [= <-] & [= <-] & Hp & Hnk & Hd).
    unfold joined. intros [= <- _]. split; [split_and!|]; simpl.
    + intros p0 r0 u. rewrite lookup_insert. case_decide.
      * intros [= <-]. simpl. rewrite elem_of_app.
        intros [Hu|Hu%list_elem_of_singleton]; [by eapply Hus|by subst u].
      * apply Hus.
    + intros d0 p0. rewrite lookup_insert. case_decide.
      * by intros [= <-]; subst.
      * apply Hdev.
    + intros s0 d0. rewrite lookup_insert. case_decide.
      * by intros [= <-].
      * apply Hsock.
    + intros p0 r0. rewrite lookup_insert. case_decide.
      * intros [= <-]. simpl. by eapply Hcap.
      * apply Hcap.
  - intros [= Hsend].
    pose proof (send_message_state pin autor msg now st) as Hst'.
    rewrite Hsend in Hst'. simpl in Hst'. by subst st'.
  - destruct (disconnect_cases sid st)
      as [->|(d & pin & r & i & u & _ & _ & Hr & _ & ->)];
      [by intros [= <- _]|].
    unfold departed. intros [= <- _]. split; [split_and!|]; simpl.
    + intros p0 r0 u0. rewrite lookup_insert. case_decide.
      * intros [= <-]. simpl. intros Hu0%elem_of_delete. by eapply Hus.
      * apply Hus.
    + intros d0 p0 [_ Hd0]%lookup_delete_Some. by eapply Hdev.
    + intros s0 d0 [_ Hs0]%lookup_delete_Some. by eapply Hsock.
    + intros p0 r0. rewrite lookup_insert. case_decide.
      * intros [= <-]. simpl. by eapply Hcap.
      * apply Hcap.
  - destruct (timers st) as [|pin rest]; [done|]. intros [= <- _].
    unfold cleanup; simpl.
    destruct (rooms st !! pin) as [r|]; [|done].
    case_bool_decide; [|done]. split; [split_and!|]; simpl; try done.
    + intros p0 r0 u0 [_ Hr0]%lookup_delete_Some. by eapply Hus.
    + intros p0 r0 [_ Hr0]%lookup_delete_Some. by eapply Hcap.
Qed.



(** ** A device that stays a member *)

(** No handler gives a room two members with one device identifier, and
    every PIN under which a room is stored is a rendering of a number. *)
Lemma devices_distinct_handle req st st' eff :
  devices_distinct st → handle req st = Some (st', eff) →
  devices_distinct st'.
Proof.
  intros Hnd. unfold devices_distinct in *.
  destruct req as [sid nk lim now rnd|sid pin nk d now
                  |sid pin autor msg now|sid|]; simpl.
  - destruct (create_room_cases sid nk lim now rnd st)
      as [[_ ->]|(n & _ & _ & _ & ->)]; [by intros [= <- _]|].
    destruct (generateUniquePIN (rooms st) rnd) as [pin|]; [|done].
    simpl. intros [= <- _] p r. simpl. rewrite lookup_insert. case_decide.
    + intros [= <-]. constructor.
    + apply Hnd.
  - destruct (join_room_cases sid pin nk d now st)
      as [(e & _ & ->)|(p & nk' & d' & r & -> & -> & -> & Hv & Hr & _ & ->)];
      [by intros [= <- _]|].
    destruct (validation_None _ _ _ _ _ Hv Hr) as [Hnew _].
    unfold joined. intros [= <- _] p0 r0. simpl.
    rewrite lookup_insert. case_decide.
    + intros [= <-]. simpl. rewrite fmap_app. apply NoDup_app.
      split_and!; [by eapply Hnd| |apply NoDup_singleton].
      intros x Hx ->%list_elem_of_singleton. done.
    + apply Hnd.
  - intros [= Hsend].
    pose proof (send_message_state pin autor msg now st) as Hst'.
    rewrite Hsend in Hst'. simpl in Hst'. by subst st'.
  - destruct (disconnect_cases sid st)
      as [->|(d & pin & r & i & u & _ & _ & Hr & _ & ->)];
      [by intros [= <- _]|].
    unfold departed. intros [= <- _] p0 r0. simpl.
    rewrite lookup_insert. case_decide.
    + intros [= <-]. simpl.
      eapply sublist_NoDup; [by eapply Hnd|].
      apply fmap_sublist, sublist_delete.
    + apply Hnd.
  - destruct (timers st) as [|pin rest]; [done|]. intros [= <- _].
    unfold cleanup; simpl.
    destruct (rooms st !! pin) as [r|]; [|done].
    case_bool_decide; [|done].
    intros p0 r0. simpl. intros [_ Hr0]%lookup_delete_Some. by eapply Hnd.
Qed.

Lemma room_pins_handle req st st' eff :
  (∀ p r, rooms st !! p = Some r → p ≠ EmptyString) →
  handle req st = Some (st', eff) →
  ∀ p r, rooms st' !! p = Some r → p ≠ EmptyString.
Proof.
  intros Hst.
  destruct req as [sid nk lim now rnd|sid pin nk d now
                  |sid pin autor msg now|sid|]; simpl.
  - destruct (create_room_cases sid nk lim now rnd st)
      as [[_ ->]|(n & _ & _ & _ & ->)]; [by intros [= <- _]|].
    destruct (generateUniquePIN (rooms st) rnd) as [pin|] eqn:Hpin; [|done].
    destruct (generateUniquePIN_Some _ _ _ Hpin) as (_ & q & _ & ->).
    simpl. intros [= <- _] p r. simpl. rewrite lookup_insert. case_decide.
    + intros _. subst p. apply draw_nonempty.
    + apply Hst.
  - destruct (join_room_cases sid pin nk d now st)
      as [(e & _ & ->)|(p & nk' & d' & r & _ & _ & _ & _ & Hr & _ & ->)];
      [by intros [= <- _]|].
    unfold joined. intros [= <- _] p0 r0. simpl.
    rewrite lookup_insert. case_decide.
    + intros _. subst p0. by eapply Hst.
    + apply Hst.
  - intros [= Hsend].
    pose proof (send_message_state pin autor msg now st) as Hst'.
    rewrite Hsend in Hst'. simpl in Hst'. by subst st'.
  - destruct (disconnect_cases sid st)
      as [->|(d & pin & r & i & u & _ & _ & Hr & _ & ->)];
      [by intros [= <- _]|].
    unfold departed. intros [= <- _] p0 r0. simpl.
    rewrite lookup_insert. case_decide.
    + intros _. subst p0. by eapply Hst.
    + apply Hst.
  - destruct (timers st) as [|pin rest]; [done|]. intros [= <- _].
    unfold cleanup; simpl.
    destruct (rooms st !! pin) as [r|]; [|done].
    case_bool_decide; [|done].
    intros p0 r0. simpl. intros [_ Hr0]%lookup_delete_Some. by eapply Hst.
Qed.

(** X6: after any sequence of events, a device that is a member of a room
    is not added to it a second time.  Every join of that device into that
    room, from whatever socket and under whatever nickname, is rejected and
    changes nothing: with the room-full error when the room has no place
    left, else with the already-elsewhere error when the device index maps
    the device to another PIN, else with the already-in-room error.  So no
    room ever has two members with one device identifier. *)
Theorem rejoin_same_device_rejected reqs st p r d sid nk now :
  run reqs init = Some st →
  rooms st !! p = Some r → d ∈ deviceId <$> users r →
  nk ≠ EmptyString →
  join_room sid (Some p) (Some nk) (Some d) now st
  = (st, [callback (failure
            (if bool_decide (limit r ≤ Z.of_nat (length (users r)))%Z
             then RoomFull
             else if match deviceRoomMap st !! d with
                     | Some p' => bool_decide (p' ≠ p)
                     | None => false
                     end
             then DeviceAlreadyElsewhere
             else DeviceAlreadyInRoom))])
  ∧ NoDup (deviceId <$> users r).
Proof.
  intros Hrun Hr Hd Hnk.
  assert (∀ p r, rooms st !! p = Some r → p ≠ EmptyString) as Hkeys.
  { apply (run_invariant (λ st, ∀ p r, rooms st !! p = Some r
                                       → p ≠ EmptyString))
      with (reqs := reqs) (st := init);
      [intros; by eapply room_pins_handle| |done].
    intros p0 r0. simpl. by rewrite lookup_empty. }
  pose proof (Hkeys p r Hr) as Hp.
  assert (d ≠ EmptyString) as Hd'.
  { assert (fields_present st ∧ capacity_stored st) as [(Hus & _) _].
    { apply (run_invariant (λ st, fields_present st ∧ capacity_stored st))
        with (reqs := reqs) (st := init);
        [intros; by eapply fields_present_handle| |done].
      unfold fields_present, capacity_stored.
      split; [split_and!|]; simpl.
      - intros p0 r0 u. by rewrite lookup_empty.
      - intros d0 p0. by rewrite lookup_empty.
      - intros s0 d0. by rewrite lookup_empty.
      - intros p0 r0. by rewrite lookup_empty. }
    apply list_elem_of_fmap in Hd as (u & -> & Hu). by eapply Hus. }
  split.
  - rewrite (join_room_present sid p nk d now st r) by done.
    case_bool_decide; [done|].
    destruct (match deviceRoomMap st !! d with
              | Some p' => bool_decide (p' ≠ p)
              | None => false
              end); [done|].
    by rewrite bool_decide_eq_true_2.
  - assert (devices_distinct st) as Hnd; [|by eapply Hnd].
    apply (run_invariant devices_distinct) with (reqs := reqs) (st := init);
      [intros; by eapply devices_distinct_handle| |done].
    intros p0 r0. simpl. by rewrite lookup_empty.
Qed.

Lemma rejoin_same_device_rejected_witness :
  let r := Room "h" 3 [User "s1" "Beto" "d1" 5] 0 in
  let st := State {[ "100000" := r ]} {[ "d1" := "100000" ]}
                  {[ "s1" := "d1" ]} [] in
  join_room "s2" (Some "100000") (Some "Caro") (Some "d1") 9 st
  = (st, [callback (failure
            (if bool_decide (limit r ≤ Z.of_nat (length (users r)))%Z
             then RoomFull
             else if match deviceRoomMap st !! "d1" with
                     | Some p' => bool_decide (p' ≠ "100000")
                     | None => false
                     end
             then DeviceAlreadyElsewhere
             else DeviceAlreadyInRoom))])
  ∧ NoDup (deviceId <$> users r).
Proof.
  intros r st.
  apply (rejoin_same_device_rejected
           [CreateRoom "h" (Some "Ana") (Some 3%Z) 0 [0%Q];
            JoinRoom "s1" (Some "100000") (Some "Beto") (Some "d1") 5]
           st "100000" r "d1" "s2" "Caro" 9%Z); try done.
  vm_compute. by left.
Defined.

(** A member whose index entry was deleted by the disconnect of a socket
    that had joined twice is answered with the already-elsewhere error once
    its device has been indexed to another room, and stays a member. *)
Example rejoin_after_double_join :
  match run [CreateRoom "h" (Some "Ana") (Some 3%Z) 0 [0%Q];
             CreateRoom "g" (Some "Eva") (Some 3%Z) 0 [(1 # 2)%Q];
             JoinRoom "s1" (Some "100000") (Some "Beto") (Some "d0") 1;
             JoinRoom "s1" (Some "100000") (Some "Beto") (Some "d1") 2;
             Disconnect "s1";
             JoinRoom "s2" (Some "550000") (Some "Beto") (Some "d1") 3] init
  with
  | Some st =>
      (λ r, deviceId <$> users r) <$> rooms st !! "100000" = Some ["d1"]
      ∧ (λ r, deviceId <$> users r) <$> rooms st !! "550000" = Some ["d1"]
      ∧ join_room "s3" (Some "100000") (Some "Beto") (Some "d1") 4 st
        = (st, [callback (failure DeviceAlreadyElsewhere)])
  | None => False
  end.
Proof. by vm_compute. Qed.

(** X7: along every run in which a join is answered with a success only on
    a socket that holds no membership, a device that is a member of a room
    cannot join another one.  Its join into any other room that exists is
    rejected and changes nothing: with the room-full error when that room
    has no place left, with the already-elsewhere error otherwise.  (When a
    socket joins twice, its disconnect leaves a member without index entry,
    and the join of that device into another room is accepted:
    [rejoin_after_double_join].) *)
Theorem cross_room_join_rejected reqs st p r d b rb sid nk now :
  run reqs init = Some st → one_join_per_socket reqs init →
  rooms st !! p = Some r → d ∈ deviceId <$> users r →
  b ≠ p → rooms st !! b = Some rb → nk ≠ EmptyString →
  join_room sid (Some b) (Some nk) (Some d) now st
  = (st, [callback (failure
            (if bool_decide (limit rb ≤ Z.of_nat (length (users rb)))%Z
             then RoomFull else DeviceAlreadyElsewhere))]).
Proof.
  intros Hrun Hone Hr Hd Hb Hrb Hnk.
  destruct (in_step_run _ _ Hrun Hone) as (Hmem & _ & _).
  apply list_elem_of_fmap in Hd as (u & -> & Hu).
  destruct (Hmem p r u Hr Hu) as [Hidx _].
  assert (∀ p r, rooms st !! p = Some r → p ≠ EmptyString) as Hkeys.
  { apply (run_invariant (λ st, ∀ p r, rooms st !! p = Some r
                                       → p ≠ EmptyString))
      with (reqs := reqs) (st := init);
      [intros; by eapply room_pins_handle| |done].
    intros p0 r0. simpl. by rewrite lookup_empty. }
  pose proof (Hkeys b rb Hrb) as Hb'.
  assert (deviceId u ≠ EmptyString) as Hd'.
  { assert (fields_present st ∧ capacity_stored st) as [(Hus & _) _].
    { apply (run_invariant (λ st, fields_present st ∧ capacity_stored st))
        with (reqs := reqs) (st := init);
        [intros; by eapply fields_present_handle| |done].
      unfold fields_present, capacity_stored.
      split; [split_and!|]; simpl.
      - intros p0 r0 u0. by rewrite lookup_empty.
      - intros d0 p0. by rewrite lookup_empty.
      - intros s0 d0. by rewrite lookup_empty.
      - intros p0 r0. by rewrite lookup_empty. }
    exact (proj2 (Hus p r u Hr Hu)). }
  rewrite (join_room_present sid b nk (deviceId u) now st rb) by done.
  case_bool_decide; [done|]. rewrite Hidx.
  by rewrite bool_decide_eq_true_2 by done.
Qed.

Lemma cross_room_join_rejected_witness :
  let st := State {[ "100000" := Room "h" 3 [User "s1" "Beto" "d1" 5] 0;
                     "550000" := Room "g" 2 [] 1 ]}
                  {[ "d1" := "100000" ]} {[ "s1" := "d1" ]} [] in
  join_room "s2" (Some "550000") (Some "Caro") (Some "d1") 9 st
  = (st, [callback (failure
            (if bool_decide (limit (Room "g" 2 [] 1)
                             ≤ Z.of_nat (length (users (Room "g" 2 [] 1))))%Z
             then RoomFull else DeviceAlreadyElsewhere))]).
Proof.
  intros st.
  apply (cross_room_join_rejected
           [CreateRoom "h" (Some "Ana") (Some 3%Z) 0 [0%Q];
            CreateRoom "g" (Some "Eva") (Some 2%Z) 1 [(1 # 2)%Q];
            JoinRoom "s1" (Some "100000") (Some "Beto") (Some "d1") 5]
           st "100000" (Room "h" 3 [User "s1" "Beto" "d1" 5] 0) "d1"
           "550000" (Room "g" 2 [] 1) "s2" "Caro" 9%Z).
  - by vm_compute.
  - vm_compute. split_and!; try done; intros _; reflexivity.
  - by vm_compute.
  - vm_compute. by left.
  - by vm_compute.
  - by vm_compute.
  - by vm_compute.
Defined.

Lemma pins_six_digits_handle req st st' eff :
  fair req → pins_six_digits st → handle req st = Some (st', eff) →
  pins_six_digits st'.
Proof.
  intros Hfair (Hrooms & Hdev & Htim). unfold pins_six_digits.
  destruct req as [sid nk lim now rnd|sid pin nk d now
                  |sid pin autor msg now|sid|]; simpl.
  - destruct (create_room_cases sid nk lim now rnd st)
      as [[_ ->]|(n & _ & _ & _ & ->)]; [by intros [= <- _]|].
    destruct (generateUniquePIN (rooms st) rnd) as [pin|] eqn:Hpin; [|done].
    simpl. intros [= <- _].
    destruct (generateUniquePIN_Some _ _ _ Hpin) as (_ & q & Hq & ->).
    simpl in Hfair. rewrite Forall_forall in Hfair.
    split_and!; simpl; try done.
    intros p r. rewrite lookup_insert. case_decide as Hp.
    + intros _. subst p. by apply draw_six, Hfair.
    + apply Hrooms.
  - destruct (join_room_cases sid pin nk d now st)
      as [(e & _ & ->)|(p & nk' & d' & r & _ & _ & _ & _ & Hr & _ & ->)];
      [by intros [= <- _]|].
    unfold joined. intros [= <- _]. split_and!; simpl; try done.
    + intros p0 r0. rewrite lookup_insert. case_decide.
      * intros _. subst p0. by eapply Hrooms.
      * apply Hrooms.
    + intros d0 p0. rewrite lookup_insert. case_decide.
      * intros [= <-]. by eapply Hrooms.
      * apply Hdev.
  - intros [= Hsend].
    pose proof (send_message_state pin autor msg now st) as Hst'.
    rewrite Hsend in Hst'. simpl in Hst'. by subst st'.
  - destruct (disconnect_cases sid st)
      as [->|(d & pin & r & i & u & _ & _ & Hr & _ & ->)];
      [by intros [= <- _]|].
    unfold departed. intros [= <- _]. split_and!; simpl.
    + intros p0 r0. rewrite lookup_insert. case_decide.
      * intros _. subst p0. by eapply Hrooms.
      * apply Hrooms.
    + intros d0 p0 [_ Hd0]%lookup_delete_Some. by eapply Hdev.
    + case_bool_decide; [|done].
      apply Forall_app. split; [done|]. constructor; [|done].
      by eapply Hrooms.
  - destruct (timers st) as [|pin rest] eqn:Ht; [done|]. intros [= <- _].
    apply Forall_cons in Htim as [_ Hrest].
    unfold cleanup; simpl.
    destruct (rooms st !! pin) as [r|]; [|done].
    case_bool_decide; [|done]. split_and!; simpl; try done.
    intros p0 r0 [_ Hr0]%lookup_delete_Some. by eapply Hrooms.
Qed.

(** X10: when every value of [Math.random()] is a binary64 number of
    [0, 1), with the product and the sum of the PIN rounded as such, every
    PIN in the registry — the keys of the room table, the values of the
    device index and the PINs of the pending timers — is a string of
    exactly six decimal digits, after any sequence of events. *)
Theorem pins_stay_six_digits reqs st :
  Forall fair reqs → run reqs init = Some st → pins_six_digits st.
Proof.
  intros Hfair Hrun.
  assert (pins_six_digits init) as Hinit.
  { unfold pins_six_digits. split_and!; simpl.
    - intros p r. by rewrite lookup_empty.
    - intros d p. by rewrite lookup_empty.
    - constructor. }
  revert Hinit Hrun. generalize init as st0.
  induction Hfair as [|req reqs Hreq _ IH]; simpl; intros st0 Hst0.
  - by intros [= <-].
  - destruct (handle req st0) as [[st1 eff]|] eqn:Hhandle; [|done].
    apply IH. by eapply pins_six_digits_handle.
Qed.

Lemma pins_stay_six_digits_witness :
  pins_six_digits
    (State {[ "100000" := Room "h" 3 [] 0 ]} ∅ ∅ ["100000"]).
Proof.
  apply (pins_stay_six_digits
           [CreateRoom "h" (Some "Ana") (Some 3%Z) 0 [0%Q];
            JoinRoom "s1" (Some "100000") (Some "Beto") (Some "d1") 1;
            Disconnect "s1"]).
  - repeat constructor; by compute.
  - by vm_compute.
Defined.

(** ** The text of a relayed message *)

Lemma str_app_cons a s t : String a s +:+ t = String a (s +:+ t).
Proof. reflexivity. Qed.

Lemma str_app_nil_r s : s +:+ EmptyString = s.
Proof. induction s as [|a s IH]; [done|]. by rewrite str_app_cons, IH. Qed.

Lemma str_app_assoc s t u : (s +:+ t) +:+ u = s +:+ (t +:+ u).
Proof. induction s as [|a s IH]; [done|]. by rewrite !str_app_cons, IH. Qed.

Lemma str_rev_app_spec s t : String.rev_app s t = String.rev s +:+ t.
Proof.
  unfold String.rev. revert t. induction s as [|a s IH]; intros t; [done|].
  simpl. rewrite (IH (String a "")), IH, str_app_assoc. done.
Qed.

Lemma str_rev_cons a s : String.rev (String a s) = String.rev s +:+ String a "".
Proof. unfold String.rev at 1. simpl. apply str_rev_app_spec. Qed.

Lemma str_rev_app s t : String.rev (s +:+ t) = String.rev t +:+ String.rev s.
Proof.
  induction s as [|a s IH]; [by rewrite str_app_nil_r|].
  by rewrite str_app_cons, !str_rev_cons, IH, str_app_assoc.
Qed.

Lemma str_rev_involutive s : String.rev (String.rev s) = s.
Proof.
  induction s as [|a s IH]; [done|].
  by rewrite str_rev_cons, str_rev_app, IH.
Qed.

Lemma str_app_length s t :
  String.length (s +:+ t) = String.length s + String.length t.
Proof. induction s as [|a s IH]; [done|]. rewrite str_app_cons. simpl. by rewrite IH. Qed.

Lemma strip_prefix_Some w s t : strip_prefix w s = Some t ↔ s = w +:+ t.
Proof.
  revert s. induction w as [|a w IH]; intros s; simpl.
  - split; [by intros [= ->]|by intros ->].
  - destruct s as [|b s].
    + split; [done|]. by rewrite str_app_cons.
    + destruct (Ascii.eqb a b) eqn:E.
      * apply Ascii.eqb_eq in E as ->. rewrite IH, str_app_cons.
        split; [by intros ->|by intros [= ->]].
      * apply Ascii.eqb_neq in E. rewrite str_app_cons.
        split; [done|]. intros [= ? ?]. congruence.
Qed.

Lemma strip_any_Some ws s t :
  strip_any ws s = Some t → ∃ w, w ∈ ws ∧ s = w +:+ t.
Proof.
  induction ws as [|w ws IH]; simpl; [done|].
  destruct (strip_prefix w s) as [t'|] eqn:E.
  - intros [= ->]. exists w. split; [by left|]. by apply strip_prefix_Some.
  - intros (w' & ? & ?)%IH. exists w'. split; [by right|done].
Qed.

Lemma strip_any_None ws s :
  strip_any ws s = None ↔ ∀ w t, w ∈ ws → s ≠ w +:+ t.
Proof.
  induction ws as [|w ws IH]; simpl.
  - split; [|done]. intros _ w t Hw. by apply elem_of_nil in Hw.
  - destruct (strip_prefix w s) as [t'|] eqn:E.
    + split; [done|]. intros H. apply strip_prefix_Some in E.
      by destruct (H w t' (list_elem_of_here _ _)).
    + rewrite IH. split.
      * intros H w' t [->|Hw]%elem_of_cons; [|by apply H].
        intros Hs%strip_prefix_Some. congruence.
      * intros H w' t Hw. apply H. by right.
Qed.

(** Every stripped prefix is one of [ws]; when none of [ws] is empty and the
    fuel is the length of the string, nothing of [ws] is left in front. *)
Lemma strip_all_prefix ws fuel s : ∃ pre, s = pre +:+ strip_all ws fuel s.
Proof.
  revert s. induction fuel as [|fuel IH]; intros s; simpl.
  - by exists EmptyString.
  - destruct (strip_any ws s) as [t|] eqn:E; [|by exists EmptyString].
    apply strip_any_Some in E as (w & _ & ->).
    destruct (IH t) as [pre Hpre]. exists (w +:+ pre).
    by rewrite str_app_assoc, <-Hpre.
Qed.

Lemma strip_all_done ws fuel s :
  EmptyString ∉ ws → String.length s ≤ fuel →
  strip_any ws (strip_all ws fuel s) = None.
Proof.
  intros Hne. revert s. induction fuel as [|fuel IH]; intros s Hlen; simpl.
  - destruct s; [|simpl in Hlen; lia].
    apply strip_any_None. intros w t Hw Hs.
    destruct w; [done|]. by rewrite str_app_cons in Hs.
  - destruct (strip_any ws s) as [t|] eqn:E; [|done].
    apply IH. apply strip_any_Some in E as (w & Hw & ->).
    rewrite str_app_length in Hlen.
    destruct w; [done|]. simpl in Hlen. lia.
Qed.

Lemma strip_all_id ws fuel s : strip_any ws s = None → strip_all ws fuel s = s.
Proof. intros H. destruct fuel; simpl; [done|]. by rewrite H. Qed.

Lemma str_rev_length s : String.length (String.rev s) = String.length s.
Proof.
  induction s as [|a s IH]; [done|].
  rewrite str_rev_cons, str_app_length, IH. simpl. lia.
Qed.

Lemma white_space_nonempty : EmptyString ∉ white_space.
Proof.
  intros H. unfold white_space in H. apply list_elem_of_fmap in H as (l & Hl & H).
  repeat (apply elem_of_cons in H as [->|H]; [done|]).
  by apply elem_of_nil in H.
Qed.

Lemma white_space_rev_nonempty : EmptyString ∉ String.rev <$> white_space.
Proof.
  intros (w & Hw & H)%list_elem_of_fmap.
  apply white_space_nonempty. replace EmptyString with w; [done|].
  by rewrite <-(str_rev_involutive w), <-Hw.
Qed.

Lemma starts_with_space_false s :
  starts_with_space s = false ↔ strip_any white_space s = None.
Proof.
  unfold starts_with_space. rewrite bool_decide_eq_false.
  by rewrite eq_None_not_Some.
Qed.

Lemma ends_with_space_false s :
  ends_with_space s = false
  ↔ strip_any (String.rev <$> white_space) (String.rev s) = None.
Proof.
  unfold ends_with_space. rewrite bool_decide_eq_false.
  by rewrite eq_None_not_Some.
Qed.

Lemma trimStart_no_lead s : starts_with_space (trimStart s) = false.
Proof.
  apply starts_with_space_false, strip_all_done;
    [apply white_space_nonempty|done].
Qed.

Lemma trimEnd_no_trail s : ends_with_space (trimEnd s) = false.
Proof.
  apply ends_with_space_false. unfold trimEnd. rewrite str_rev_involutive.
  apply strip_all_done; [apply white_space_rev_nonempty|].
  by rewrite str_rev_length.
Qed.

(** What [trimEnd] returns is a prefix of its argument, so it begins with
    white space only if the argument does. *)
Lemma trimEnd_prefix s : ∃ post, s = trimEnd s +:+ post.
Proof.
  unfold trimEnd.
  destruct (strip_all_prefix (String.rev <$> white_space) (String.length s)
              (String.rev s)) as [pre Hpre].
  exists (String.rev pre).
  by rewrite <-str_rev_app, <-Hpre, str_rev_involutive.
Qed.

Lemma trimEnd_no_lead s :
  starts_with_space s = false → starts_with_space (trimEnd s) = false.
Proof.
  rewrite !starts_with_space_false, !strip_any_None.
  intros Hs w t Hw Heq. destruct (trimEnd_prefix s) as [post Hpost].
  apply (Hs w (t +:+ post) Hw).
  by rewrite Hpost, Heq, str_app_assoc.
Qed.

Lemma trim_no_trail s : ends_with_space (trim s) = false.
Proof. apply trimEnd_no_trail. Qed.

Lemma trim_no_lead s : starts_with_space (trim s) = false.
Proof. apply trimEnd_no_lead, trimStart_no_lead. Qed.

Lemma trim_trimmed s :
  starts_with_space s = false → ends_with_space s = false → trim s = s.
Proof.
  rewrite starts_with_space_false, ends_with_space_false.
  intros Hlead Htrail. unfold trim, trimStart, trimEnd.
  rewrite (strip_all_id _ _ s) by done.
  rewrite (strip_all_id _ _ (String.rev s)) by done.
  apply str_rev_involutive.
Qed.

(** X11: the text of every [receive_message] event that [send_message]
    emits neither begins nor ends with a character of white space or a
    line terminator and is a fixed point of [trim]; the event goes to the
    PIN of an existing room, carries a non-empty author and the time of the
    server. *)
Theorem relayed_text_trimmed pin autor message now st p a m t :
  io_to_emit p (receive_message a m t)
    ∈ (send_message pin autor message now st).2 →
  starts_with_space m = false ∧ ends_with_space m = false ∧ trim m = m
  ∧ pin = Some p ∧ autor = Some a ∧ a ≠ EmptyString
  ∧ is_Some (rooms st !! p) ∧ t = now.
Proof.
  unfold send_message.
  destruct (truthy pin) eqn:Hpin; simpl; [|by intros ?%elem_of_nil].
  destruct (truthy autor) eqn:Hautor; simpl; [|by intros ?%elem_of_nil].
  destruct (truthy message) eqn:Hmsg; simpl; [|by intros ?%elem_of_nil].
  apply truthy_present in Hpin as (p0 & -> & Hp).
  apply truthy_present in Hautor as (a0 & -> & Ha).
  apply truthy_present in Hmsg as (m0 & -> & Hm).
  destruct (rooms st !! p0) as [r|] eqn:Hr; simpl; [|by intros ?%elem_of_nil].
  intros [= <- <- -> <-]%list_elem_of_singleton.
  split_and!; try done.
  - apply trim_no_lead.
  - apply trim_no_trail.
  - apply trim_trimmed; [apply trim_no_lead|apply trim_no_trail].
Qed.

Lemma relayed_text_trimmed_witness :
  starts_with_space "hola  a todos" = false
  ∧ ends_with_space "hola  a todos" = false
  ∧ trim "hola  a todos" = "hola  a todos"
  ∧ Some "100000" = Some "100000" ∧ Some "Ana" = Some "Ana"
  ∧ "Ana" ≠ EmptyString
  ∧ is_Some (rooms (State {[ "100000" := Room "h" 2 [] 0 ]} ∅ ∅ [])
               !! "100000")
  ∧ 5%Z = 5%Z.
Proof.
  apply (relayed_text_trimmed (Some "100000") (Some "Ana")
           (Some (bytes [194; 160; 32] +:+ "hola  a todos"
                  +:+ bytes [9; 226; 128; 168; 239; 187; 191])) 5%Z
           (State {[ "100000" := Room "h" 2 [] 0 ]} ∅ ∅ [])
           "100000" "Ana" "hola  a todos" 5%Z).
  vm_compute. by left.
Defined.

(** [trim] on the white space outside ASCII: a no-break space in front and
    a line separator behind are removed, white space inside stays. *)
Example trim_unicode :
  trim (bytes [194; 160] +:+ "a b" +:+ bytes [226; 128; 168]) = "a b"
  ∧ trim (bytes [239; 187; 191; 32; 226; 128; 128; 13; 10]) = EmptyString
  ∧ trim "a" = "a".
Proof. by vm_compute. Qed.

(** ** The host lookup *)

Lemma external_check (e : ifaceData) :
  bool_decide (family e = "IPv4") && negb (internal e) = bool_decide (external e).
Proof.
  destruct (internal e) eqn:Hint; simpl.
  - rewrite andb_false_r. symmetry. apply bool_decide_eq_false_2.
    intros [_ ?]. congruence.
  - rewrite andb_true_r. apply bool_decide_ext.
    split; [by split|by intros [? _]].
Qed.

Lemma getHostInfo_of_spec host (entries : list ifaceData) :
  getHostInfo_of host entries
  = (λ e, HostInfo (address e) host) <$> head (filter external entries).
Proof.
  induction entries as [|e entries IH]; [done|]. simpl.
  rewrite external_check, filter_cons.
  destruct (decide (external e)) as [He|He].
  - by rewrite bool_decide_eq_true_2.
  - by rewrite bool_decide_eq_false_2.
Qed.

Lemma getHostInfo_in_spec host (interfaces : list (string * list ifaceData)) :
  getHostInfo_in host interfaces
  = (λ e, HostInfo (address e) host)
      <$> head (filter external (mjoin (snd <$> interfaces))).
Proof.
  induction interfaces as [|[name entries] interfaces IH]; [done|].
  cbn [getHostInfo_in]. rewrite getHostInfo_of_spec, IH.
  rewrite fmap_cons. cbn [snd].
  change (mjoin (entries :: (snd <$> interfaces)))
    with (entries ++ mjoin (snd <$> interfaces)).
  rewrite filter_app, head_app.
  by destruct (filter external entries).
Qed.

(** X12: [getHostInfo] answers with the address of the first entry, in the
    order in which the interfaces and their entries are enumerated, that is
    IPv4 and not internal, and with 'unknown' exactly when there is no such
    entry; the host name is always the one the system reports. *)
Theorem getHostInfo_first_external
    (interfaces : list (string * list ifaceData)) (host : string) :
  getHostInfo interfaces host
  = HostInfo
      (match head (filter external (mjoin (snd <$> interfaces))) with
       | Some e => address e
       | None => "unknown"
       end) host
  ∧ ((∃ name entries e, (name, entries) ∈ interfaces ∧ e ∈ entries
                         ∧ external e)
     ↔ ∃ e, getHostInfo_in host interfaces = Some (HostInfo (address e) host)
            ∧ external e).
Proof.
  split.
  - unfold getHostInfo. rewrite getHostInfo_in_spec.
    by destruct (head (filter external (mjoin (snd <$> interfaces)))).
  - rewrite getHostInfo_in_spec. split.
    + intros (name & entries & e & Hin & He & Hext).
      assert (e ∈ filter external (mjoin (snd <$> interfaces))) as Hf.
      { apply list_elem_of_filter. split; [done|].
        apply list_elem_of_join. exists entries. split; [done|].
        apply list_elem_of_fmap. by exists (name, entries). }
      destruct (filter external (mjoin (snd <$> interfaces)))
        as [|e' l] eqn:Heq; [by apply elem_of_nil in Hf|].
      exists e'. split; [done|].
      assert (e' ∈ filter external (mjoin (snd <$> interfaces))) as He'
        by (rewrite Heq; by left).
      by apply list_elem_of_filter in He' as [? _].
    + intros (e & Hhead & Hext).
      destruct (head (filter external (mjoin (snd <$> interfaces))))
        as [e'|] eqn:Heq; [|done].
      apply head_Some_elem_of in Heq.
      apply list_elem_of_filter in Heq as [Hext' Hin].
      apply list_elem_of_join in Hin as (entries & He' & Hentries).
      apply list_elem_of_fmap in Hentries as ([name entries'] & -> & Hin).
      by exists name, entries', e'.
Qed.

Example getHostInfo_skips_loopback :
  getHostInfo
    [("lo", [IfaceData "IPv4" true "127.0.0.1"; IfaceData "IPv6" true "::1"]);
     ("eth0", [IfaceData "IPv6" false "fe80::1";
               IfaceData "IPv4" false "192.168.1.20"]);
     ("wlan0", [IfaceData "IPv4" false "10.0.0.7"])] "chat-host"
  = HostInfo "192.168.1.20" "chat-host".
Proof. reflexivity. Qed.

(** ** The status queries *)



(** X14: right after a successful join, [GET /room/:pin] on the PIN of the
    answer lists the participants it listed before the join followed by the
    joiner, with the nickname, the device identifier and the time of the
    join, and its participant count and capacity are those of the answer of
    the join. *)
Theorem get_room_lists_joiner sid pin nick dev now st st1 eff1 p n l sockets :
  join_room sid pin nick dev now st = (st1, eff1) →
  answer eff1 = Some (success p n l) →
  ∃ c ps nk d,
    nick = Some nk ∧ dev = Some d
    ∧ get_room sockets p st = room_200 p c l (n - 1) ps
    ∧ get_room sockets p st1
      = room_200 p c l n
          (ps ++ [Participant nk d now (bool_decide (sid ∈ sockets))]).
Proof.
  intros Hjoin Hans.
  assert (succeeded eff1 = true) as Hok by (unfold succeeded; by rewrite Hans).
  destruct (join_room_succeeded _ _ _ _ _ _ _ _ Hjoin Hok)
    as (p0 & nk & d & r & -> & -> & -> & _ & _ & _ & Hr & _ & _ & _ & Hst1).
  unfold joined in Hst1. injection Hst1 as -> ->.
  simpl in Hans. injection Hans as <- <- <-.
  eexists _, _, nk, d. split; [done|]. split; [done|].
  unfold get_room. simpl. rewrite Hr, lookup_insert_eq. simpl.
  rewrite length_app, fmap_app. simpl.
  replace (length (users r) + 1 - 1) with (length (users r)) by lia.
  done.
Qed.

Lemma get_room_lists_joiner_witness :
  let st := State {[ "100000" := Room "h" 3 [] 0 ]} ∅ ∅ [] in
  let st1 := State {[ "100000" := Room "h" 3 [User "s1" "Beto" "d1" 5] 0 ]}
                   {[ "d1" := "100000" ]} {[ "s1" := "d1" ]} [] in
  ∃ c ps nk d,
    Some "Beto" = Some nk ∧ Some "d1" = Some d
    ∧ get_room {[ "s1" ]} "100000" st = room_200 "100000" c 3 (1 - 1) ps
    ∧ get_room {[ "s1" ]} "100000" st1
      = room_200 "100000" c 3 1
          (ps ++ [Participant nk d 5 (bool_decide ("s1" ∈ ({[ "s1" ]} : gset string)))]).
Proof.
  intros st st1.
  apply (get_room_lists_joiner "s1" (Some "100000") (Some "Beto") (Some "d1")
           5%Z st st1
           (joined "s1" "100000" "Beto" "d1" 5 (Room "h" 3 [] 0) st).2
           "100000" 1 3%Z {[ "s1" ]}); by vm_compute.
Defined.

(** X15: how one event moves the counters of [GET /health].  A successful
    [create_room] adds one room and nothing else; a join or a message never
    changes the number of rooms, and a rejected join changes no counter; a
    disconnect that emits takes one device and one socket off and keeps the
    room counted, even when it leaves it empty; only the expiry of a timer
    takes a room off, by one, when its room is still there without
    member. *)
Theorem health_step req st st' eff :
  handle req st = Some (st', eff) →
  let h := get_health st in
  let h' := get_health st' in
  match req with
  | CreateRoom _ _ _ _ _ =>
      h' = Health (if succeeded eff then S (h_rooms h) else h_rooms h)
                  (h_connectedDevices h) (h_activeSockets h)
  | JoinRoom _ _ _ _ _ =>
      h_rooms h' = h_rooms h ∧ (succeeded eff = false → h' = h)
  | SendMessage _ _ _ _ _ => h' = h
  | Disconnect _ =>
      h_rooms h' = h_rooms h
      ∧ match eff with
        | [] => h' = h
        | _ :: _ =>
            S (h_connectedDevices h') = h_connectedDevices h
            ∧ S (h_activeSockets h') = h_activeSockets h
        end
  | Timeout =>
      h_connectedDevices h' = h_connectedDevices h
      ∧ h_activeSockets h' = h_activeSockets h
      ∧ ∃ pin, head (timers st) = Some pin
          ∧ match rooms st !! pin with
            | Some r =>
                match users r with
                | [] => S (h_rooms h') = h_rooms h
                | _ :: _ => h_rooms h' = h_rooms h
                end
            | None => h_rooms h' = h_rooms h
            end
  end.
Proof.
  intros Hreq. unfold get_health.
  destruct req as [sid nk lim now rnd|sid pin nk d now
                  |sid pin autor msg now|sid|]; simpl in Hreq; cbn zeta.
  - destruct (create_room_cases sid nk lim now rnd st)
      as [[_ Hc]|(n & _ & _ & _ & Hc)]; rewrite Hc in Hreq.
    { by injection Hreq as <- <-. }
    destruct (generateUniquePIN (rooms st) rnd) as [pin|] eqn:Hpin; [|done].
    simpl in Hreq. injection Hreq as <- <-.
    destruct (generateUniquePIN_Some _ _ _ Hpin) as [Hfree _].
    simpl. by rewrite map_size_insert_None.
  - destruct (join_room_cases sid pin nk d now st)
      as [(e & _ & Hj)|(p & nk' & d' & r & _ & _ & _ & _ & Hr & _ & Hj)];
      rewrite Hj in Hreq.
    { by injection Hreq as <- <-. }
    unfold joined in Hreq. injection Hreq as <- <-. simpl.
    split; [|done]. by rewrite map_size_insert_Some.
  - injection Hreq as Hsend.
    pose proof (send_message_state pin autor msg now st) as Hst'.
    rewrite Hsend in Hst'. simpl in Hst'. by subst st'.
  - destruct (disconnect_cases sid st)
      as [Hd|(d & pin & r & i & u & Hsid & Hdev & Hr & _ & Hd)];
      rewrite Hd in Hreq.
    { by injection Hreq as <- <-. }
    unfold departed in Hreq. injection Hreq as <- <-. simpl.
    rewrite map_size_insert_Some by done.
    rewrite !map_size_delete_Some by done.
    assert (size (deviceRoomMap st) ≠ 0) as Hd1.
    { intros Hz%map_size_empty_inv. rewrite Hz in Hdev.
      by rewrite lookup_empty in Hdev. }
    assert (size (socketToDeviceMap st) ≠ 0) as Hs1.
    { intros Hz%map_size_empty_inv. rewrite Hz in Hsid.
      by rewrite lookup_empty in Hsid. }
    split_and!; [done|lia|lia].
  - destruct (timers st) as [|pin rest]; [done|].
    injection Hreq as <- <-. unfold cleanup. simpl.
    destruct (rooms st !! pin) as [r|] eqn:Hr; simpl.
    + case_bool_decide as Hlen; simpl.
      * apply length_zero_iff_nil in Hlen.
        split_and!; try done. exists pin. split; [done|].
        rewrite Hr, Hlen, map_size_delete_Some by done.
        assert (size (rooms st) ≠ 0) as Hr1.
        { intros Hz%map_size_empty_inv. rewrite Hz in Hr.
          by rewrite lookup_empty in Hr. }
        lia.
      * split_and!; try done. exists pin. split; [done|]. rewrite Hr.
        by destruct (users r).
    + split_and!; try done. exists pin. split; [done|]. by rewrite Hr.
Qed.

Lemma health_step_witness :
  let st := State {[ "100000" := Room "h" 3 [User "s1" "Beto" "d1" 5] 0 ]}
                  {[ "d1" := "100000" ]} {[ "s1" := "d1" ]} [] in
  let st' := State {[ "100000" := Room "h" 3 [] 0 ]} ∅ ∅ ["100000"] in
  h_rooms (get_health st') = h_rooms (get_health st)
  ∧ S (h_connectedDevices (get_health st')) = h_connectedDevices (get_health st)
  ∧ S (h_activeSockets (get_health st')) = h_activeSockets (get_health st).
Proof.
  intros st st'.
  apply (health_step (Disconnect "s1") st st'
           [io_to_emit "100000" (room_update 0 3 None (Some "Beto"))]).
  by vm_compute.
Defined.

(** ** The PIN that the generator settles on *)

(** X16: [generateUniquePIN] returns the PIN of the first value of
    [Math.random()] whose PIN, computed in binary64 arithmetic, is not a key
    of the room table: no earlier value is free, and the values after it
    are not looked at. *)
Theorem generateUniquePIN_first_free (rooms : gmap string room) (rnd : list Q) :
  generateUniquePIN rooms rnd
  = draw <$> head (filter (λ r, rooms !! draw r = None) rnd).
Proof.
  induction rnd as [|r rnd IH]; [done|]. simpl. rewrite filter_cons.
  destruct (has rooms (draw r)) eqn:Hhas.
  - apply has_true in Hhas as [x Hx].
    rewrite decide_False by congruence. done.
  - apply has_false in Hhas. by rewrite decide_True.
Qed.

(** * The older server *)

(** ** Enumeration of the room table *)

#[local] Instance index_le_trans : Transitive P1.index_le.
Proof.
  intros a b c [Hab|[Hab Hab']] [Hbc|[Hbc Hbc']]; unfold P1.index_le.
  - left. lia.
  - left. lia.
  - left. lia.
  - right. split; [lia|]. by trans b.
Qed.

#[local] Instance index_le_total : Total P1.index_le.
Proof.
  intros a b. unfold P1.index_le.
  destruct (Nat.lt_trichotomy (String.length a) (String.length b))
    as [?|[?|?]]; [by left; left| |by right; left].
  destruct (total String.le a b); [left|right]; right; by split.
Qed.

Lemma p1_enumerate_elem_of (m : gmap string P1.room) (pin : string) :
  pin ∈ P1.enumerate m ↔ is_Some (m !! pin).
Proof.
  unfold P1.enumerate.
  rewrite (merge_sort_Permutation P1.index_le), elem_of_elements.
  apply elem_of_dom.
Qed.

(** The loop does nothing when no enumerated room has the socket. *)
Lemma p1_disconnect_loop_none sid pins st :
  (∀ pin r, pin ∈ pins → P1.rooms st !! pin = Some r →
     list_find (λ u, P1.socketId u = sid) (P1.users r) = None) →
  P1.disconnect_loop sid pins st = (st, []).
Proof.
  induction pins as [|pin pins IH]; intros Hnone; [done|]. simpl.
  assert (P1.disconnect_loop sid pins st = (st, [])) as Hrest.
  { apply IH. intros p r Hp. apply Hnone. by right. }
  destruct (P1.rooms st !! pin) as [r|] eqn:Hr; [|done].
  by rewrite (Hnone pin r) by (done || by left).
Qed.

(** Otherwise it stops at the first enumerated room that has the socket. *)
Lemma p1_disconnect_loop_first sid l1 pin l2 st r i u :
  (∀ p r0, p ∈ l1 → P1.rooms st !! p = Some r0 →
     list_find (λ v, P1.socketId v = sid) (P1.users r0) = None) →
  P1.rooms st !! pin = Some r →
  list_find (λ v, P1.socketId v = sid) (P1.users r) = Some (i, u) →
  P1.disconnect_loop sid (l1 ++ pin :: l2) st
  = P1.disconnect_loop sid [pin] st.
Proof.
  intros Hnone Hr Hi. induction l1 as [|p l1 IH]; simpl.
  - by rewrite Hr, Hi.
  - rewrite IH by (intros p0 r0 Hp0; apply Hnone; by right).
    destruct (P1.rooms st !! p) as [r0|] eqn:Hr0; [|done].
    by rewrite (Hnone p r0) by (done || by left).
Qed.

Lemma list_split_first {A} (P : A → Prop) `{∀ x, Decision (P x)} (l : list A) :
  Forall (λ x, ¬ P x) l
  ∨ ∃ l1 x l2, l = l1 ++ x :: l2 ∧ Forall (λ y, ¬ P y) l1 ∧ P x.
Proof.
  induction l as [|x l [IH|(l1 & y & l2 & -> & Hl1 & Hy)]].
  - by left.
  - destruct (decide (P x)) as [Hx|Hx].
    + right. by exists [], x, l.
    + left. by constructor.
  - destruct (decide (P x)) as [Hx|Hx].
    + right. by exists [], x, (l1 ++ y :: l2).
    + right. exists (x :: l1), y, l2. split; [done|]. split; [|done].
      by constructor.
Qed.

Lemma index_le_refl (a : string) : P1.index_le a a.
Proof. right. split; [done|]. reflexivity. Qed.

(** X17: the disconnect handler of the older server either finds the socket
    in no room and does nothing, or removes exactly one member: the first
    one with the socket in the first room, by ascending PIN, that has one.
    The room hears the number of members left; the room is deleted at once
    when none is left; and the index entry of the device of the member
    removed is deleted, so that this device is afterwards not indexed to
    any PIN. *)
Theorem p1_disconnect_effect sid st :
  (P1.disconnect sid st = (st, [])
   ∧ ∀ pin r, P1.rooms st !! pin = Some r →
       Forall (λ v, P1.socketId v ≠ sid) (P1.users r))
  ∨ ∃ pin r i u,
      P1.rooms st !! pin = Some r
      ∧ list_find (λ v, P1.socketId v = sid) (P1.users r) = Some (i, u)
      ∧ (∀ pin' r', P1.rooms st !! pin' = Some r' →
           (∃ v, v ∈ P1.users r' ∧ P1.socketId v = sid) →
           P1.index_le pin pin')
      ∧ P1.disconnect sid st
        = ({| P1.rooms :=
                if bool_decide (length (P1.users r) = 1)
                then delete pin (P1.rooms st)
                else <[pin := P1.Room (P1.hostSocketId r) (P1.limit r)
                                      (delete i (P1.users r))]> (P1.rooms st);
              P1.deviceRoomMap :=
                if P1.indexed (P1.deviceRoomMap st) (P1.deviceId u)
                then delete (P1.key (P1.deviceId u)) (P1.deviceRoomMap st)
                else P1.deviceRoomMap st |},
           [P1.io_to_emit (Some pin)
              (P1.room_update (length (P1.users r) - 1) (P1.limit r))])
      ∧ (∀ d p, P1.deviceId u = Some d → d ≠ EmptyString →
           P1.deviceRoomMap (P1.disconnect sid st).1 !! d = Some (Some p) →
           p = EmptyString).
Proof.
  set (holds := λ pin,
         match P1.rooms st !! pin with
         | Some r =>
             bool_decide
               (is_Some (list_find (λ v, P1.socketId v = sid) (P1.users r)))
         | None => false
         end).
  destruct (list_split_first (λ pin, holds pin = true)
              (P1.enumerate (P1.rooms st)))
    as [Hnone|(l1 & pin & l2 & Heq & Hl1 & Hpin)].
  - left. rewrite Forall_forall in Hnone.
    assert (∀ pin r, P1.rooms st !! pin = Some r →
              list_find (λ v, P1.socketId v = sid) (P1.users r) = None)
      as Hno.
    { intros pin r Hr.
      assert (pin ∈ P1.enumerate (P1.rooms st)) as Hin
        by (apply p1_enumerate_elem_of; by eexists).
      specialize (Hnone pin Hin). unfold holds in Hnone. rewrite Hr in Hnone.
      apply not_true_is_false, bool_decide_eq_false in Hnone.
      by apply eq_None_not_Some. }
    split.
    + apply p1_disconnect_loop_none. intros pin r _. apply Hno.
    + intros pin r Hr. apply (list_find_None (λ v, P1.socketId v = sid)).
      by eapply Hno.
  - right. unfold holds in Hpin.
    destruct (P1.rooms st !! pin) as [r|] eqn:Hr; [|done].
    apply bool_decide_eq_true in Hpin as [[i u] Hi].
    assert (∀ p r0, p ∈ l1 → P1.rooms st !! p = Some r0 →
              list_find (λ v, P1.socketId v = sid) (P1.users r0) = None)
      as Hbefore.
    { intros p r0 Hp Hr0. rewrite Forall_forall in Hl1.
      specialize (Hl1 p Hp). unfold holds in Hl1. rewrite Hr0 in Hl1.
      apply not_true_is_false, bool_decide_eq_false in Hl1.
      by apply eq_None_not_Some. }
    assert (P1.disconnect sid st
            = ({| P1.rooms :=
                    if bool_decide (length (P1.users r) = 1)
                    then delete pin (P1.rooms st)
                    else <[pin := P1.Room (P1.hostSocketId r) (P1.limit r)
                                     (delete i (P1.users r))]> (P1.rooms st);
                  P1.deviceRoomMap :=
                    if P1.indexed (P1.deviceRoomMap st) (P1.deviceId u)
                    then delete (P1.key (P1.deviceId u)) (P1.deviceRoomMap st)
                    else P1.deviceRoomMap st |},
               [P1.io_to_emit (Some pin)
                  (P1.room_update (length (P1.users r) - 1) (P1.limit r))]))
      as Hdis.
    { unfold P1.disconnect. rewrite Heq.
      rewrite (p1_disconnect_loop_first sid l1 pin l2 st r i u) by done.
      simpl. rewrite Hr, Hi. simpl.
      pose proof Hi as Hi'. apply list_find_Some in Hi' as (Hlook & _ & _).
      rewrite length_delete by by eexists.
      apply lookup_lt_Some in Hlook.
      assert (bool_decide (length (P1.users r) - 1 = 0)
              = bool_decide (length (P1.users r) = 1)) as ->; [|done].
      apply bool_decide_ext. lia. }
    exists pin, r, i, u. split; [done|]. split; [done|]. split; [|split].
    + intros pin' r' Hr' (v & Hv & Hsid).
      assert (pin' ∈ l1 ++ pin :: l2) as Hin.
      { rewrite <-Heq. apply p1_enumerate_elem_of. by eexists. }
      assert (StronglySorted P1.index_le (l1 ++ pin :: l2)) as Hsorted.
      { rewrite <-Heq. apply StronglySorted_merge_sort; apply _. }
      apply elem_of_app in Hin as [Hin|Hin].
      * exfalso. pose proof (Hbefore pin' r' Hin Hr') as Hnone.
        apply (list_find_None (λ v, P1.socketId v = sid)) in Hnone.
        rewrite Forall_forall in Hnone. by apply (Hnone v).
      * apply elem_of_cons in Hin as [->|Hin]; [apply index_le_refl|].
        apply StronglySorted_app in Hsorted as (_ & _ & Hsorted).
        apply StronglySorted_cons in Hsorted as [Hle _].
        rewrite Forall_forall in Hle. by apply Hle.
    + done.
    + rewrite Hdis. simpl. intros d p Hd Hne.
      unfold P1.indexed, P1.get. rewrite Hd. simpl.
      apply String.eqb_neq in Hne. rewrite Hne. simpl.
      destruct (P1.deviceRoomMap st !! d) as [v|] eqn:Hv.
      * destruct (truthy v) eqn:Htv.
        -- by rewrite lookup_delete_eq.
        -- rewrite Hv. intros [= ->]. simpl in Htv.
           apply negb_false_iff, String.eqb_eq in Htv. done.
      * destruct (P1.inherited d).
        -- by rewrite lookup_delete_eq.
        -- by rewrite Hv.
Qed.

Example p1_disconnect_lowest_pin :
  P1.disconnect "s1"
    (P1.State
       {[ "550000" := P1.Room "g" (Some 3%Z)
                        [P1.User "s1" (Some "Beto") (Some "d2")];
          "100000" := P1.Room "h" (Some 3%Z)
                        [P1.User "s0" (Some "Ana") (Some "d0");
                         P1.User "s1" (Some "Beto") (Some "d1")] ]}
       {[ "d0" := Some "100000"; "d1" := Some "100000";
          "d2" := Some "550000" ]})
  = (P1.State
       {[ "550000" := P1.Room "g" (Some 3%Z)
                        [P1.User "s1" (Some "Beto") (Some "d2")];
          "100000" := P1.Room "h" (Some 3%Z)
                        [P1.User "s0" (Some "Ana") (Some "d0")] ]}
       {[ "d0" := Some "100000"; "d2" := Some "550000" ]},
     [P1.io_to_emit (Some "100000") (P1.room_update 1 (Some 3%Z))]).
Proof. by vm_compute. Qed.

(** ** Joining a room of the older server *)

Lemma p1_member_check (d : option string) (us : list P1.user) :
  existsb (λ u, bool_decide (P1.deviceId u = d)) us
  = bool_decide (d ∈ P1.deviceId <$> us).
Proof.
  induction us as [|u us IH]; [done|].
  rewrite fmap_cons. cbn [existsb]. rewrite IH.
  destruct (decide (P1.deviceId u = d)) as [<-|Hne].
  - rewrite (bool_decide_eq_true_2 (P1.deviceId u = P1.deviceId u)) by done.
    symmetry. apply bool_decide_eq_true_2. by left.
  - rewrite (bool_decide_eq_false_2 (P1.deviceId u = d)) by done.
    apply bool_decide_ext. rewrite elem_of_cons. split; [by right|].
    by intros [?|?].
Qed.

Lemma p1_full_check (r : P1.room) :
  P1.full r
  = match P1.limit r with
    | Some n => bool_decide (n ≤ Z.of_nat (length (P1.users r)))%Z
    | None => false
    end.
Proof.
  unfold P1.full. destruct (P1.limit r) as [n|]; [|done].
  destruct (Z.leb_spec n (Z.of_nat (length (P1.users r)))).
  - by rewrite bool_decide_eq_true_2.
  - by rewrite bool_decide_eq_false_2 by lia.
Qed.

Lemma p1_elsewhere_check (m : gmap string (option string)) (d p : string) :
  P1.inherited d = false →
  P1.elsewhere m (Some d) (Some p)
  = match m !! d with
    | Some (Some p') => bool_decide (p' ≠ EmptyString ∧ p' ≠ p)
    | _ => false
    end.
Proof.
  intros Hd. unfold P1.elsewhere, P1.get. simpl.
  destruct (m !! d) as [[p'|]|]; simpl; [| done | by rewrite Hd].
  destruct (decide (p' = EmptyString)) as [->|Hp'].
  - simpl. first [done|symmetry; apply bool_decide_eq_false_2; by intros [? _]].
  - apply String.eqb_neq in Hp' as Hp''. rewrite Hp''. simpl.
    apply bool_decide_ext. split.
    + intros Hne. split; [done|]. congruence.
    + intros [_ Hne]. congruence.
Qed.

(** X18: the join handler of the older server has no guard on the request
    fields.  For a pin and a device identifier that are not names of
    [Object.prototype] it runs the four checks room-not-found, room-full,
    device-already-elsewhere, device-already-in-room in this order, answers
    the first that fails with [error_join] and changes nothing, and
    otherwise appends the member, indexes the device and reports the new
    number of members; the nickname is never looked at.  A pin that is a
    name of the prototype makes the handler throw, and such a device
    identifier is answered as already elsewhere. *)
Theorem p1_join_room_order sid nick st :
  (∀ p d, P1.inherited p = false → P1.inherited d = false →
     match P1.listed_checks st p d with
     | Some e =>
         P1.join_room sid (Some p) nick (Some d) st
         = Some (st, [P1.socket_emit (P1.error_join e)])
     | None =>
         ∃ r, P1.rooms st !! p = Some r
           ∧ P1.join_room sid (Some p) nick (Some d) st
             = Some ({| P1.rooms :=
                          <[p := P1.Room (P1.hostSocketId r) (P1.limit r)
                                   (P1.users r ++ [P1.User sid nick (Some d)])]>
                            (P1.rooms st);
                        P1.deviceRoomMap :=
                          <[d := Some p]> (P1.deviceRoomMap st) |},
                     [P1.socket_join (Some p);
                      P1.socket_emit (P1.joined_room (Some p));
                      P1.io_to_emit (Some p)
                        (P1.room_update (S (length (P1.users r)))
                                        (P1.limit r));
                      P1.socket_emit P1.host_info])
     end)
  ∧ (∀ p dev, P1.inherited p = true → P1.rooms st !! p = None →
       P1.join_room sid (Some p) nick dev st = None)
  ∧ (∀ p d r, P1.rooms st !! p = Some r → P1.full r = false →
       P1.inherited d = true → P1.deviceRoomMap st !! d = None →
       P1.join_room sid (Some p) nick (Some d) st
       = Some (st, [P1.socket_emit (P1.error_join DeviceAlreadyElsewhere)])).
Proof.
  split_and!.
  - intros p d Hp Hd. unfold P1.listed_checks, P1.join_room, P1.get.
    cbn [P1.key].
    destruct (P1.rooms st !! p) as [r|] eqn:Hr; [|by rewrite Hp].
    rewrite p1_full_check, p1_elsewhere_check, p1_member_check by done.
    destruct (match P1.limit r with
              | Some n => bool_decide (n ≤ Z.of_nat (length (P1.users r)))%Z
              | None => false
              end); [done|].
    destruct (match P1.deviceRoomMap st !! d with
              | Some (Some p') => bool_decide (p' ≠ EmptyString ∧ p' ≠ p)
              | _ => false
              end); [done|].
    destruct (bool_decide (Some d ∈ P1.deviceId <$> P1.users r)); [done|].
    exists r. split; [done|]. simpl. rewrite length_app. simpl.
    by rewrite Nat.add_1_r.
  - intros p dev Hp Hr. unfold P1.join_room, P1.get. cbn [P1.key].
    by rewrite Hr, Hp.
  - intros p d r Hr Hfull Hd Hnone. unfold P1.join_room, P1.get.
    cbn [P1.key]. rewrite Hr, Hfull. unfold P1.elsewhere, P1.get.
    cbn [P1.key]. by rewrite Hnone, Hd.
Qed.

Lemma p1_join_room_order_witness :
  let st := P1.State {[ "100000" := P1.Room "h" (Some 2%Z) [] ]} ∅ in
  match P1.listed_checks st "100000" "d1" with
  | Some e =>
      P1.join_room "s1" (Some "100000") None (Some "d1") st
      = Some (st, [P1.socket_emit (P1.error_join e)])
  | None =>
      ∃ r, P1.rooms st !! "100000" = Some r
        ∧ P1.join_room "s1" (Some "100000") None (Some "d1") st
          = Some ({| P1.rooms :=
                       <[ "100000" := P1.Room (P1.hostSocketId r) (P1.limit r)
                                        (P1.users r ++ [P1.User "s1" None (Some "d1")])]>
                         (P1.rooms st);
                     P1.deviceRoomMap :=
                       <[ "d1" := Some "100000"]> (P1.deviceRoomMap st) |},
                  [P1.socket_join (Some "100000");
                   P1.socket_emit (P1.joined_room (Some "100000"));
                   P1.io_to_emit (Some "100000")
                     (P1.room_update (S (length (P1.users r))) (P1.limit r));
                   P1.socket_emit P1.host_info])
  end.
Proof.
  intros st.
  apply (proj1 (p1_join_room_order "s1" None st) "100000" "d1"); by vm_compute.
Defined.

Example p1_join_room_throws :
  P1.join_room "s1" (Some "constructor") (Some "Ana") (Some "d1") P1.init
  = None.
Proof. reflexivity. Qed.

(** ** Capacity in the older server *)

Lemma p1_disconnect_loop_rooms sid pins st st' eff :
  P1.disconnect_loop sid pins st = (st', eff) →
  ∀ p r', P1.rooms st' !! p = Some r' →
    ∃ r, P1.rooms st !! p = Some r ∧ P1.limit r' = P1.limit r
      ∧ length (P1.users r') ≤ length (P1.users r).
Proof.
  induction pins as [|pin pins IH]; simpl.
  - intros [= <- _] p r' Hr'. by exists r'.
  - destruct (P1.rooms st !! pin) as [r|] eqn:Hr; [|done].
    destruct (list_find (λ u, P1.socketId u = sid) (P1.users r))
      as [[i u]|]; [|done].
    intros [= <- _] p r'. simpl. case_bool_decide.
    + intros [_ Hp]%lookup_delete_Some. by exists r'.
    + rewrite lookup_insert. case_decide as Hp.
      * subst p. intros [= <-]. exists r. simpl.
        split_and!; try done. apply length_delete_le.
      * intros Hr'. by exists r'.
Qed.

Lemma p1_within_capacity_handle req st st' eff :
  P1.within_capacity st → P1.handle req st = Some (st', eff) →
  P1.within_capacity st'.
Proof.
  intros Hst. destruct req as [sid nk lim q|sid pin nk d|sid pin a m|sid];
    simpl.
  - intros [= <- _] p r n. simpl. rewrite lookup_insert. case_decide.
    + intros [= <-] _. simpl. lia.
    + apply Hst.
  - unfold P1.join_room.
    destruct (P1.get (P1.rooms st) (P1.key pin)) as [r| |] eqn:Hget;
      [|done|by intros [= <- _]].
    destruct (P1.full r) eqn:Hfull; [by intros [= <- _]|].
    destruct (P1.elsewhere (P1.deviceRoomMap st) d pin); [by intros [= <- _]|].
    destruct (existsb _ (P1.users r)); [by intros [= <- _]|].
    intros [= <- _] p r' n. simpl. rewrite lookup_insert. case_decide.
    + intros [= <-]. simpl. intros Hn.
      unfold P1.full in Hfull. rewrite Hn in Hfull.
      apply Z.leb_gt in Hfull. rewrite length_app. simpl. lia.
    + apply Hst.
  - by intros [= <- _].
  - intros [= Hdis] p r' n Hr' Hn.
    unfold P1.disconnect in Hdis.
    destruct (p1_disconnect_loop_rooms _ _ _ _ _ Hdis p r' Hr')
      as (r & Hr & Hlim & Hlen).
    rewrite Hlim in Hn. specialize (Hst p r n Hr Hn). lia.
Qed.

(** X19: the older server stores whatever [limit] the request carries.
    After any sequence of events a room with a limit has at most that many
    members (none, when the limit is not positive); a room whose limit is
    zero or less answers every join as full; a room without limit never
    answers that it is full. *)
Theorem p1_capacity :
  (∀ reqs st, P1.run reqs P1.init = Some st → P1.within_capacity st)
  ∧ (∀ st p r n sid nick dev,
       P1.rooms st !! p = Some r → P1.limit r = Some n → (n ≤ 0)%Z →
       P1.join_room sid (Some p) nick dev st
       = Some (st, [P1.socket_emit (P1.error_join RoomFull)]))
  ∧ (∀ st p r sid nick dev st' eff,
       P1.rooms st !! p = Some r → P1.limit r = None →
       P1.join_room sid (Some p) nick dev st = Some (st', eff) →
       (P1.socket_emit (P1.error_join RoomFull)) ∉ eff).
Proof.
  split_and!.
  - intros reqs.
    assert (P1.within_capacity P1.init) as Hinit.
    { intros p r n. simpl. by rewrite lookup_empty. }
    revert Hinit. generalize P1.init as st0.
    induction reqs as [|req reqs IH]; simpl; intros st0 Hst0 st.
    + by intros [= <-].
    + destruct (P1.handle req st0) as [[st1 eff]|] eqn:Hreq; [|done].
      apply IH. by eapply p1_within_capacity_handle.
  - intros st p r n sid nick dev Hr Hn Hle.
    unfold P1.join_room, P1.get. cbn [P1.key]. rewrite Hr.
    unfold P1.full. rewrite Hn.
    assert ((n <=? Z.of_nat (length (P1.users r)))%Z = true) as ->; [|done].
    apply Z.leb_le. lia.
  - intros st p r sid nick dev st' eff Hr Hn.
    unfold P1.join_room, P1.get. cbn [P1.key]. rewrite Hr.
    unfold P1.full. rewrite Hn.
    destruct (P1.elsewhere (P1.deviceRoomMap st) dev (Some p)).
    { intros [= <- <-] Hin%list_elem_of_singleton. done. }
    destruct (existsb _ (P1.users r)).
    { intros [= <- <-] Hin%list_elem_of_singleton. done. }
    intros [= <- <-]. rewrite !elem_of_cons.
    intros [?|[?|[?|[?|Hin]]]]; try done. by apply elem_of_nil in Hin.
Qed.

Lemma p1_capacity_witness :
  P1.within_capacity
    (P1.State {[ "100000" := P1.Room "h" (Some 1%Z)
                               [P1.User "s1" (Some "Beto") (Some "d1")] ]}
              {[ "d1" := Some "100000" ]})
  ∧ P1.join_room "s2" (Some "100000") (Some "Caro") (Some "d2")
      (P1.State {[ "100000" := P1.Room "h" (Some 0%Z) [] ]} ∅)
    = Some (P1.State {[ "100000" := P1.Room "h" (Some 0%Z) [] ]} ∅,
            [P1.socket_emit (P1.error_join RoomFull)]).
Proof.
  split.
  - apply (proj1 p1_capacity
             [P1.CreateRoom "h" (Some "Ana") (Some 1%Z) 0%Q;
              P1.JoinRoom "s1" (Some "100000") (Some "Beto") (Some "d1")]).
    by vm_compute.
  - apply (proj1 (proj2 p1_capacity) _ "100000"
             (P1.Room "h" (Some 0%Z) []) 0%Z); by vm_compute.
Defined.

(** ** A PIN drawn twice *)



(** * Indices in step *)

(** X21: along every run in which a join is answered with a success only on
    a socket that holds no membership, the indices follow the member lists:
    every member is indexed under its device, to the PIN of its room, and
    under its socket, to its device; every indexed device is a member of
    the indexed room; no room has two members with one device; hence every
    indexed device is a member, exactly once, of the indexed room and of no
    other. *)
Theorem indices_in_step_one_join reqs st :
  run reqs init = Some st → one_join_per_socket reqs init →
  members_indexed st ∧ index_inhabited st ∧ devices_distinct st
  ∧ index_consistent st.
Proof.
  intros Hrun Hone.
  cut (in_step st).
  { intros Hst. pose proof (in_step_consistent st Hst) as Hc.
    destruct Hst as (? & ? & ?). by split_and!. }
  assert (in_step init) as Hinit.
  { split_and!.
    - intros p r u. simpl. by rewrite lookup_empty.
    - intros d p. simpl. by rewrite lookup_empty.
    - intros p r. simpl. by rewrite lookup_empty. }
  revert Hinit Hrun Hone. generalize init as st0.
  induction reqs as [|req reqs IH]; simpl; intros st0 Hst0.
  - by intros [= <-] _.
  - destruct (handle req st0) as [[st1 eff]|] eqn:Hreq; [|done].
    intros Hrun [Hreq1 Hone]. eapply IH; [|done..].
    by eapply in_step_handle.
Qed.

Lemma indices_in_step_one_join_witness :
  let st := State {[ "100000" := Room "h" 3 [User "s2" "Caro" "d2" 3] 0 ]}
                  {[ "d2" := "100000" ]} {[ "s2" := "d2" ]} [] in
  members_indexed st ∧ index_inhabited st ∧ devices_distinct st
  ∧ index_consistent st.
Proof.
  intros st.
  apply (indices_in_step_one_join
           [CreateRoom "h" (Some "Ana") (Some 3%Z) 0 [0%Q];
            JoinRoom "s1" (Some "100000") (Some "Beto") (Some "d1") 1;
            JoinRoom "s2" (Some "100000") (Some "Caro") (Some "d2") 3;
            Disconnect "s1"]).
  - by vm_compute.
  - vm_compute. split_and!; try done; intros _; reflexivity.
Defined.
